(** * SYCLOP meta-planner: a shallow embedding of [ompl::control::Syclop]

    The planner of [Syclop.cpp] is embedded as pure state-passing functions
    over a record [Syclop] holding the planner's members.  Source constructs
    are rendered as follows.

    - [double] is an abstract carrier [D] with the operations the source
      uses ([Double]); the instance of the program is IEEE binary64 (the
      kernel's primitive floats).  The functions never look inside [D], so
      a statement proved for all [D] holds for binary64 arithmetic as the
      compiler emits it; what depends on rounding is proved of binary64.
    - The counters are [Z], and an increment is the successor: that a
      counter overflows is left out of the embedding.  Where the
      source multiplies counters, the arithmetic of the C++ type is written
      out: [int] wraps into the signed 32-bit range ([to_int]), and the
      type of [Region::numSelections], which the class definition in the
      header declares, is a parameter ([CounterType]).
      [std::size_t] expressions are reduced modulo [2^64] ([size_t]).
    - [graph_] is a vector of regions indexed by region number together with
      the out-neighbour lists; the edge objects are stored once, under the
      key [regionsToEdge_] uses, so that a reference [Adjacency&] is the key
      of the edge and aliasing between [graph_] and [regionsToEdge_] is by
      construction.
    - An access outside a vector, the dereference of a missing map entry,
      sampling an empty distribution and a walk that never ends have no
      defined result in C++; the embedding returns [None] there.
    - The decomposition, the coverage grid, the goal, the tree planner that
      subclasses [Syclop], the random number generator and the termination
      condition are external collaborators; they are type classes. *)

From Stdlib Require Import ZArith Floats.
From stdpp Require Import base option list gmap strings.

Local Open Scope Z_scope.
#[local] Set Warnings "-register-all".

(** ** Integer conversions *)

(** Arithmetic on [std::size_t] is modulo [2^64]. *)
Definition size_t (z : Z) : Z := z mod 2 ^ 64.

(** Conversion of an integer value to [int] (32-bit two's complement).  An
    [int] expression whose value leaves the range is taken to wrap around,
    as the compiled code does. *)
Definition to_int (z : Z) : Z := (z + 2 ^ 31) mod 2 ^ 32 - 2 ^ 31.

(** The integer type of the member [Region::numSelections].  The class
    [Region] is defined in the header of [Syclop], outside [Syclop.cpp], so
    the type is a parameter: [as_counter z] is the value, widened to
    [std::size_t], of an expression of that type whose mathematical value is
    [z].  It is exact on the values every 32-bit integer type holds. *)
Class CounterType : Type := {
  as_counter : Z → Z;
  as_counter_small (z : Z) : 0 ≤ z < 2 ^ 31 → as_counter z = z;
}.

(** [unsigned int]: modulo [2^32], widened by zero extension. *)
#[export] Instance unsigned_int : CounterType := {|
  as_counter z := z mod 2 ^ 32;
  as_counter_small := ltac:(intros z Hz; apply Z.mod_small; lia);
|}.

(** [int]: two's complement, widened by sign extension. *)
Definition signed_int : CounterType := {|
  as_counter z := size_t (to_int z);
  as_counter_small := ltac:(intros z Hz; unfold size_t, to_int;
                            rewrite (Z.mod_small (z + 2 ^ 31)) by lia;
                            replace (z + 2 ^ 31 - 2 ^ 31) with z by lia;
                            apply Z.mod_small; lia);
|}.

(** ** Vectors indexed by [int] *)

(** [v[i]]: defined only inside the vector. *)
Definition vec_get {A : Type} (v : list A) (i : Z) : option A :=
  if decide (0 ≤ i) then v !! Z.to_nat i else None.

(** [v[i] = x], used after [v[i]] was read. *)
Definition vec_set {A : Type} (v : list A) (i : Z) (x : A) : list A :=
  <[Z.to_nat i := x]> v.

(** [++v[i]] *)
Definition vec_incr (v : list Z) (i : Z) : option (list Z) :=
  x ← vec_get v i; Some (vec_set v i (x + 1)).

(** A loop over [l] whose body may have no defined result. *)
Fixpoint foldM {A B : Type} (f : A → B → option A) (a : A) (l : list B)
    : option A :=
  match l with
  | [] => Some a
  | x :: l' => a' ← f a x; foldM f a' l'
  end.

(** ** The arithmetic of [double] *)

Class Double (D : Type) := {
  d_zero : D;
  d_one : D;
  (** [std::numeric_limits<double>::infinity()] *)
  d_infinity : D;
  (** [std::numeric_limits<double>::epsilon()] *)
  d_epsilon : D;
  d_mul : D → D → D;
  d_div : D → D → D;
  (** [operator<] and [operator>=] *)
  d_lt : D → D → bool;
  d_ge : D → D → bool;
  (** conversion of an integer value to [double] *)
  d_of_Z : Z → D;
}.

(** IEEE 754 binary64, round to nearest even. *)
Definition binary64_of_Z (z : Z) : float :=
  SF2Prim (binary_normalize prec emax z 0 false).

#[export] Instance binary64 : Double float := {
  d_zero := PrimFloat.zero;
  d_one := PrimFloat.one;
  d_infinity := PrimFloat.infinity;
  d_epsilon := 0x1p-52%float;
  d_mul := PrimFloat.mul;
  d_div := PrimFloat.div;
  d_lt := PrimFloat.ltb;
  d_ge := fun x y => PrimFloat.leb y x;
  d_of_Z := binary64_of_Z;
}.

(** A value is positive and finite. *)
Definition d_positive {D : Type} `{Double D} (x : D) : Prop :=
  d_lt d_zero x = true ∧ d_lt x d_infinity = true.

(** A positive normal number of binary64, [m * 2^e] with a mantissa of 53
    binary digits and [lo <= e <= hi]. *)
Definition normal_between (lo hi : Z) (x : spec_float) : Prop :=
  ∃ m e, x = S754_finite false m e ∧ Zdigits2 (Z.pos m) = 53 ∧ lo ≤ e ≤ hi.

(** ** Data model *)

Section Model.

Context {D : Type} {arith : Double D} {State Control : Type}.

(** A node of the control tree.  The planner reads [state], [parent],
    [control] and [steps]; the tree planner creates the nodes. *)
Inductive Motion : Type := mkMotion {
  state : State;
  control : Control;
  steps : Z;
  parent : option Motion;
}.

(** [Syclop::Region], the property of a vertex of [graph_]. *)
Record Region : Type := {
  index : Z;
  numSelections : Z;
  volume : D;
  freeVolume : D;
  percentValidCells : D;
  covGridCells : gset Z;
  motions : list Motion;
  alpha : D;
  weight : D;
}.

(** [Syclop::Adjacency], the property of an edge of [graph_].  [source] and
    [target] point to regions of [graph_]; they are the regions' positions.
    Its [empty], [numSelections] and [covGridCells] carry the prefix [adj_]. *)
Record Adjacency : Type := {
  source : Z;
  target : Z;
  cost : D;
  adj_empty : bool;
  adj_numSelections : Z;
  numLeadInclusions : Z;
  adj_covGridCells : gset Z;
}.

(** An entry of [edgeCostFactors_]: the bound member function
    [defaultEdgeCost] that [setup] installs, or a function a user added. *)
Inductive EdgeCostFactorFn : Type :=
  | DefaultEdgeCost
  | UserEdgeCost (f : Z → Z → D).

(** What the planner writes to [msg_] and to the standard output. *)
Inductive Msg : Type :=
  | MsgError (text : string)
  | MsgInformStarting (numMotions : Z)
  | MsgStdout (text : string).

(** One call of [PathControl::append]. *)
Inductive PathEntry : Type :=
  | AppendState (s : State)
  | AppendControl (s : State) (c : Control) (duration : D).

(** One call of [Goal::addSolutionPath (path, approximate, difference)]. *)
Record Solution : Type := {
  sol_path : list PathEntry;
  sol_approximate : bool;
  sol_difference : D;
}.

(** The planner's parameters, read only in this file. *)
Record Config : Type := {
  numFreeVolSamples_ : Z;
  probShortestPath_ : D;
  probKeepAddingToAvail_ : D;
  probAbandonLeadEarly_ : D;
  numRegionExpansions_ : Z;
  numTreeSelections_ : Z;
}.

(** The members of a [Syclop] object, with the state of its collaborators
    that [solve] consumes: the position [rng_] in the random stream, the
    number of times the termination condition was polled, and the start and
    goal states [pis_] has not handed out yet. *)
Record Syclop : Type := {
  graph_regions : list Region;
  graph_out : list (list Z);
  regionsToEdge_ : gmap (Z * Z) Adjacency;
  lead_ : list Z;
  availDist_ : list (Z * D);
  startRegions_ : gset Z;
  goalRegions_ : gset Z;
  edgeCostFactors_ : list EdgeCostFactorFn;
  graphReady_ : bool;
  numMotions_ : Z;
  rng_ : nat;
  ptc_polls : nat;
  pis_starts : list State;
  pis_goals : list State;
  msg_ : list Msg;
  solutionPaths : list Solution;
  config : Config;
}.

(** Field updates. *)

Definition set_numSelections (r : Region) (x : Z) : Region :=
  {| index := index r; numSelections := x; volume := volume r;
     freeVolume := freeVolume r; percentValidCells := percentValidCells r;
     covGridCells := covGridCells r; motions := motions r; alpha := alpha r;
     weight := weight r |}.

Definition set_volume (r : Region) (x : D) : Region :=
  {| index := index r; numSelections := numSelections r; volume := x;
     freeVolume := freeVolume r; percentValidCells := percentValidCells r;
     covGridCells := covGridCells r; motions := motions r; alpha := alpha r;
     weight := weight r |}.

Definition set_freeVolume (r : Region) (x : D) : Region :=
  {| index := index r; numSelections := numSelections r; volume := volume r;
     freeVolume := x; percentValidCells := percentValidCells r;
     covGridCells := covGridCells r; motions := motions r; alpha := alpha r;
     weight := weight r |}.

Definition set_percentValidCells (r : Region) (x : D) : Region :=
  {| index := index r; numSelections := numSelections r; volume := volume r;
     freeVolume := freeVolume r; percentValidCells := x;
     covGridCells := covGridCells r; motions := motions r; alpha := alpha r;
     weight := weight r |}.

Definition set_covGridCells (r : Region) (x : gset Z) : Region :=
  {| index := index r; numSelections := numSelections r; volume := volume r;
     freeVolume := freeVolume r; percentValidCells := percentValidCells r;
     covGridCells := x; motions := motions r; alpha := alpha r;
     weight := weight r |}.

Definition set_motions (r : Region) (x : list Motion) : Region :=
  {| index := index r; numSelections := numSelections r; volume := volume r;
     freeVolume := freeVolume r; percentValidCells := percentValidCells r;
     covGridCells := covGridCells r; motions := x; alpha := alpha r;
     weight := weight r |}.

Definition set_alpha (r : Region) (x : D) : Region :=
  {| index := index r; numSelections := numSelections r; volume := volume r;
     freeVolume := freeVolume r; percentValidCells := percentValidCells r;
     covGridCells := covGridCells r; motions := motions r; alpha := x;
     weight := weight r |}.

Definition set_weight (r : Region) (x : D) : Region :=
  {| index := index r; numSelections := numSelections r; volume := volume r;
     freeVolume := freeVolume r; percentValidCells := percentValidCells r;
     covGridCells := covGridCells r; motions := motions r; alpha := alpha r;
     weight := x |}.

Definition set_cost (a : Adjacency) (x : D) : Adjacency :=
  {| source := source a; target := target a; cost := x;
     adj_empty := adj_empty a; adj_numSelections := adj_numSelections a;
     numLeadInclusions := numLeadInclusions a;
     adj_covGridCells := adj_covGridCells a |}.

Definition set_adj_empty (a : Adjacency) (x : bool) : Adjacency :=
  {| source := source a; target := target a; cost := cost a; adj_empty := x;
     adj_numSelections := adj_numSelections a;
     numLeadInclusions := numLeadInclusions a;
     adj_covGridCells := adj_covGridCells a |}.

Definition set_adj_numSelections (a : Adjacency) (x : Z) : Adjacency :=
  {| source := source a; target := target a; cost := cost a;
     adj_empty := adj_empty a; adj_numSelections := x;
     numLeadInclusions := numLeadInclusions a;
     adj_covGridCells := adj_covGridCells a |}.

Definition set_numLeadInclusions (a : Adjacency) (x : Z) : Adjacency :=
  {| source := source a; target := target a; cost := cost a;
     adj_empty := adj_empty a; adj_numSelections := adj_numSelections a;
     numLeadInclusions := x; adj_covGridCells := adj_covGridCells a |}.

Definition set_adj_covGridCells (a : Adjacency) (x : gset Z) : Adjacency :=
  {| source := source a; target := target a; cost := cost a;
     adj_empty := adj_empty a; adj_numSelections := adj_numSelections a;
     numLeadInclusions := numLeadInclusions a; adj_covGridCells := x |}.

Definition set_graph_regions (st : Syclop) (x : list Region) : Syclop :=
  {| graph_regions := x; graph_out := graph_out st;
     regionsToEdge_ := regionsToEdge_ st; lead_ := lead_ st;
     availDist_ := availDist_ st; startRegions_ := startRegions_ st;
     goalRegions_ := goalRegions_ st;
     edgeCostFactors_ := edgeCostFactors_ st; graphReady_ := graphReady_ st;
     numMotions_ := numMotions_ st; rng_ := rng_ st;
     ptc_polls := ptc_polls st; pis_starts := pis_starts st;
     pis_goals := pis_goals st; msg_ := msg_ st;
     solutionPaths := solutionPaths st; config := config st |}.

Definition set_graph_out (st : Syclop) (x : list (list Z)) : Syclop :=
  {| graph_regions := graph_regions st; graph_out := x;
     regionsToEdge_ := regionsToEdge_ st; lead_ := lead_ st;
     availDist_ := availDist_ st; startRegions_ := startRegions_ st;
     goalRegions_ := goalRegions_ st;
     edgeCostFactors_ := edgeCostFactors_ st; graphReady_ := graphReady_ st;
     numMotions_ := numMotions_ st; rng_ := rng_ st;
     ptc_polls := ptc_polls st; pis_starts := pis_starts st;
     pis_goals := pis_goals st; msg_ := msg_ st;
     solutionPaths := solutionPaths st; config := config st |}.

Definition set_regionsToEdge_ (st : Syclop) (x : gmap (Z * Z) Adjacency) : Syclop :=
  {| graph_regions := graph_regions st; graph_out := graph_out st;
     regionsToEdge_ := x; lead_ := lead_ st; availDist_ := availDist_ st;
     startRegions_ := startRegions_ st; goalRegions_ := goalRegions_ st;
     edgeCostFactors_ := edgeCostFactors_ st; graphReady_ := graphReady_ st;
     numMotions_ := numMotions_ st; rng_ := rng_ st;
     ptc_polls := ptc_polls st; pis_starts := pis_starts st;
     pis_goals := pis_goals st; msg_ := msg_ st;
     solutionPaths := solutionPaths st; config := config st |}.

Definition set_lead_ (st : Syclop) (x : list Z) : Syclop :=
  {| graph_regions := graph_regions st; graph_out := graph_out st;
     regionsToEdge_ := regionsToEdge_ st; lead_ := x;
     availDist_ := availDist_ st; startRegions_ := startRegions_ st;
     goalRegions_ := goalRegions_ st;
     edgeCostFactors_ := edgeCostFactors_ st; graphReady_ := graphReady_ st;
     numMotions_ := numMotions_ st; rng_ := rng_ st;
     ptc_polls := ptc_polls st; pis_starts := pis_starts st;
     pis_goals := pis_goals st; msg_ := msg_ st;
     solutionPaths := solutionPaths st; config := config st |}.

Definition set_availDist_ (st : Syclop) (x : list (Z * D)) : Syclop :=
  {| graph_regions := graph_regions st; graph_out := graph_out st;
     regionsToEdge_ := regionsToEdge_ st; lead_ := lead_ st; availDist_ := x;
     startRegions_ := startRegions_ st; goalRegions_ := goalRegions_ st;
     edgeCostFactors_ := edgeCostFactors_ st; graphReady_ := graphReady_ st;
     numMotions_ := numMotions_ st; rng_ := rng_ st;
     ptc_polls := ptc_polls st; pis_starts := pis_starts st;
     pis_goals := pis_goals st; msg_ := msg_ st;
     solutionPaths := solutionPaths st; config := config st |}.

Definition set_startRegions_ (st : Syclop) (x : gset Z) : Syclop :=
  {| graph_regions := graph_regions st; graph_out := graph_out st;
     regionsToEdge_ := regionsToEdge_ st; lead_ := lead_ st;
     availDist_ := availDist_ st; startRegions_ := x;
     goalRegions_ := goalRegions_ st;
     edgeCostFactors_ := edgeCostFactors_ st; graphReady_ := graphReady_ st;
     numMotions_ := numMotions_ st; rng_ := rng_ st;
     ptc_polls := ptc_polls st; pis_starts := pis_starts st;
     pis_goals := pis_goals st; msg_ := msg_ st;
     solutionPaths := solutionPaths st; config := config st |}.

Definition set_goalRegions_ (st : Syclop) (x : gset Z) : Syclop :=
  {| graph_regions := graph_regions st; graph_out := graph_out st;
     regionsToEdge_ := regionsToEdge_ st; lead_ := lead_ st;
     availDist_ := availDist_ st; startRegions_ := startRegions_ st;
     goalRegions_ := x; edgeCostFactors_ := edgeCostFactors_ st;
     graphReady_ := graphReady_ st; numMotions_ := numMotions_ st;
     rng_ := rng_ st; ptc_polls := ptc_polls st; pis_starts := pis_starts st;
     pis_goals := pis_goals st; msg_ := msg_ st;
     solutionPaths := solutionPaths st; config := config st |}.

Definition set_edgeCostFactors_ (st : Syclop) (x : list EdgeCostFactorFn) : Syclop :=
  {| graph_regions := graph_regions st; graph_out := graph_out st;
     regionsToEdge_ := regionsToEdge_ st; lead_ := lead_ st;
     availDist_ := availDist_ st; startRegions_ := startRegions_ st;
     goalRegions_ := goalRegions_ st; edgeCostFactors_ := x;
     graphReady_ := graphReady_ st; numMotions_ := numMotions_ st;
     rng_ := rng_ st; ptc_polls := ptc_polls st; pis_starts := pis_starts st;
     pis_goals := pis_goals st; msg_ := msg_ st;
     solutionPaths := solutionPaths st; config := config st |}.

Definition set_graphReady_ (st : Syclop) (x : bool) : Syclop :=
  {| graph_regions := graph_regions st; graph_out := graph_out st;
     regionsToEdge_ := regionsToEdge_ st; lead_ := lead_ st;
     availDist_ := availDist_ st; startRegions_ := startRegions_ st;
     goalRegions_ := goalRegions_ st;
     edgeCostFactors_ := edgeCostFactors_ st; graphReady_ := x;
     numMotions_ := numMotions_ st; rng_ := rng_ st;
     ptc_polls := ptc_polls st; pis_starts := pis_starts st;
     pis_goals := pis_goals st; msg_ := msg_ st;
     solutionPaths := solutionPaths st; config := config st |}.

Definition set_numMotions_ (st : Syclop) (x : Z) : Syclop :=
  {| graph_regions := graph_regions st; graph_out := graph_out st;
     regionsToEdge_ := regionsToEdge_ st; lead_ := lead_ st;
     availDist_ := availDist_ st; startRegions_ := startRegions_ st;
     goalRegions_ := goalRegions_ st;
     edgeCostFactors_ := edgeCostFactors_ st; graphReady_ := graphReady_ st;
     numMotions_ := x; rng_ := rng_ st; ptc_polls := ptc_polls st;
     pis_starts := pis_starts st; pis_goals := pis_goals st; msg_ := msg_ st;
     solutionPaths := solutionPaths st; config := config st |}.

Definition set_rng_ (st : Syclop) (x : nat) : Syclop :=
  {| graph_regions := graph_regions st; graph_out := graph_out st;
     regionsToEdge_ := regionsToEdge_ st; lead_ := lead_ st;
     availDist_ := availDist_ st; startRegions_ := startRegions_ st;
     goalRegions_ := goalRegions_ st;
     edgeCostFactors_ := edgeCostFactors_ st; graphReady_ := graphReady_ st;
     numMotions_ := numMotions_ st; rng_ := x; ptc_polls := ptc_polls st;
     pis_starts := pis_starts st; pis_goals := pis_goals st; msg_ := msg_ st;
     solutionPaths := solutionPaths st; config := config st |}.

Definition set_ptc_polls (st : Syclop) (x : nat) : Syclop :=
  {| graph_regions := graph_regions st; graph_out := graph_out st;
     regionsToEdge_ := regionsToEdge_ st; lead_ := lead_ st;
     availDist_ := availDist_ st; startRegions_ := startRegions_ st;
     goalRegions_ := goalRegions_ st;
     edgeCostFactors_ := edgeCostFactors_ st; graphReady_ := graphReady_ st;
     numMotions_ := numMotions_ st; rng_ := rng_ st; ptc_polls := x;
     pis_starts := pis_starts st; pis_goals := pis_goals st; msg_ := msg_ st;
     solutionPaths := solutionPaths st; config := config st |}.

Definition set_pis_starts (st : Syclop) (x : list State) : Syclop :=
  {| graph_regions := graph_regions st; graph_out := graph_out st;
     regionsToEdge_ := regionsToEdge_ st; lead_ := lead_ st;
     availDist_ := availDist_ st; startRegions_ := startRegions_ st;
     goalRegions_ := goalRegions_ st;
     edgeCostFactors_ := edgeCostFactors_ st; graphReady_ := graphReady_ st;
     numMotions_ := numMotions_ st; rng_ := rng_ st;
     ptc_polls := ptc_polls st; pis_starts := x; pis_goals := pis_goals st;
     msg_ := msg_ st; solutionPaths := solutionPaths st;
     config := config st |}.

Definition set_pis_goals (st : Syclop) (x : list State) : Syclop :=
  {| graph_regions := graph_regions st; graph_out := graph_out st;
     regionsToEdge_ := regionsToEdge_ st; lead_ := lead_ st;
     availDist_ := availDist_ st; startRegions_ := startRegions_ st;
     goalRegions_ := goalRegions_ st;
     edgeCostFactors_ := edgeCostFactors_ st; graphReady_ := graphReady_ st;
     numMotions_ := numMotions_ st; rng_ := rng_ st;
     ptc_polls := ptc_polls st; pis_starts := pis_starts st; pis_goals := x;
     msg_ := msg_ st; solutionPaths := solutionPaths st;
     config := config st |}.

Definition set_msg_ (st : Syclop) (x : list Msg) : Syclop :=
  {| graph_regions := graph_regions st; graph_out := graph_out st;
     regionsToEdge_ := regionsToEdge_ st; lead_ := lead_ st;
     availDist_ := availDist_ st; startRegions_ := startRegions_ st;
     goalRegions_ := goalRegions_ st;
     edgeCostFactors_ := edgeCostFactors_ st; graphReady_ := graphReady_ st;
     numMotions_ := numMotions_ st; rng_ := rng_ st;
     ptc_polls := ptc_polls st; pis_starts := pis_starts st;
     pis_goals := pis_goals st; msg_ := x; solutionPaths := solutionPaths st;
     config := config st |}.

Definition set_solutionPaths (st : Syclop) (x : list Solution) : Syclop :=
  {| graph_regions := graph_regions st; graph_out := graph_out st;
     regionsToEdge_ := regionsToEdge_ st; lead_ := lead_ st;
     availDist_ := availDist_ st; startRegions_ := startRegions_ st;
     goalRegions_ := goalRegions_ st;
     edgeCostFactors_ := edgeCostFactors_ st; graphReady_ := graphReady_ st;
     numMotions_ := numMotions_ st; rng_ := rng_ st;
     ptc_polls := ptc_polls st; pis_starts := pis_starts st;
     pis_goals := pis_goals st; msg_ := msg_ st; solutionPaths := x;
     config := config st |}.


(** ** External collaborators *)

(** [ompl::control::Decomposition]. *)
Class Decomposition : Type := {
  getNumRegions : Z;
  locateRegion : State → Z;
  getNeighbors : Z → list Z;
  getRegionVolume : Z → D;
}.

(** The space information, the coverage grid [covGrid_] and the goal.
    [sampleUniform i] is the [i]-th state a freshly allocated state sampler
    draws; [isSatisfied s] is the result of [Goal::isSatisfied] with the
    distance it writes. *)
Class Space : Type := {
  covGrid_locateRegion : State → Z;
  isValid : State → bool;
  sampleUniform : nat → State;
  isSatisfied : State → bool * D;
  getPropagationStepSize : D;
}.

(** The pure virtual members of [Syclop] that a tree planner implements.
    [selectAndExtend st region] is the vector [newMotions] the call fills
    when the planner is in state [st]. *)
Class TreePlanner : Type := {
  addRoot : State → Motion;
  selectAndExtend : Syclop → Z → list Motion;
}.

(** Randomness, search and termination.  The [n]-th draw of the random
    number generator is [uniform01 n] or [uniformInt n lo hi];
    [regionSet_sampleUniform n s] is what [sampleUniform] of a region set [s]
    returns at that position of the stream, and [pdf_sample d u] what
    [PDF::sample] returns for a non-empty distribution [d].
    [astar_search st start goal] is [Some parents] when the search throws
    [found_goal], with the predecessor map it filled, and [None] when it
    returns without reaching the goal.  [ptc n] is the [n]-th answer of the
    termination condition. *)
Class Oracle : Type := {
  uniform01 : nat → D;
  uniformInt : nat → Z → Z → Z;
  regionSet_sampleUniform : nat → gset Z → Z;
  pdf_sample : list (Z * D) → D → Z;
  astar_search : Syclop → Z → Z → option (list Z);
  ptc : nat → bool;
}.

Context {decomp_ : Decomposition} {si_ : Space} {planner : TreePlanner}
  {oracle : Oracle} {counter : CounterType}.

(** ** Access to the planner's state *)

(** [graph_[boost::vertex(i, graph_)]] *)
Definition getRegion (st : Syclop) (i : Z) : option Region :=
  vec_get (graph_regions st) i.

Definition setRegion (st : Syclop) (i : Z) (r : Region) : Syclop :=
  set_graph_regions st (vec_set (graph_regions st) i r).

(** [rng_.uniform01()] *)
Definition rng_uniform01 (st : Syclop) : D * Syclop :=
  (uniform01 (rng_ st), set_rng_ st (S (rng_ st))).

(** [rng_.uniformInt(lo, hi)] *)
Definition rng_uniformInt (st : Syclop) (lo hi : Z) : Z * Syclop :=
  (uniformInt (rng_ st) lo hi, set_rng_ st (S (rng_ st))).

(** [sampleUniform()] of [startRegions_] or [goalRegions_] *)
Definition sampleRegionSet (st : Syclop) (s : gset Z) : Z * Syclop :=
  (regionSet_sampleUniform (rng_ st) s, set_rng_ st (S (rng_ st))).

(** One evaluation of a termination condition. *)
Definition poll_ptc (st : Syclop) : bool * Syclop :=
  (ptc (ptc_polls st), set_ptc_polls st (S (ptc_polls st))).

Definition log (st : Syclop) (m : Msg) : Syclop :=
  set_msg_ st (msg_ st ++ [m]).

(** ** Region and edge estimates *)

(** [Syclop::updateRegion].  The divisor of [weight] is
    [(1 + r.covGridCells.size()) * (1 + r.numSelections*r.numSelections)]:
    the square and its successor are computed in the type of
    [numSelections], the product with the [std::size_t] in [std::size_t]. *)
Definition updateRegion (r : Region) : Region :=
  let f :=
    d_mul (d_mul (d_mul (freeVolume r) (freeVolume r)) (freeVolume r))
      (freeVolume r) in
  let c := size_t (1 + Z.of_nat (size (covGridCells r))) in
  let s := as_counter (1 + as_counter (numSelections r * numSelections r)) in
  let r1 := set_alpha r (d_div d_one (d_mul (d_of_Z c) f)) in
  set_weight r1 (d_div f (d_of_Z (size_t (c * s)))).

(** [Syclop::initRegion] *)
Definition initRegion (r : Region) : Region :=
  set_freeVolume
    (set_percentValidCells (set_volume (set_numSelections r 0) d_one) d_one)
    d_one.

(** [Syclop::defaultEdgeCost].  [nsel] is a [const int], and
    [1 + nsel*nsel] is computed in [int] before its conversion to [double];
    [1 + a.covGridCells.size()*a.covGridCells.size()] is computed in
    [std::size_t]. *)
Definition defaultEdgeCost (st : Syclop) (r s : Z) : option D :=
  a ← regionsToEdge_ st !! (r, s);
  let nsel :=
    to_int (if adj_empty a then numLeadInclusions a else adj_numSelections a) in
  let n := Z.of_nat (size (adj_covGridCells a)) in
  let factor :=
    d_div (d_of_Z (to_int (1 + to_int (nsel * nsel))))
      (d_of_Z (size_t (1 + size_t (n * n)))) in
  src ← getRegion st (source a);
  tgt ← getRegion st (target a);
  Some (d_mul factor (d_mul (alpha src) (alpha tgt))).

(** A call [factor(r, s)] of an entry of [edgeCostFactors_]. *)
Definition callFactor (st : Syclop) (factor : EdgeCostFactorFn) (r s : Z)
    : option D :=
  match factor with
  | DefaultEdgeCost => defaultEdgeCost st r s
  | UserEdgeCost f => Some (f r s)
  end.

(** The loop of [updateEdge]: [cost] is [a.cost] so far. *)
Fixpoint edgeCostLoop (st : Syclop) (a : Adjacency)
    (factors : list EdgeCostFactorFn) (cost : D) : option D :=
  match factors with
  | [] => Some cost
  | factor :: rest =>
      src ← getRegion st (source a);
      tgt ← getRegion st (target a);
      c ← callFactor st factor (index src) (index tgt);
      edgeCostLoop st a rest (d_mul cost c)
  end.

(** The value [updateEdge] leaves in [a.cost]. *)
Definition edgeCost (st : Syclop) (a : Adjacency) : option D :=
  edgeCostLoop st a (edgeCostFactors_ st) d_one.

(** [Syclop::updateEdge] on the edge stored under [key]. *)
Definition updateEdge (st : Syclop) (key : Z * Z) : option Syclop :=
  a ← regionsToEdge_ st !! key;
  c ← edgeCost st a;
  Some (set_regionsToEdge_ st (<[key := set_cost a c]> (regionsToEdge_ st))).

(** [Syclop::addEdgeCostFactor] *)
Definition addEdgeCostFactor (st : Syclop) (factor : EdgeCostFactorFn)
    : Syclop :=
  set_edgeCostFactors_ st (edgeCostFactors_ st ++ [factor]).

(** [Syclop::clearEdgeCostFactors] *)
Definition clearEdgeCostFactors (st : Syclop) : Syclop :=
  set_edgeCostFactors_ st [].

(** [Syclop::updateCoverageEstimate] on the region at position [k]. *)
Definition updateCoverageEstimate (st : Syclop) (k : Z) (s : State)
    : option (bool * Syclop) :=
  r ← getRegion st k;
  let covCell := covGrid_locateRegion s in
  if decide (covCell ∈ covGridCells r) then Some (false, st)
  else
    let r1 := set_covGridCells r ({[covCell]} ∪ covGridCells r) in
    Some (true, setRegion st k (updateRegion r1)).

(** [Syclop::updateConnectionEstimate] on the regions at positions [c]
    and [d]. *)
Definition updateConnectionEstimate (st : Syclop) (c d : Z) (s : State)
    : option (bool * Syclop) :=
  rc ← getRegion st c;
  rd ← getRegion st d;
  let key := (index rc, index rd) in
  adj ← regionsToEdge_ st !! key;
  let covCell := covGrid_locateRegion s in
  if decide (covCell ∈ adj_covGridCells adj) then Some (false, st)
  else
    let adj1 := set_adj_covGridCells adj ({[covCell]} ∪ adj_covGridCells adj) in
    st1 ← updateEdge (set_regionsToEdge_ st (<[key := adj1]> (regionsToEdge_ st))) key;
    Some (true, st1).

(** ** Construction of the graph *)

(** A default-constructed region at vertex [v], with [r.index] set.  The
    scalar members the source leaves unset hold a placeholder; they are
    written by [initRegion] and [setupRegionEstimates] before they are
    read. *)
Definition blankRegion (v : Z) : Region :=
  {| index := v; numSelections := 0; volume := d_zero; freeVolume := d_zero;
     percentValidCells := d_zero; covGridCells := ∅; motions := [];
     alpha := d_zero; weight := d_zero |}.

(** A default-constructed edge between two vertices, with the members
    [initEdge] sets; the others hold a placeholder until
    [setupEdgeEstimates] writes them. *)
Definition blankAdjacency (src tgt : Z) : Adjacency :=
  {| source := src; target := tgt; cost := d_one; adj_empty := true;
     adj_numSelections := 0; numLeadInclusions := 0; adj_covGridCells := ∅ |}.

(** The first loop of [buildGraph]: [n] vertices are added. *)
Fixpoint addVertices (n : nat) (st : Syclop) : Syclop :=
  match n with
  | O => st
  | S n' =>
      let v := Z.of_nat (length (graph_regions st)) in
      let st1 :=
        set_graph_out
          (set_graph_regions st (graph_regions st ++ [initRegion (blankRegion v)]))
          (graph_out st ++ [[]]) in
      addVertices n' st1
  end.

(** [Syclop::initEdge] on a new edge from vertex [vi] to vertex [j]. *)
Definition initEdge (st : Syclop) (vi j : Z) : option Syclop :=
  src ← getRegion st vi;
  tgt ← getRegion st j;
  let adj := blankAdjacency vi j in
  c ← edgeCost st adj;
  Some (set_regionsToEdge_ st
          (<[(index src, index tgt) := set_cost adj c]> (regionsToEdge_ st))).

(** [boost::add_edge] followed by [initEdge]. *)
Definition addEdge (vi : Z) (st : Syclop) (j : Z) : option Syclop :=
  outs ← vec_get (graph_out st) vi;
  initEdge (set_graph_out st (vec_set (graph_out st) vi (outs ++ [j]))) vi j.

(** The positions of the vertices of [graph_], in order. *)
Definition vertices (st : Syclop) : list Z :=
  seqZ 0 (Z.of_nat (length (graph_regions st))).

(** [Syclop::buildGraph] *)
Definition buildGraph (st : Syclop) : option Syclop :=
  let st1 := addVertices (Z.to_nat getNumRegions) st in
  foldM (λ st2 vi, foldM (addEdge vi) st2 (getNeighbors vi)) st1 (vertices st1).

(** [Syclop::setup], after [base::Planner::setup]. *)
Definition setup (st : Syclop) : option Syclop :=
  st1 ← buildGraph st;
  Some (addEdgeCostFactor st1 DefaultEdgeCost).

(** ** Initial estimates *)

(** The body of the sampling loop of [setupRegionEstimates]; the state is
    the pair of vectors [(numTotal, numValid)]. *)
Definition countSample (acc : list Z * list Z) (i : nat)
    : option (list Z * list Z) :=
  let s := sampleUniform i in
  let rid := locateRegion s in
  numValid ← (if isValid s then vec_incr acc.2 rid else Some acc.2);
  numTotal ← vec_incr acc.1 rid;
  Some (numTotal, numValid).

(** The body of the second loop of [setupRegionEstimates], on the region
    [r] at vertex [i]. *)
Definition regionEstimate (numTotal numValid : list Z) (i : Z) (r : Region)
    : option Region :=
  let r1 := set_volume r (getRegionVolume i) in
  total ← vec_get numTotal i;
  r2 ← (if decide (total = 0) then Some (set_percentValidCells r1 d_one)
        else
          valid ← vec_get numValid i;
          Some (set_percentValidCells r1 (d_div (d_of_Z valid) (d_of_Z total))));
  let r3 := set_freeVolume r2 (d_mul (percentValidCells r2) (volume r2)) in
  let r4 :=
    if d_lt (freeVolume r3) d_epsilon then set_freeVolume r3 d_epsilon
    else r3 in
  Some (updateRegion r4).

Definition estimateRegion (numTotal numValid : list Z) (st : Syclop) (i : Z)
    : option Syclop :=
  r ← getRegion st i;
  r' ← regionEstimate numTotal numValid i r;
  Some (setRegion st i r').

(** The vectors [numTotal] and [numValid] after the sampling loop. *)
Definition sampleCounts (st : Syclop) : option (list Z * list Z) :=
  let zeros := replicate (Z.to_nat getNumRegions) 0 in
  foldM countSample (zeros, zeros)
    (seq 0 (Z.to_nat (numFreeVolSamples_ (config st)))).

(** [Syclop::setupRegionEstimates] *)
Definition setupRegionEstimates (st : Syclop) : option Syclop :=
  counts ← sampleCounts st;
  foldM (estimateRegion counts.1 counts.2) st (seqZ 0 getNumRegions).

(** The edges of [graph_] in the order of [boost::edges]: each as the
    positions of its end points. *)
Definition edges (st : Syclop) : list (Z * Z) :=
  vi ← vertices st;
  j ← default [] (vec_get (graph_out st) vi);
  [(vi, j)].

(** The key under which the edge object between two vertices is stored. *)
Definition edgeKey (st : Syclop) (e : Z * Z) : option (Z * Z) :=
  src ← getRegion st e.1;
  tgt ← getRegion st e.2;
  Some (index src, index tgt).

(** The body of the loop of [setupEdgeEstimates]. *)
Definition resetEdge (st : Syclop) (e : Z * Z) : option Syclop :=
  key ← edgeKey st e;
  adj ← regionsToEdge_ st !! key;
  let adj1 :=
    set_adj_numSelections (set_numLeadInclusions (set_adj_empty adj true) 0) 0 in
  updateEdge (set_regionsToEdge_ st (<[key := adj1]> (regionsToEdge_ st))) key.

(** [Syclop::setupEdgeEstimates] *)
Definition setupEdgeEstimates (st : Syclop) : option Syclop :=
  foldM resetEdge st (edges st).

(** ** Leads *)

(** [while (region != startRegion) { region = parents[region]; ++leadLength; }]
    A walk that does not reach [startRegion] within [fuel] steps has no
    result. *)
Fixpoint leadLength (fuel : nat) (parents : list Z) (startRegion region : Z)
    (len : Z) : option Z :=
  if decide (region = startRegion) then Some len
  else
    match fuel with
    | O => None
    | S fuel' =>
        next ← vec_get parents region;
        leadLength fuel' parents startRegion next (len + 1)
    end.

(** [for (i = leadLength-1; i >= 0; --i) { lead_[i] = region; region = parents[region]; }]
    with [n] entries still to write and [filled] the entries written. *)
Fixpoint fillLead (parents : list Z) (n : nat) (region : Z) (filled : list Z)
    : option (list Z) :=
  match n with
  | O => Some filled
  | S n' =>
      next ← vec_get parents region;
      fillLead parents n' next (region :: filled)
  end.

(** The reconstruction of the lead from a predecessor map, as both
    branches of [computeLead] do it. *)
Definition leadFromParents (parents : list Z) (startRegion goalRegion : Z)
    (st : Syclop) : option Syclop :=
  len ← leadLength (S (length parents)) parents startRegion goalRegion 1;
  lead ← fillLead parents (Z.to_nat len) goalRegion [];
  Some (set_lead_ st lead).

(** The shortest-path branch of [computeLead]. *)
Definition shortestPathLead (st : Syclop) (startRegion goalRegion : Z)
    : option Syclop :=
  match astar_search st startRegion goalRegion with
  | Some parents => leadFromParents parents startRegion goalRegion st
  | None => Some st
  end.

(** The loop over the adjacent vertices of [v] in the random search; the
    state is [(neighbors, parents)]. *)
Definition discover (v : Z) (acc : list Z * list Z) (a : Z)
    : option (list Z * list Z) :=
  p ← vec_get acc.2 a;
  if decide (p < 0) then Some (acc.1 ++ [a], vec_set acc.2 a v) else Some acc.

(** The loop over [neighbors] in the random search, from index [i] with
    [n] indices left.  The result says whether the goal was chosen, and
    holds the stack. *)
Fixpoint chooseNeighbors (n : nat) (i : Z) (goalRegion : Z)
    (neighbors stack : list Z) (st : Syclop)
    : option (bool * list Z * Syclop) :=
  match n with
  | O => Some (false, stack, st)
  | S n' =>
      let '(choice, st1) :=
        rng_uniformInt st i (Z.of_nat (length neighbors) - 1) in
      c ← vec_get neighbors choice;
      if decide (c = goalRegion) then Some (true, stack, st1)
      else
        ni ← vec_get neighbors i;
        chooseNeighbors n' (i + 1) goalRegion
          (vec_set (vec_set neighbors i c) choice ni) (c :: stack) st1
  end.

(** The [while] loop of the random search; [stack] is [nodesToProcess],
    its top first. *)
Fixpoint randomDFS (fuel : nat) (startRegion goalRegion : Z)
    (stack parents : list Z) (st : Syclop) : option Syclop :=
  match stack with
  | [] => Some st
  | v :: stack1 =>
      match fuel with
      | O => None
      | S fuel' =>
          outs ← vec_get (graph_out st) v;
          '(neighbors, parents1) ← foldM (discover v) ([], parents) outs;
          '(goalFound, stack2, st1) ←
            chooseNeighbors (length neighbors) 0 goalRegion neighbors stack1 st;
          if goalFound : bool then
            leadFromParents parents1 startRegion goalRegion st1
          else randomDFS fuel' startRegion goalRegion stack2 parents1 st1
      end
  end.

(** The random-search branch of [computeLead]. *)
Definition randomDFSLead (st : Syclop) (startRegion goalRegion : Z)
    : option Syclop :=
  let parents := replicate (Z.to_nat getNumRegions) (-1) in
  _ ← vec_get parents startRegion;
  randomDFS (S (length parents)) startRegion goalRegion [startRegion]
    (vec_set parents startRegion startRegion) st.

(** The two search branches of [computeLead], entered when the start and
    the goal region differ and after [lead_] was cleared. *)
Definition searchLead (st : Syclop) (startRegion goalRegion : Z)
    : option Syclop :=
  let '(u, st1) := rng_uniform01 st in
  if d_lt u (probShortestPath_ (config st1)) then
    shortestPathLead st1 startRegion goalRegion
  else randomDFSLead st1 startRegion goalRegion.

(** The final loop of [computeLead],
    [for (std::size_t i = 0; i < lead_.size()-1; ++i)], from index [i].
    Every round reads [lead_[i]] and [lead_[i+1]], so it ends or leaves the
    vector within [length lead_] rounds; [fuel] is at least that. *)
Fixpoint updateLeadEdges (fuel : nat) (i : Z) (st : Syclop) : option Syclop :=
  if decide (i < size_t (Z.of_nat (length (lead_ st)) - 1)) then
    match fuel with
    | O => None
    | S fuel' =>
        u ← vec_get (lead_ st) i;
        v ← vec_get (lead_ st) (i + 1);
        adj ← regionsToEdge_ st !! (u, v);
        st1 ← (if adj_empty adj then
                 let adj1 :=
                   set_numLeadInclusions adj (numLeadInclusions adj + 1) in
                 updateEdge
                   (set_regionsToEdge_ st (<[(u, v) := adj1]> (regionsToEdge_ st)))
                   (u, v)
               else Some st);
        updateLeadEdges fuel' (i + 1) st1
    end
  else Some st.

(** [Syclop::computeLead] *)
Definition computeLead (st : Syclop) (startRegion goalRegion : Z)
    : option Syclop :=
  let st0 := set_lead_ st [] in
  if decide (startRegion = goalRegion) then
    Some (set_lead_ st0 (lead_ st0 ++ [startRegion]))
  else
    st1 ← searchLead st0 startRegion goalRegion;
    updateLeadEdges (S (length (lead_ st1))) 0 st1.

(** ** Available regions *)

(** The loop of [computeAvailableRegions] with [i + 1 = n]. *)
Fixpoint availableLoop (n : nat) (st : Syclop) : option Syclop :=
  match n with
  | O => Some st
  | S i =>
      k ← lead_ st !! i;
      r ← getRegion st k;
      match motions r with
      | [] => availableLoop i st
      | _ :: _ =>
          let st1 := set_availDist_ st (availDist_ st ++ [(k, weight r)]) in
          let '(u, st2) := rng_uniform01 st1 in
          if d_ge u (probKeepAddingToAvail_ (config st2)) then Some st2
          else availableLoop i st2
      end
  end.

(** [Syclop::computeAvailableRegions]; the loop starts at
    [int i = lead_.size()-1]. *)
Definition computeAvailableRegions (st : Syclop) : option Syclop :=
  let st0 := set_availDist_ st [] in
  let i := to_int (size_t (Z.of_nat (length (lead_ st0)) - 1)) in
  availableLoop (Z.to_nat (i + 1)) st0.

(** [Syclop::selectRegion]; sampling an empty distribution is undefined. *)
Definition selectRegion (st : Syclop) : option (Z * Syclop) :=
  let '(u, st1) := rng_uniform01 st in
  match availDist_ st1 with
  | [] => None
  | _ :: _ =>
      let index := pdf_sample (availDist_ st1) u in
      region ← getRegion st1 index;
      let region1 := set_numSelections region (numSelections region + 1) in
      Some (index, setRegion st1 index (updateRegion region1))
  end.

(** ** The planner loop *)

(** The local variables [solution], [goalDist] and [solved] of [solve]. *)
Record Progress : Type := {
  solution : option Motion;
  goalDist : D;
  solved : bool;
}.

(** The first lines of [solve]: the estimates are set up once. *)
Definition setupEstimates (st : Syclop) : option Syclop :=
  if graphReady_ st then Some st
  else
    st1 ← setupRegionEstimates (set_numMotions_ st 0);
    st2 ← setupEdgeEstimates st1;
    Some (set_graphReady_ st2 true).

(** [graph_[region].motions.push_back(motion); ++numMotions_;
    updateCoverageEstimate(graph_[region], s)], the statements by which the
    loop over the start states and the loop over [newMotions] file a motion
    under the region of its state [s]. *)
Definition fileMotion (region : Z) (motion : Motion) (s : State) (st : Syclop)
    : option (bool * Syclop) :=
  r ← getRegion st region;
  let st1 := setRegion st region (set_motions r (motions r ++ [motion])) in
  let st2 := set_numMotions_ st1 (numMotions_ st1 + 1) in
  updateCoverageEstimate st2 region s.

(** The body of the loop over the start states. *)
Definition addStart (st : Syclop) (s : State) : option Syclop :=
  let region := locateRegion s in
  let st1 := set_startRegions_ st ({[region]} ∪ startRegions_ st) in
  let startMotion := addRoot s in
  '(_, st2) ← fileMotion region startMotion s st1;
  Some st2.

(** [while (const base::State* s = pis_.nextStart())] over the start states
    [pis_] still holds. *)
Fixpoint addStarts (starts : list State) (st : Syclop) : option Syclop :=
  match starts with
  | [] => Some st
  | s :: rest =>
      st1 ← addStart (set_pis_starts st rest) s;
      addStarts rest st1
  end.

(** The branch [if (newRegion != region)] of the loop over [newMotions],
    for a motion with state [s] filed under [newRegion]. *)
Definition enterRegion (region newRegion : Z) (s : State) (st : Syclop)
    : option (bool * Syclop) :=
  newRegionObj ← getRegion st newRegion;
  let st1 :=
    if decide (length (motions newRegionObj) = 1%nat) then
      set_availDist_ st (availDist_ st ++ [(newRegion, weight newRegionObj)])
    else st in
  match regionsToEdge_ st1 !! (region, newRegion) with
  | Some adj =>
      let adj1 :=
        set_adj_numSelections (set_adj_empty adj false)
          (adj_numSelections adj + 1) in
      let st2 :=
        set_regionsToEdge_ st1
          (<[(region, newRegion) := adj1]> (regionsToEdge_ st1)) in
      updateConnectionEstimate st2 region newRegion s
  | None => Some (false, st1)
  end.

(** The body of the loop over [newMotions]: [region] is the selected
    region, [improved] the flag so far. *)
Definition processMotion (region : Z) (motion : Motion) (st : Syclop)
    (pr : Progress) (improved : bool) : option (Syclop * Progress * bool) :=
  let '(sat, distance) := isSatisfied (state motion) in
  if sat : bool then
    Some (st, {| solution := Some motion; goalDist := distance; solved := true |},
          improved)
  else
    let pr1 :=
      if d_lt distance (goalDist pr) then
        {| solution := Some motion; goalDist := distance; solved := false |}
      else
        {| solution := solution pr; goalDist := goalDist pr; solved := false |} in
    let newRegion := locateRegion (state motion) in
    '(covered, st1) ← fileMotion newRegion motion (state motion) st;
    let improved1 := improved || covered in
    if decide (newRegion ≠ region) then
      '(connected, st2) ← enterRegion region newRegion (state motion) st1;
      Some (st2, pr1, improved1 || connected)
    else Some (st1, pr1, improved1).

(** The loop over [newMotions]; the termination condition is asked before
    every motion, and a motion that satisfies the goal ends the loop. *)
Fixpoint processNewMotions (region : Z) (newMotions : list Motion)
    (st : Syclop) (pr : Progress) (improved : bool)
    : option (Syclop * Progress * bool) :=
  match newMotions with
  | [] => Some (st, pr, improved)
  | motion :: rest =>
      let '(stop, st1) := poll_ptc st in
      if stop : bool then Some (st1, pr, improved)
      else
        '(st2, pr1, improved1) ← processMotion region motion st1 pr improved;
        if solved pr1 then Some (st2, pr1, improved1)
        else processNewMotions region rest st2 pr1 improved1
  end.

(** The loop [for (j = 0; j < numTreeSelections_ && !solved && !ptc(); ++j)]
    with [n] rounds left. *)
Fixpoint treeSelections (n : nat) (region : Z) (st : Syclop) (pr : Progress)
    (improved : bool) : option (Syclop * Progress * bool) :=
  match n with
  | O => Some (st, pr, improved)
  | S n' =>
      if solved pr then Some (st, pr, improved)
      else
        let '(stop, st1) := poll_ptc st in
        if stop : bool then Some (st1, pr, improved)
        else
          let newMotions := selectAndExtend st1 region in
          '(st2, pr1, improved1) ←
            processNewMotions region newMotions st1 pr improved;
          treeSelections n' region st2 pr1 improved1
  end.

(** The loop [for (i = 0; i < numRegionExpansions_ && !solved && !ptc(); ++i)]
    with [n] rounds left. *)
Fixpoint regionExpansions (n : nat) (st : Syclop) (pr : Progress)
    : option (Syclop * Progress) :=
  match n with
  | O => Some (st, pr)
  | S n' =>
      if solved pr then Some (st, pr)
      else
        let '(stop, st1) := poll_ptc st in
        if stop : bool then Some (st1, pr)
        else
          '(region, st2) ← selectRegion st1;
          '(st3, pr1, improved) ←
            treeSelections (Z.to_nat (numTreeSelections_ (config st2))) region
              st2 pr false;
          if improved : bool then regionExpansions n' st3 pr1
          else
            let '(u, st4) := rng_uniform01 st3 in
            if d_lt u (probAbandonLeadEarly_ (config st4)) then Some (st4, pr1)
            else regionExpansions n' st4 pr1
  end.

(** The choice of the goal region in one round of the main loop. *)
Definition chooseGoalRegion (st : Syclop) : Z * Syclop :=
  let '(chosenGoalRegion, st1) :=
    match pis_goals st with
    | g :: rest =>
        let st1 := log (set_pis_goals st rest) (MsgStdout "sampling another goal") in
        let region := locateRegion g in
        (region, set_goalRegions_ st1 ({[region]} ∪ goalRegions_ st1))
    | [] => (-1, st)
    end in
  if decide (chosenGoalRegion = -1) then sampleRegionSet st1 (goalRegions_ st1)
  else (chosenGoalRegion, st1).

(** The loop [while (!ptc() && !solved)].  It ends when the termination
    condition says so; [fuel] bounds the rounds that are run, and a run that
    needs more has no result. *)
Fixpoint mainLoop (fuel : nat) (st : Syclop) (pr : Progress)
    : option (Syclop * Progress) :=
  match fuel with
  | O => None
  | S fuel' =>
      let '(stop, st1) := poll_ptc st in
      if stop : bool then Some (st1, pr)
      else if solved pr then Some (st1, pr)
      else
        let '(chosenStartRegion, st2) :=
          sampleRegionSet st1 (startRegions_ st1) in
        let '(chosenGoalRegion, st3) := chooseGoalRegion st2 in
        st4 ← computeLead st3 chosenStartRegion chosenGoalRegion;
        st5 ← computeAvailableRegions st4;
        '(st6, pr1) ←
          regionExpansions (Z.to_nat (numRegionExpansions_ (config st5))) st5 pr;
        mainLoop fuel' st6 pr1
  end.

(** [mpath]: the motions from [m] back to the root. *)
Fixpoint mpath (m : Motion) : list Motion :=
  m :: match parent m with
       | Some p => mpath p
       | None => []
       end.

(** The entry of the path for one motion. *)
Definition pathEntry (m : Motion) : PathEntry :=
  match parent m with
  | Some _ =>
      AppendControl (state m) (control m)
        (d_mul (d_of_Z (steps m)) getPropagationStepSize)
  | None => AppendState (state m)
  end.

(** The end of [solve]: the solution path is added to the goal. *)
Definition addSolution (st : Syclop) (pr : Progress) : bool * Syclop :=
  match solution pr with
  | Some m =>
      let path := pathEntry <$> reverse (mpath m) in
      (true,
       set_solutionPaths st
         (solutionPaths st ++
          [{| sol_path := path; sol_approximate := negb (solved pr);
              sol_difference := goalDist pr |}]))
  | None => (false, st)
  end.

(** [solve] from the point where start and goal regions are known. *)
Definition plan (fuel : nat) (st : Syclop) : option (bool * Syclop) :=
  let st1 := log st (MsgInformStarting (numMotions_ st)) in
  let pr := {| solution := None; goalDist := d_infinity; solved := false |} in
  '(st2, pr1) ← mainLoop fuel st1 pr;
  Some (addSolution st2 pr1).

(** [Syclop::solve], after [checkValidity]. *)
Definition solve (fuel : nat) (st : Syclop) : option (bool * Syclop) :=
  st1 ← setupEstimates st;
  st2 ← addStarts (pis_starts st1) st1;
  if decide (startRegions_ st2 = ∅) then
    Some (false, log st2 (MsgError "There are no valid start states"))
  else if decide (goalRegions_ st2 = ∅) then
    match pis_goals st2 with
    | g :: rest =>
        let st3 := set_pis_goals st2 rest in
        plan fuel
          (set_goalRegions_ st3 ({[locateRegion g]} ∪ goalRegions_ st3))
    | [] =>
        Some (false, log st2 (MsgError "Unable to sample a valid goal state"))
    end
  else plan fuel st2.

(** ** Vocabulary of the properties *)

(** [freeVolume^4], multiplied out as [updateRegion] does. *)
Definition freeVolume4 (r : Region) : D :=
  d_mul (d_mul (d_mul (freeVolume r) (freeVolume r)) (freeVolume r))
    (freeVolume r).

(** The counts of a region are in range: [1 + numSelections^2] fits every
    32-bit integer type, and the product
    [(1 + |covGridCells|) (1 + numSelections^2)] fits a [std::size_t]. *)
Definition counts_in_range (r : Region) : Prop :=
  1 + numSelections r * numSelections r < 2 ^ 31 ∧
  (1 + Z.of_nat (size (covGridCells r))) *
  (1 + numSelections r * numSelections r) < 2 ^ 64.

(** [alpha] and [weight] of a region are the values derived from its free
    volume, its coverage and its selection count. *)
Definition derived (r : Region) : Prop :=
  let f := freeVolume4 r in
  let c := 1 + Z.of_nat (size (covGridCells r)) in
  let s := numSelections r in
  alpha r = d_div d_one (d_mul (d_of_Z c) f) ∧
  weight r = d_div f (d_of_Z (c * (1 + s * s))).


(** The entries [computeAvailableRegions] can add for the lead regions
    [ks], in the order it visits them: each region with a motion, with its
    weight. *)
Fixpoint candidates (st : Syclop) (ks : list Z) : list (Z * D) :=
  match ks with
  | [] => []
  | k :: ks' =>
      match getRegion st k with
      | Some r =>
          match motions r with
          | [] => candidates st ks'
          | _ :: _ => (k, weight r) :: candidates st ks'
          end
      | None => candidates st ks'
      end
  end.

(** The graph is as [buildGraph] leaves it: the region at vertex [i] has
    index [i], and an edge is stored under the indices of its end points,
    which are vertices. *)
Definition well_formed (st : Syclop) : Prop :=
  index <$> graph_regions st = vertices st ∧
  map_Forall
    (λ key a,
       key = (source a, target a) ∧
       (0 ≤ source a < Z.of_nat (length (graph_regions st))) ∧
       (0 ≤ target a < Z.of_nat (length (graph_regions st))))
    (regionsToEdge_ st).

(** Between [st] and [st'] the motion [m] was appended to the list of
    region [k], and the list of no other region changed. *)
Definition appended_to (st st' : Syclop) (k : Z) (m : Motion) : Prop :=
  (∃ r r', getRegion st k = Some r ∧ getRegion st' k = Some r' ∧
           motions r' = motions r ++ [m]) ∧
  ∀ j, j ≠ k → motions <$> getRegion st' j = motions <$> getRegion st j.

(** Every key of [availDist_] is a region that holds a motion. *)
Definition available_have_motions (st : Syclop) : Prop :=
  ∀ k w, (k, w) ∈ availDist_ st →
         ∃ r, getRegion st k = Some r ∧ motions r ≠ [].

(** Every key of [availDist_] occurs in the lead. *)
Definition available_on_lead (st : Syclop) : Prop :=
  ∀ k w, (k, w) ∈ availDist_ st → k ∈ lead_ st.

(** The steps the region-expansion loop of [solve] is made of: a poll of
    the termination condition, the selection of a region, the handling of a
    new motion, and the draw that may abandon the lead. *)
Inductive expansion_step : Syclop → Syclop → Prop :=
  | step_poll st : expansion_step st (poll_ptc st).2
  | step_select st k st' :
      selectRegion st = Some (k, st') → expansion_step st st'
  | step_motion region m st pr improved st' pr' improved' :
      processMotion region m st pr improved = Some (st', pr', improved') →
      expansion_step st st'
  | step_draw st : expansion_step st (rng_uniform01 st).2.

(** The states the sampling loop of [setupRegionEstimates] draws, and how
    many of them lie in region [i], and how many of these are valid. *)
Definition freeVolSamples (st : Syclop) : list State :=
  sampleUniform <$> seq 0 (Z.to_nat (numFreeVolSamples_ (config st))).

Definition samplesIn (i : Z) (samples : list State) : list State :=
  filter (λ s, locateRegion s = i) samples.

Definition totalIn (i : Z) (samples : list State) : Z :=
  Z.of_nat (length (samplesIn i samples)).

Definition validIn (i : Z) (samples : list State) : Z :=
  Z.of_nat (length (filter (λ s, isValid s = true) (samplesIn i samples))).

(** The share of valid samples of region [i]: [valid / total], and [1.0]
    when no sample lies in the region. *)
Definition validShare (i : Z) (samples : list State) : D :=
  if decide (totalIn i samples = 0) then d_one
  else d_div (d_of_Z (validIn i samples)) (d_of_Z (totalIn i samples)).

(** [max(x, epsilon)] as [setupRegionEstimates] takes it. *)
Definition at_least_epsilon (x : D) : D :=
  if d_lt x d_epsilon then d_epsilon else x.

(** ** Vocabulary of the further properties *)

(** The number of motions filed in the regions of [graph_]. *)
Definition filedMotions (st : Syclop) : Z :=
  Z.of_nat (sum_list_with (λ r, length (motions r)) (graph_regions st)).

(** [lead] runs along the predecessor map [parents]: every entry is the
    predecessor of the entry after it. *)
Fixpoint follows_parents (parents lead : list Z) : Prop :=
  match lead with
  | u :: (v :: _) as rest =>
      vec_get parents v = Some u ∧ follows_parents parents rest
  | _ => True
  end.

(** [lead] runs along edges of [graph_]: every entry is an out-neighbour
    of the entry before it. *)
Fixpoint follows_edges (st : Syclop) (lead : list Z) : Prop :=
  match lead with
  | u :: (v :: _) as rest =>
      (∃ outs, vec_get (graph_out st) u = Some outs ∧ v ∈ outs) ∧
      follows_edges st rest
  | _ => True
  end.

(** A lead from [startRegion] to [goalRegion]: it starts at the one, ends
    at the other and does not come back to [startRegion]. *)
Definition lead_between (startRegion goalRegion : Z) (lead : list Z) : Prop :=
  head lead = Some startRegion ∧ last lead = Some goalRegion ∧
  Forall (λ k, k ≠ startRegion) (tail lead).

(** The predecessor map of the random search: a vertex that was discovered
    is the start region, its own predecessor, or an out-neighbour of its
    predecessor. *)
Definition discovered_along_edges (st : Syclop) (startRegion : Z)
    (parents : list Z) : Prop :=
  ∀ a p, vec_get parents a = Some p → 0 ≤ p →
         (a = startRegion ∧ p = startRegion) ∨
         (∃ outs, vec_get (graph_out st) p = Some outs ∧ a ∈ outs).

(** [r'] is the region [r] after the tree has grown: motions were appended,
    coverage cells and selections were added, and the estimates of the
    volume are the same. *)
Definition region_grown (r r' : Region) : Prop :=
  index r' = index r ∧ volume r' = volume r ∧ freeVolume r' = freeVolume r ∧
  percentValidCells r' = percentValidCells r ∧
  motions r `prefix_of` motions r' ∧
  covGridCells r ⊆ covGridCells r' ∧
  numSelections r ≤ numSelections r'.

(** [a'] is the edge [a] after the tree has grown: coverage cells and
    selections were added, an edge the tree has crossed stays crossed, and
    the number of lead inclusions is the same. *)
Definition edge_grown (a a' : Adjacency) : Prop :=
  source a' = source a ∧ target a' = target a ∧
  numLeadInclusions a' = numLeadInclusions a ∧
  adj_covGridCells a ⊆ adj_covGridCells a' ∧
  adj_numSelections a ≤ adj_numSelections a' ∧
  (adj_empty a = false → adj_empty a' = false).

(** The members of the planner that the region-expansion loop does not
    write. *)
Definition same_setting (st st' : Syclop) : Prop :=
  graph_out st' = graph_out st ∧ lead_ st' = lead_ st ∧
  startRegions_ st' = startRegions_ st ∧ goalRegions_ st' = goalRegions_ st ∧
  edgeCostFactors_ st' = edgeCostFactors_ st ∧
  graphReady_ st' = graphReady_ st ∧
  pis_starts st' = pis_starts st ∧ pis_goals st' = pis_goals st ∧
  msg_ st' = msg_ st ∧ solutionPaths st' = solutionPaths st ∧
  config st' = config st.

(** The planner [st'] is [st] after the tree has grown: the graph has the
    same vertices and edges, each of them grown, the distribution of
    available regions was extended at its end, and the rest is the same but
    for the counters [numMotions_], of the random numbers and of the polls. *)
Definition tree_grown (st st' : Syclop) : Prop :=
  Forall2 region_grown (graph_regions st) (graph_regions st') ∧
  (∀ key, option_Forall2 edge_grown
            (regionsToEdge_ st !! key) (regionsToEdge_ st' !! key)) ∧
  availDist_ st `prefix_of` availDist_ st' ∧
  same_setting st st'.

(** [a'] is the edge [a] after leads were computed: an edge the tree has
    crossed is the same, and an edge it has not crossed may have been
    included in more leads, with its cost recomputed. *)
Definition lead_counted (a a' : Adjacency) : Prop :=
  source a' = source a ∧ target a' = target a ∧
  adj_empty a' = adj_empty a ∧ adj_numSelections a' = adj_numSelections a ∧
  adj_covGridCells a' = adj_covGridCells a ∧
  numLeadInclusions a ≤ numLeadInclusions a' ∧
  (adj_empty a = false → a' = a).

(** The local variables of [solve] agree with the goal: the flag [solved]
    and the distance [goalDist] are what [Goal::isSatisfied] says about the
    state of the motion kept as [solution], and without such a motion
    nothing is solved. *)
Definition reported (pr : Progress) : Prop :=
  match solution pr with
  | Some m =>
      solved pr = (isSatisfied (state m)).1 ∧
      goalDist pr = (isSatisfied (state m)).2
  | None => solved pr = false
  end.

(** The planner is ready for a round of the region-expansion loop: the
    graph is well formed, and [availDist_] is not empty and holds regions
    with motions only. *)
Definition expandable (st : Syclop) : Prop :=
  well_formed st ∧ availDist_ st ≠ [] ∧ available_have_motions st.

(** The graph while [buildGraph] adds the edges: the [n] vertices are
    there, each as [initRegion] leaves it, and no edge cost factor is
    installed. *)
Definition building (n : Z) (st : Syclop) : Prop :=
  graph_regions st = (λ i, initRegion (blankRegion i)) <$> seqZ 0 n ∧
  length (graph_out st) = Z.to_nat n ∧
  edgeCostFactors_ st = [].

(** [a'] is the edge [a] as [setupEdgeEstimates] resets it: the counters
    are zero, the edge counts as not crossed, and the end points and the
    coverage are kept. *)
Definition reset_of (a a' : Adjacency) : Prop :=
  source a' = source a ∧ target a' = target a ∧
  adj_covGridCells a' = adj_covGridCells a ∧
  adj_empty a' = true ∧ numLeadInclusions a' = 0 ∧ adj_numSelections a' = 0.

(** The pairs of consecutive entries of a lead, in order. *)
Definition lead_pairs (lead : list Z) : list (Z * Z) :=
  zip lead (tail lead).

(** The graph of [st'] has the structure of the graph of [st]: the same
    vertices with the same indices, the same adjacency, the same stored
    edges with the same end points, and the same edge cost factors. *)
Definition same_graph (st st' : Syclop) : Prop :=
  index <$> graph_regions st' = index <$> graph_regions st ∧
  (∀ key,
     option_Forall2 (λ a a', source a' = source a ∧ target a' = target a)
       (regionsToEdge_ st !! key) (regionsToEdge_ st' !! key)) ∧
  graph_out st' = graph_out st ∧
  edgeCostFactors_ st' = edgeCostFactors_ st.

End Model.

(** ** A concrete world

    Three regions in a row on the integers: region [r] holds the states
    [10 r .. 10 r + 9], the states below [validBelow] are valid, and every
    state is its own coverage cell.  The goal is the state [goal].  The tree
    planner extends the last motion of the selected region by [step].  The
    search finds the path along the row when [found] is set, and none
    otherwise; the termination condition holds from its [stopAt]-th poll.
    The random numbers are all [0.5], and every choice among several takes
    the first. *)

Section Demo.

Context {D : Type} {arith : Double D}.

Definition chain_decomposition : Decomposition (D := D) (State := Z) :=
  {| getNumRegions := 3;
     locateRegion := λ s, s / 10;
     getNeighbors := λ r,
       if decide (r = 0) then [1] else if decide (r = 1) then [0; 2] else [1];
     getRegionVolume := λ _, d_one |}.

Definition chain_space (goal validBelow : Z) : Space (D := D) (State := Z) :=
  {| covGrid_locateRegion := λ s, s;
     isValid := λ s, bool_decide (s < validBelow);
     sampleUniform := λ i, Z.of_nat i;
     isSatisfied := λ s, (bool_decide (s = goal), d_of_Z (Z.abs (goal - s)));
     getPropagationStepSize := d_one |}.

Definition chain_planner (step : Z)
    : TreePlanner (D := D) (State := Z) (Control := unit) :=
  {| addRoot := λ s, mkMotion s () 0 None;
     selectAndExtend := λ st region,
       match getRegion st region with
       | Some r =>
           match last (motions r) with
           | Some m => [mkMotion (state m + step) () 1 (Some m)]
           | None => []
           end
       | None => []
       end |}.

Definition chain_oracle (found : bool) (stopAt : nat)
    : Oracle (D := D) (State := Z) (Control := unit) :=
  {| uniform01 := λ _, d_div d_one (d_of_Z 2);
     uniformInt := λ _ lo _, lo;
     regionSet_sampleUniform := λ _ s, default (-1) (head (elements s));
     pdf_sample := λ d _, default (-1) (head d.*1);
     astar_search := λ _ startRegion _,
       if found then
         Some ((λ i, if decide (i < startRegion) then i + 1
                     else if decide (startRegion < i) then i - 1 else i)
                 <$> seqZ 0 3)
       else None;
     ptc := λ n, bool_decide (stopAt ≤ n)%nat |}.

(** A tree planner that extends like [chain_planner], and returns the new
    motion only when its state lies in a region of the graph. *)
Definition careful_planner (step : Z)
    : TreePlanner (D := D) (State := Z) (Control := unit) :=
  {| addRoot := λ s, mkMotion s () 0 None;
     selectAndExtend := λ st region,
       match getRegion st region with
       | Some r =>
           match last (motions r) with
           | Some m =>
               if decide (is_Some (getRegion st ((state m + step) / 10)))
               then [mkMotion (state m + step) () 1 (Some m)]
               else []
           | None => []
           end
       | None => []
       end |}.

(** The planner [st] with [n] samples for the estimates of the free
    volume. *)
Definition with_samples (n : Z)
    (st : Syclop (D := D) (State := Z) (Control := unit)) : Syclop :=
  {| graph_regions := graph_regions st; graph_out := graph_out st;
     regionsToEdge_ := regionsToEdge_ st; lead_ := lead_ st;
     availDist_ := availDist_ st; startRegions_ := startRegions_ st;
     goalRegions_ := goalRegions_ st;
     edgeCostFactors_ := edgeCostFactors_ st; graphReady_ := graphReady_ st;
     numMotions_ := numMotions_ st; rng_ := rng_ st;
     ptc_polls := ptc_polls st; pis_starts := pis_starts st;
     pis_goals := pis_goals st; msg_ := msg_ st;
     solutionPaths := solutionPaths st;
     config :=
       {| numFreeVolSamples_ := n;
          probShortestPath_ := probShortestPath_ (config st);
          probKeepAddingToAvail_ := probKeepAddingToAvail_ (config st);
          probAbandonLeadEarly_ := probAbandonLeadEarly_ (config st);
          numRegionExpansions_ := numRegionExpansions_ (config st);
          numTreeSelections_ := numTreeSelections_ (config st) |} |}.

(** The default probabilities of the source, [0.25], [0.95] and [0.95]. *)
Definition demo_config : Config (D := D) :=
  {| numFreeVolSamples_ := 30;
     probShortestPath_ := d_div (d_of_Z 19) (d_of_Z 20);
     probKeepAddingToAvail_ := d_div (d_of_Z 19) (d_of_Z 20);
     probAbandonLeadEarly_ := d_div d_one (d_of_Z 4);
     numRegionExpansions_ := 2;
     numTreeSelections_ := 1 |}.

(** A planner object before [setup], with the given start and goal
    states. *)
Definition fresh (starts goals : list Z)
    : Syclop (D := D) (State := Z) (Control := unit) :=
  {| graph_regions := []; graph_out := []; regionsToEdge_ := ∅; lead_ := [];
     availDist_ := []; startRegions_ := ∅; goalRegions_ := ∅;
     edgeCostFactors_ := []; graphReady_ := false; numMotions_ := 0;
     rng_ := 0; ptc_polls := 0; pis_starts := starts; pis_goals := goals;
     msg_ := []; solutionPaths := []; config := demo_config |}.

(** The result of a step that is defined, and the fresh planner else. *)
Definition the (step : option (Syclop (D := D) (State := Z) (Control := unit)))
    : Syclop :=
  default (fresh [] []) step.

(** A decomposition with an island: the regions [0] and [1] are adjacent,
    and region [2] has no neighbour. *)
Definition island_decomposition : Decomposition (D := D) (State := Z) :=
  {| getNumRegions := 3;
     locateRegion := λ s, s / 10;
     getNeighbors := λ r,
       if decide (r = 0) then [1] else if decide (r = 1) then [0] else [];
     getRegionVolume := λ _, d_one |}.

(** Randomness and search on the island decomposition.  A search between
    the regions [0] and [1] reaches its goal, and the predecessor of either
    is the start region; a search from one of them to region [2], or from
    region [2] to one of them, returns without reaching the goal, as no
    path exists. *)
Definition island_oracle : Oracle (D := D) (State := Z) (Control := unit) :=
  {| uniform01 := λ _, d_div d_one (d_of_Z 2);
     uniformInt := λ _ lo _, lo;
     regionSet_sampleUniform := λ _ s, default (-1) (head (elements s));
     pdf_sample := λ d _, default (-1) (head d.*1);
     astar_search := λ _ startRegion goalRegion,
       if decide (0 ≤ startRegion ≤ 1 ∧ 0 ≤ goalRegion ≤ 1) then
         Some [startRegion; startRegion; 2]
       else None;
     ptc := λ _, false |}.

(** The planner on the island decomposition after [setup], with the
    estimates set up and the start state [3] seeded; and the same planner
    after it computed the lead from region [0] to region [1]. *)
Definition island_seeded : Syclop (D := D) (State := Z) (Control := unit) :=
  the (st ← setup (decomp_ := island_decomposition) (fresh [3] []);
       st ← setupEstimates (decomp_ := island_decomposition)
              (si_ := chain_space 25 30) st;
       addStarts (decomp_ := island_decomposition) (si_ := chain_space 25 30)
         (planner := chain_planner 11) (pis_starts st) st).

Definition island_lead : Syclop (D := D) (State := Z) (Control := unit) :=
  the (computeLead (decomp_ := island_decomposition) (oracle := island_oracle)
         island_seeded 0 1).

(** The parameters of a run in this world. *)
Class Scenario : Type := {
  goal : Z;
  validBelow : Z;
  step : Z;
  found : bool;
  stopAt : nat;
}.

Context {sc : Scenario}.

#[export] Existing Instance chain_decomposition.
#[export] Instance demo_space : Space := chain_space goal validBelow.
#[export] Instance demo_planner : TreePlanner := chain_planner step.
#[export] Instance demo_oracle : Oracle := chain_oracle found stopAt.

(** The planner after [setup]. *)
Definition demo_setup (starts goals : list Z) : Syclop :=
  the (setup (fresh starts goals)).

(** The planner after the estimates are set up and the start state [3] is
    seeded. *)
Definition demo_seeded : Syclop :=
  the (st ← setupEstimates (demo_setup [3] []); addStarts (pis_starts st) st).

(** The planner after a lead from region [0] to [goalRegion] is computed
    and the available regions are taken from it. *)
Definition demo_lead (goalRegion : Z) : Syclop :=
  the (computeLead demo_seeded 0 goalRegion).

Definition demo_available (goalRegion : Z) : Syclop :=
  the (computeAvailableRegions (demo_lead goalRegion)).

(** The local variables of [solve] when the main loop is entered. *)
Definition no_progress : Progress (D := D) (State := Z) (Control := unit) :=
  {| solution := None; goalDist := d_infinity; solved := false |}.

(** The planner after one selection of a region, and after one round of the
    region-expansion loop. *)
Definition demo_selected (goalRegion : Z) : Syclop :=
  the (snd <$> selectRegion (demo_available goalRegion)).

Definition demo_expanded (goalRegion : Z) : Syclop :=
  the (fst <$> regionExpansions 1 (demo_available goalRegion) no_progress).

(** A complete call of [solve] with the start state [3] and the goal state
    [goal]. *)
Definition demo_solve : option (bool * Syclop) :=
  solve 8 (demo_setup [3] [goal]).

End Demo.

(** The goal state is the first state the tree reaches. *)
Definition goal_at_once : Scenario :=
  {| goal := 14; validBelow := 30; step := 11; found := true; stopAt := 50 |}.

(** The goal state lies two steps from the start state. *)
Definition goal_later : Scenario :=
  {| goal := 25; validBelow := 30; step := 11; found := true; stopAt := 50 |}.

(** The search for a shortest path fails. *)
Definition no_path : Scenario :=
  {| goal := 25; validBelow := 30; step := 11; found := false; stopAt := 50 |}.

(** No state of the last region is valid. *)
Definition blocked : Scenario :=
  {| goal := 25; validBelow := 20; step := 11; found := true; stopAt := 50 |}.

(** The termination condition holds from the second poll. *)
Definition stopped_later : Scenario :=
  {| goal := 25; validBelow := 30; step := 11; found := true; stopAt := 1 |}.

(** The termination condition holds from the first poll. *)
Definition stopped : Scenario :=
  {| goal := 25; validBelow := 30; step := 11; found := true; stopAt := 0 |}.

(** * Properties *)

(** ** Vectors *)

Lemma vec_get_range {A : Type} (v : list A) (i : Z) (x : A) :
  vec_get v i = Some x → 0 ≤ i < Z.of_nat (length v).
Proof.
  unfold vec_get. case_decide; [|done].
  intros Hx%lookup_lt_Some. lia.
Qed.

Lemma vec_get_is_Some {A : Type} (v : list A) (i : Z) :
  0 ≤ i < Z.of_nat (length v) → is_Some (vec_get v i).
Proof.
  intros Hi. unfold vec_get. rewrite decide_True by lia.
  apply lookup_lt_is_Some. lia.
Qed.

Lemma vec_set_length {A : Type} (v : list A) (i : Z) (x : A) :
  length (vec_set v i x) = length v.
Proof. apply length_insert. Qed.

Lemma vec_get_set_eq {A : Type} (v : list A) (i : Z) (x : A) :
  is_Some (vec_get v i) → vec_get (vec_set v i x) i = Some x.
Proof.
  intros [y Hy]. pose proof (vec_get_range _ _ _ Hy) as Hi.
  unfold vec_get, vec_set. rewrite decide_True by lia.
  apply list_lookup_insert_eq. lia.
Qed.

Lemma vec_get_set_ne {A : Type} (v : list A) (i j : Z) (x : A) :
  0 ≤ i → i ≠ j → vec_get (vec_set v i x) j = vec_get v j.
Proof.
  intros Hi Hne. unfold vec_get, vec_set. case_decide; [|done].
  apply list_lookup_insert_ne. lia.
Qed.

Lemma vec_get_set {A : Type} (v : list A) (i j : Z) (x y : A) :
  vec_get v i = Some y →
  vec_get (vec_set v i x) j = if decide (i = j) then Some x else vec_get v j.
Proof.
  intros Hy. case_decide as Hij.
  - subst j. apply vec_get_set_eq. by exists y.
  - apply vec_get_set_ne; [|done]. by apply vec_get_range in Hy as [? _].
Qed.

Lemma foldM_invariant {A B : Type} (P : A → Prop) (f : A → B → option A)
    (l : list B) (x y : A) :
  P x → (∀ x1 b x2, P x1 → f x1 b = Some x2 → P x2) →
  foldM f x l = Some y → P y.
Proof.
  intros Hx Hstep. revert x Hx. induction l as [|b l IH]; intros x Hx; simpl.
  - by intros [= <-].
  - destruct (f x b) as [x'|] eqn:Hf; [|done]. simpl. by eapply IH, Hstep.
Qed.

Section Properties.

Context {D : Type} {arith : Double D} {State Control : Type}.
Context {decomp_ : Decomposition (D := D) (State := State)}.
Context {si_ : Space (D := D) (State := State)}.
Context {planner : TreePlanner (D := D) (State := State) (Control := Control)}.
Context {oracle : Oracle (D := D) (State := State) (Control := Control)}.
Context {counter : CounterType}.

Local Abbreviation Syclop := (Syclop (D := D) (State := State) (Control := Control)).
Local Abbreviation Region := (Region (D := D) (State := State) (Control := Control)).
Local Abbreviation Adjacency := (Adjacency (D := D)).
Local Abbreviation Motion := (Motion (State := State) (Control := Control)).

Implicit Types (st : Syclop) (r : Region) (a : Adjacency) (m : Motion).

(** ** Regions of the graph *)

Lemma getRegion_setRegion st i j r r0 :
  getRegion st i = Some r0 →
  getRegion (setRegion st i r) j =
    if decide (i = j) then Some r else getRegion st j.
Proof. intros Hi. unfold getRegion, setRegion. simpl. by eapply vec_get_set. Qed.

Lemma getRegion_range st i r :
  getRegion st i = Some r → 0 ≤ i < Z.of_nat (length (graph_regions st)).
Proof. apply vec_get_range. Qed.

(** ** Derived scalars of a region *)

Lemma size_t_small (z : Z) : 0 ≤ z < 2 ^ 64 → size_t z = z.
Proof. apply Z.mod_small. Qed.

Lemma counts_in_range_cells r :
  counts_in_range r → 0 ≤ 1 + Z.of_nat (size (covGridCells r)) < 2 ^ 64.
Proof. unfold counts_in_range. nia. Qed.

Lemma counts_in_range_selections r :
  counts_in_range r →
  as_counter (1 + as_counter (numSelections r * numSelections r)) =
    1 + numSelections r * numSelections r.
Proof.
  intros [Hs _]. rewrite (as_counter_small (_ * _)) by nia.
  apply as_counter_small. nia.
Qed.

(** [updateRegion] writes [alpha] and [weight] and nothing else. *)
Lemma updateRegion_fields r :
  index (updateRegion r) = index r ∧
  numSelections (updateRegion r) = numSelections r ∧
  volume (updateRegion r) = volume r ∧
  freeVolume (updateRegion r) = freeVolume r ∧
  percentValidCells (updateRegion r) = percentValidCells r ∧
  covGridCells (updateRegion r) = covGridCells r ∧
  motions (updateRegion r) = motions r.
Proof. repeat split. Qed.

Lemma updateRegion_derived r : counts_in_range r → derived (updateRegion r).
Proof.
  intros Hr. pose proof (counts_in_range_cells r Hr) as Hc.
  unfold derived, updateRegion, freeVolume4. simpl.
  rewrite (counts_in_range_selections r Hr).
  rewrite (size_t_small (1 + _)) by done.
  rewrite size_t_small; [done|]. destruct Hr as [Hs Hr]. nia.
Qed.


(** ** The default edge cost *)



(** ** Edge cost factors *)

Lemma edgeCost_no_factors st a : edgeCostFactors_ st = [] → edgeCost st a = Some d_one.
Proof. intros Hnil. unfold edgeCost. by rewrite Hnil. Qed.

(** C3, as the code has it.  [clearEdgeCostFactors] after
    [addEdgeCostFactor f] leaves the list of factors empty, whatever it held
    before: the default factor is removed with the others, and [updateEdge]
    then sets the cost of an edge to [1.0]. *)
Theorem clearEdgeCostFactors_leaves_none st (f : EdgeCostFactorFn) (key : Z * Z) a :
  regionsToEdge_ st !! key = Some a →
  let st' := clearEdgeCostFactors (addEdgeCostFactor st f) in
  edgeCostFactors_ st' = [] ∧
  ∃ st'', updateEdge st' key = Some st'' ∧
          regionsToEdge_ st'' !! key = Some (set_cost a d_one).
Proof.
  intros Ha st'. split; [done|].
  unfold updateEdge. change (regionsToEdge_ st') with (regionsToEdge_ st).
  rewrite Ha. simpl.
  eexists. split; [done|]. simpl. apply lookup_insert_eq.
Qed.

(** ** Selection of a region *)

Lemma selectRegion_inv st (k : Z) st' :
  selectRegion st = Some (k, st') →
  k = pdf_sample (availDist_ st) (uniform01 (rng_ st)) ∧
  availDist_ st' = availDist_ st ∧
  regionsToEdge_ st' = regionsToEdge_ st ∧
  (∀ j, j ≠ k → getRegion st' j = getRegion st j) ∧
  (∃ r, getRegion st k = Some r ∧
        getRegion st' k =
          Some (updateRegion (set_numSelections r (numSelections r + 1)))) ∧
  st' = set_graph_regions (set_rng_ st (S (rng_ st))) (graph_regions st').
Proof.
  unfold selectRegion. simpl.
  destruct (availDist_ st) as [|e d] eqn:Hd; [done|].
  change (getRegion (set_rng_ st (S (rng_ st)))) with (getRegion st).
  destruct (getRegion st (pdf_sample (e :: d) (uniform01 (rng_ st))))
    as [r|] eqn:Hr; [|done].
  simpl. intros [= <- <-]. repeat split; try done.
  - intros j Hj. unfold getRegion, setRegion. simpl.
    rewrite (vec_get_set _ _ _ _ r Hr). by rewrite decide_False.
  - exists r. split; [done|]. unfold getRegion, setRegion. simpl.
    rewrite (vec_get_set _ _ _ _ r Hr). by rewrite decide_True.
Qed.

(** C10.  [selectRegion] draws one random number, samples [availDist_] and
    returns the sampled index [k]; of the planner's state it changes the
    position in the random stream and the region [k], whose [numSelections]
    is incremented and whose [alpha] and [weight] are recomputed, with every
    other member of the region as it was.  [availDist_], with the weights
    recorded in it, every other region and all edges are as before: an entry
    of [availDist_] keeps the weight it was added with. *)
Theorem selectRegion_frame st (k : Z) st' :
  selectRegion st = Some (k, st') →
  k = pdf_sample (availDist_ st) (uniform01 (rng_ st)) ∧
  availDist_ st' = availDist_ st ∧
  regionsToEdge_ st' = regionsToEdge_ st ∧
  (∀ j, j ≠ k → getRegion st' j = getRegion st j) ∧
  (∃ r r', getRegion st k = Some r ∧ getRegion st' k = Some r' ∧
           r' = updateRegion (set_numSelections r (numSelections r + 1)) ∧
           numSelections r' = numSelections r + 1 ∧
           index r' = index r ∧ volume r' = volume r ∧
           freeVolume r' = freeVolume r ∧
           percentValidCells r' = percentValidCells r ∧
           covGridCells r' = covGridCells r ∧ motions r' = motions r) ∧
  st' = set_graph_regions (set_rng_ st (S (rng_ st))) (graph_regions st').
Proof.
  intros (Hk & Hav & Hedges & Hother & (r & Hr & Hr') & Hframe)%selectRegion_inv.
  repeat (split; [done|]). split; [|done].
  exists r, (updateRegion (set_numSelections r (numSelections r + 1))).
  by repeat split.
Qed.

(** ** Available regions *)

Lemma to_int_size_t_pred (n : Z) :
  0 ≤ n < 2 ^ 31 → to_int (size_t (n - 1)) = n - 1.
Proof.
  intros Hn. destruct (decide (n = 0)) as [->|Hne]; [done|].
  unfold to_int. rewrite size_t_small by lia.
  rewrite Z.mod_small by lia. lia.
Qed.

Lemma candidates_ext st1 st2 ks :
  graph_regions st1 = graph_regions st2 → candidates st1 ks = candidates st2 ks.
Proof.
  intros Heq. induction ks as [|k ks IH]; [done|].
  simpl. unfold getRegion. by rewrite Heq, IH.
Qed.

Lemma candidates_nonempty st ks :
  candidates st ks ≠ [] ↔
  ∃ k r, k ∈ ks ∧ getRegion st k = Some r ∧ motions r ≠ [].
Proof.
  induction ks as [|k ks IH]; simpl.
  - split; [done|]. intros (k & r & Hk & _). by apply elem_of_nil in Hk.
  - destruct (getRegion st k) as [r|] eqn:Hr.
    + destruct (motions r) as [|m ms] eqn:Hm.
      * rewrite IH. split.
        -- intros (k' & r' & Hk' & Hr'). exists k', r'. split; [by right|done].
        -- intros (k' & r' & Hk' & Hr' & Hm').
           apply elem_of_cons in Hk' as [->|Hk'].
           ++ rewrite Hr in Hr'. injection Hr' as <-. done.
           ++ by exists k', r'.
      * split; [|done]. intros _. exists k, r. split; [by left|].
        split; [done|]. by rewrite Hm.
    + rewrite IH. split.
      * intros (k' & r' & Hk' & Hr'). exists k', r'. split; [by right|done].
      * intros (k' & r' & Hk' & Hr' & Hm').
        apply elem_of_cons in Hk' as [->|Hk']; [congruence|].
        by exists k', r'.
Qed.

(** The loop of [computeAvailableRegions] over the first [n] regions of the
    lead: it appends a prefix of the candidates among them, of a length [m]
    that the random draws fix, and touches nothing else. *)
Lemma availableLoop_spec (n : nat) st :
  (n ≤ length (lead_ st))%nat →
  (∀ k, k ∈ lead_ st → is_Some (getRegion st k)) →
  let cands := candidates st (reverse (take n (lead_ st))) in
  let p := probKeepAddingToAvail_ (config st) in
  ∃ st' (m : nat),
    availableLoop n st = Some st' ∧
    availDist_ st' = availDist_ st ++ take m cands ∧
    (m ≤ length cands)%nat ∧
    (cands ≠ [] → (1 ≤ m)%nat) ∧
    (∀ j : nat, (S j < m)%nat → d_ge (uniform01 (rng_ st + j)%nat) p = false) ∧
    ((m < length cands)%nat → d_ge (uniform01 (rng_ st + m - 1)%nat) p = true) ∧
    st' = set_rng_ (set_availDist_ st (availDist_ st')) (rng_ st + m)%nat.
Proof.
  revert st. induction n as [|i IH]; intros st Hn Hlead cands p.
  - exists st, 0%nat. subst cands. simpl. rewrite app_nil_r, Nat.add_0_r.
    repeat split; try done; try lia. by destruct st.
  - destruct (lookup_lt_is_Some_2 (lead_ st) i ltac:(lia)) as [k Hk].
    destruct (Hlead k) as [r Hr]; [by eapply list_elem_of_lookup_2|].
    assert (Hcands : cands = candidates st (k :: reverse (take i (lead_ st)))).
    { subst cands. by rewrite (take_S_r _ _ _ Hk), reverse_app. }
    simpl. rewrite Hk. simpl. rewrite Hr. simpl.
    simpl in Hcands. rewrite Hr in Hcands.
    destruct (motions r) as [|m0 ms] eqn:Hm.
    + destruct (IH st ltac:(lia) Hlead) as (st' & m & Hrun & Hrest).
      exists st', m. split; [done|]. by rewrite Hcands.
    + set (st2 := set_rng_ (set_availDist_ st (availDist_ st ++ [(k, weight r)]))
                    (S (rng_ st))).
      destruct (d_ge (uniform01 (rng_ st)) (probKeepAddingToAvail_ (config st)))
        eqn:Hdraw.
      * exists st2, 1%nat. rewrite Hcands. simpl. rewrite take_0.
        split; [done|]. split; [done|]. split; [lia|]. split; [lia|].
        split; [intros j Hj; lia|]. split.
        -- intros _. replace (rng_ st + 1 - 1)%nat with (rng_ st) by lia. done.
        -- subst st2. by rewrite Nat.add_1_r.
      * destruct (IH st2 ltac:(simpl; lia) Hlead)
          as (st' & m & Hrun & Hav & Hle & Hpos & Hlt & Hge & Hframe).
        rewrite (candidates_ext st2 st) in Hav, Hle, Hpos, Hge by done.
        change (lead_ st2) with (lead_ st) in Hav, Hle, Hpos, Hge.
        change (config st2) with (config st) in Hlt, Hge.
        change (rng_ st2) with (S (rng_ st)) in Hlt, Hge, Hframe.
        change (availDist_ st2) with (availDist_ st ++ [(k, weight r)]) in Hav.
        exists st', (S m). rewrite Hcands. simpl.
        split; [done|]. split; [by rewrite Hav, <- app_assoc|].
        split; [lia|]. split; [lia|]. split; [|split].
        -- intros [|j] Hj; [by rewrite Nat.add_0_r|].
           replace (rng_ st + S j)%nat with (S (rng_ st) + j)%nat by lia.
           apply Hlt. lia.
        -- intros Hm'.
           assert (1 ≤ m)%nat as Hm1.
           { apply Hpos. intros Hnil. rewrite Hnil in Hm'. simpl in Hm'. lia. }
           replace (rng_ st + S m - 1)%nat with (S (rng_ st) + m - 1)%nat by lia.
           apply Hge. lia.
        -- rewrite Hframe. by rewrite Nat.add_succ_r.
Qed.

(** C8.  [computeAvailableRegions] discards the old content of
    [availDist_] and walks the lead from its last region to its first.  With
    [cands] the lead regions that hold a motion, in that order and each with
    its weight, the new content is the first [m] entries of [cands]: one
    random number is drawn after every addition, the walk went on after each
    of the first [m - 1] draws because the draw was below
    [probKeepAddingToAvail_], and if candidates are left over the [m]-th draw
    was not below it.  So the first candidate, the region with a motion
    closest to the goal, is always added, and [availDist_] is non-empty
    exactly when some region of the lead holds a motion.  Nothing else of the
    planner changes but the position in the random stream.  (Every region of
    the lead is a vertex of the graph, and the lead is shorter than
    [2^31].) *)
Theorem computeAvailableRegions_spec st :
  Z.of_nat (length (lead_ st)) < 2 ^ 31 →
  (∀ k, k ∈ lead_ st → is_Some (getRegion st k)) →
  let cands := candidates st (reverse (lead_ st)) in
  let p := probKeepAddingToAvail_ (config st) in
  ∃ st' (m : nat),
    computeAvailableRegions st = Some st' ∧
    availDist_ st' = take m cands ∧
    (m ≤ length cands)%nat ∧
    (∀ j : nat, (S j < m)%nat → d_ge (uniform01 (rng_ st + j)%nat) p = false) ∧
    ((m < length cands)%nat → d_ge (uniform01 (rng_ st + m - 1)%nat) p = true) ∧
    head (availDist_ st') = head cands ∧
    (availDist_ st' ≠ [] ↔
     ∃ k r, k ∈ lead_ st ∧ getRegion st k = Some r ∧ motions r ≠ []) ∧
    st' = set_rng_ (set_availDist_ st (availDist_ st')) (rng_ st + m)%nat.
Proof.
  intros Hlen Hlead cands p. unfold computeAvailableRegions.
  set (st0 := set_availDist_ st []).
  change (lead_ st0) with (lead_ st).
  rewrite to_int_size_t_pred by lia.
  replace (Z.to_nat (Z.of_nat (length (lead_ st)) - 1 + 1))
    with (length (lead_ st)) by lia.
  destruct (availableLoop_spec (length (lead_ st)) st0 ltac:(done) Hlead)
    as (st' & m & Hrun & Hav & Hle & Hpos & Hlt & Hge & Hframe).
  rewrite (candidates_ext st0 st) in Hav, Hle, Hpos, Hge by done.
  change (lead_ st0) with (lead_ st) in Hav, Hle, Hpos, Hge.
  rewrite firstn_all in Hav, Hle, Hpos, Hge.
  change (availDist_ st0) with (@nil (Z * D)) in Hav. simpl in Hav.
  fold cands in Hav, Hle, Hpos, Hge.
  exists st', m. repeat split; try done.
  - rewrite Hav. destruct cands as [|c cs]; [by rewrite take_nil|].
    destruct m as [|m']; [|done].
    exfalso. apply (Nat.nle_succ_0 0), Hpos. done.
  - intros Hne. assert (cands ≠ []) as Hc.
    { intros Hnil. apply Hne. rewrite Hav, Hnil. by rewrite take_nil. }
    apply candidates_nonempty in Hc as (k & r & Hk & Hr). exists k, r.
    split; [by apply elem_of_reverse|done].
  - intros (k & r & Hk & Hr & Hm) Hnil.
    assert (cands ≠ []) as Hc.
    { apply candidates_nonempty. exists k, r. split; [|done].
      by apply elem_of_reverse. }
    specialize (Hpos Hc). rewrite Hav in Hnil.
    destruct cands as [|c cs]; [done|]. destruct m; [lia|done].
Qed.

(** ** Well-formed graphs *)

#[local] Instance well_formed_dec st : Decision (well_formed st).
Proof. unfold well_formed. apply _. Defined.

Lemma well_formed_index st i r :
  well_formed st → getRegion st i = Some r → index r = i.
Proof.
  intros [Hidx _] Hr. pose proof (vec_get_range _ _ _ Hr) as Hi.
  unfold getRegion, vec_get in Hr. rewrite decide_True in Hr by lia.
  assert ((index <$> graph_regions st) !! Z.to_nat i = Some (index r)) as Hl
    by (by rewrite list_lookup_fmap, Hr).
  rewrite Hidx in Hl. unfold vertices in Hl.
  apply lookup_seqZ in Hl as [-> _]. lia.
Qed.

Lemma well_formed_edge st key a :
  well_formed st → regionsToEdge_ st !! key = Some a →
  key = (source a, target a) ∧
  is_Some (getRegion st (source a)) ∧ is_Some (getRegion st (target a)).
Proof.
  intros [_ Hedges] Ha. destruct (Hedges key a Ha) as (-> & Hs & Ht).
  split; [done|]. split; by apply vec_get_is_Some.
Qed.

(** A region may be replaced by one with the same index. *)
Lemma well_formed_setRegion st i r r0 :
  well_formed st → getRegion st i = Some r0 → index r = index r0 →
  well_formed (setRegion st i r).
Proof.
  intros [Hidx Hedges] Hr0 Hindex. pose proof (vec_get_range _ _ _ Hr0) as Hi.
  unfold getRegion, vec_get in Hr0. rewrite decide_True in Hr0 by lia.
  split.
  - unfold setRegion, vertices, vec_set. simpl. rewrite length_insert.
    rewrite list_fmap_insert, Hindex. unfold vertices in Hidx. rewrite <- Hidx.
    apply list_insert_id. by rewrite list_lookup_fmap, Hr0.
  - unfold setRegion, vec_set. simpl. by rewrite length_insert.
Qed.

(** An edge may be replaced by one with the same end points. *)
Lemma well_formed_set_edge st key a a0 :
  well_formed st → regionsToEdge_ st !! key = Some a0 →
  source a = source a0 → target a = target a0 →
  well_formed (set_regionsToEdge_ st (<[key := a]> (regionsToEdge_ st))).
Proof.
  intros [Hidx Hedges] Ha0 Hs Ht. split; [done|]. simpl.
  apply map_Forall_insert_2; [|done]. rewrite Hs, Ht. by apply Hedges.
Qed.

Lemma well_formed_ext st st' :
  graph_regions st' = graph_regions st →
  regionsToEdge_ st' = regionsToEdge_ st →
  well_formed st → well_formed st'.
Proof. unfold well_formed, vertices. by intros -> ->. Qed.

(** ** Updates of edges and of coverage *)

Lemma defaultEdgeCost_defined st (i j : Z) :
  well_formed st → is_Some (regionsToEdge_ st !! (i, j)) →
  is_Some (defaultEdgeCost st i j).
Proof.
  intros Hwf [a Ha]. destruct (well_formed_edge _ _ _ Hwf Ha) as (_ & [src Hs] & [tgt Ht]).
  unfold defaultEdgeCost. rewrite Ha. simpl. rewrite Hs, Ht. by eexists.
Qed.

Lemma edgeCostLoop_defined st a factors (c : D) :
  well_formed st →
  is_Some (regionsToEdge_ st !! (source a, target a)) →
  is_Some (edgeCostLoop st a factors c).
Proof.
  intros Hwf [a0 Ha0]. revert c. induction factors as [|factor rest IH]; intros c.
  - by eexists.
  - destruct (well_formed_edge _ _ _ Hwf Ha0) as (Hkey & [src Hs] & [tgt Ht]).
    injection Hkey as Hks Hkt. rewrite <- Hks in Hs. rewrite <- Hkt in Ht.
    simpl. rewrite Hs, Ht. simpl.
    rewrite (well_formed_index _ _ _ Hwf Hs), (well_formed_index _ _ _ Hwf Ht).
    destruct factor as [|f]; simpl.
    + destruct (defaultEdgeCost_defined st (source a) (target a) Hwf) as [c' Hc'];
        [by eexists|].
      rewrite Hc'. simpl. apply IH.
    + apply IH.
Qed.

Lemma updateEdge_defined st key a :
  well_formed st → regionsToEdge_ st !! key = Some a →
  ∃ c, updateEdge st key =
         Some (set_regionsToEdge_ st (<[key := set_cost a c]> (regionsToEdge_ st))).
Proof.
  intros Hwf Ha. destruct (well_formed_edge _ _ _ Hwf Ha) as (Hkey & _).
  destruct (edgeCostLoop_defined st a (edgeCostFactors_ st) d_one Hwf) as [c Hc].
  { rewrite <- Hkey. by eexists. }
  exists c. unfold updateEdge, edgeCost. rewrite Ha. simpl. by rewrite Hc.
Qed.

Lemma updateEdge_inv st key st' :
  updateEdge st key = Some st' →
  ∃ a c, regionsToEdge_ st !! key = Some a ∧
         st' = set_regionsToEdge_ st (<[key := set_cost a c]> (regionsToEdge_ st)).
Proof.
  unfold updateEdge. destruct (regionsToEdge_ st !! key) as [a|]; [|done].
  simpl. destruct (edgeCost st a) as [c|]; [|done]. simpl.
  intros [= <-]. by exists a, c.
Qed.

Lemma updateCoverageEstimate_inv st (k : Z) (s : State) (b : bool) st' :
  updateCoverageEstimate st k s = Some (b, st') →
  ∃ r r', getRegion st k = Some r ∧ getRegion st' k = Some r' ∧
          motions r' = motions r ∧ index r' = index r ∧
          st' = set_graph_regions st (vec_set (graph_regions st) k r').
Proof.
  unfold updateCoverageEstimate. destruct (getRegion st k) as [r|] eqn:Hr; [|done].
  simpl. case_decide.
  - intros [= <- <-]. exists r, r. repeat split; try done.
    unfold vec_set. unfold getRegion in Hr.
    pose proof (vec_get_range _ _ _ Hr) as Hi. unfold vec_get in Hr.
    rewrite decide_True in Hr by lia. rewrite list_insert_id by done. by destruct st.
  - intros [= <- <-]. eexists r, _. split; [done|]. split.
    { rewrite (getRegion_setRegion _ _ _ _ r Hr). by rewrite decide_True. }
    done.
Qed.

Lemma updateCoverageEstimate_defined st (k : Z) (s : State) :
  is_Some (getRegion st k) → is_Some (updateCoverageEstimate st k s).
Proof.
  intros [r Hr]. unfold updateCoverageEstimate. rewrite Hr. simpl.
  case_decide; by eexists.
Qed.

Lemma updateConnectionEstimate_inv st (c d : Z) (s : State) (b : bool) st' :
  updateConnectionEstimate st c d s = Some (b, st') →
  st' = set_regionsToEdge_ st (regionsToEdge_ st').
Proof.
  unfold updateConnectionEstimate.
  destruct (getRegion st c) as [rc|]; [|done]. simpl.
  destruct (getRegion st d) as [rd|]; [|done]. simpl.
  destruct (regionsToEdge_ st !! (index rc, index rd)) as [adj|]; [|done]. simpl.
  case_decide.
  - intros [= <- <-]. by destruct st.
  - destruct (updateEdge _ _) as [st1|] eqn:Hup; [|done]. simpl.
    intros [= <- <-]. apply updateEdge_inv in Hup as (a & c' & _ & ->). done.
Qed.

Lemma updateConnectionEstimate_defined st (c d : Z) (s : State) :
  well_formed st → is_Some (regionsToEdge_ st !! (c, d)) →
  is_Some (updateConnectionEstimate st c d s).
Proof.
  intros Hwf [adj Hadj].
  destruct (well_formed_edge _ _ _ Hwf Hadj) as (Hkey & [rc Hc] & [rd Hd]).
  injection Hkey as Hks Hkt. rewrite <- Hks in Hc. rewrite <- Hkt in Hd.
  unfold updateConnectionEstimate. rewrite Hc, Hd. simpl.
  rewrite (well_formed_index _ _ _ Hwf Hc), (well_formed_index _ _ _ Hwf Hd).
  rewrite Hadj. simpl. case_decide; [by eexists|].
  set (adj1 := set_adj_covGridCells adj _).
  destruct (updateEdge_defined
              (set_regionsToEdge_ st (<[(c, d) := adj1]> (regionsToEdge_ st)))
              (c, d) adj1) as [c' Hc'].
  - by apply (well_formed_set_edge st (c, d) adj1 adj).
  - simpl. apply lookup_insert_eq.
  - rewrite Hc'. by eexists.
Qed.

(** ** Filing a motion *)

Lemma fileMotion_inv (k : Z) m (s : State) st (b : bool) st' :
  fileMotion k m s st = Some (b, st') →
  ∃ r r', getRegion st k = Some r ∧ getRegion st' k = Some r' ∧
          motions r' = motions r ++ [m] ∧ index r' = index r ∧
          st' = set_numMotions_
                  (set_graph_regions st (vec_set (graph_regions st) k r'))
                  (numMotions_ st + 1).
Proof.
  unfold fileMotion. destruct (getRegion st k) as [r|] eqn:Hr; [|done]. simpl.
  intros Hup. apply updateCoverageEstimate_inv in Hup
    as (r1 & r' & Hr1 & Hr' & Hm & Hi & ->).
  unfold getRegion in Hr1. simpl in Hr1.
  rewrite (vec_get_set _ _ _ _ r Hr) in Hr1.
  rewrite decide_True in Hr1 by done. injection Hr1 as <-.
  exists r, r'. split; [done|]. split; [done|]. split; [done|]. split; [done|].
  unfold setRegion, vec_set. simpl. by rewrite list_insert_insert_eq.
Qed.

Lemma fileMotion_defined (k : Z) m (s : State) st :
  is_Some (getRegion st k) → is_Some (fileMotion k m s st).
Proof.
  intros [r Hr]. unfold fileMotion. rewrite Hr. simpl.
  apply updateCoverageEstimate_defined.
  change (is_Some (getRegion (setRegion st k (set_motions r (motions r ++ [m]))) k)).
  rewrite (getRegion_setRegion _ _ _ _ r Hr). by rewrite decide_True.
Qed.

(** What filing a motion under region [k] does to the regions. *)
Lemma fileMotion_appended (k : Z) m (s : State) st (b : bool) st' :
  fileMotion k m s st = Some (b, st') →
  appended_to st st' k m ∧
  (∀ j, j ≠ k → getRegion st' j = getRegion st j) ∧
  length (graph_regions st') = length (graph_regions st).
Proof.
  intros (r & r' & Hr & Hr' & Hm & Hi & ->)%fileMotion_inv.
  assert (∀ j, j ≠ k →
            getRegion
              (set_numMotions_
                 (set_graph_regions st (vec_set (graph_regions st) k r'))
                 (numMotions_ st + 1)) j = getRegion st j) as Hother.
  { intros j Hj. unfold getRegion. simpl.
    rewrite (vec_get_set _ _ _ _ r Hr). by rewrite decide_False. }
  split; [split|split].
  - by exists r, r'.
  - intros j Hj. by rewrite Hother.
  - done.
  - simpl. apply vec_set_length.
Qed.

Lemma enterRegion_inv (region k : Z) (s : State) st (b : bool) st' :
  enterRegion region k s st = Some (b, st') →
  st' = set_regionsToEdge_ (set_availDist_ st (availDist_ st')) (regionsToEdge_ st') ∧
  (availDist_ st' = availDist_ st ∨
   ∃ r, getRegion st k = Some r ∧ length (motions r) = 1%nat ∧
        availDist_ st' = availDist_ st ++ [(k, weight r)]).
Proof.
  unfold enterRegion. destruct (getRegion st k) as [r|] eqn:Hr; [|done]. simpl.
  set (st1 := if decide (length (motions r) = 1%nat) then _ else st).
  assert (st1 = set_availDist_ st (availDist_ st1) ∧
          (availDist_ st1 = availDist_ st ∨
           ∃ r0, Some r = Some r0 ∧ length (motions r0) = 1%nat ∧
                 availDist_ st1 = availDist_ st ++ [(k, weight r0)])) as [Hst1 Hav].
  { subst st1. case_decide.
    - split; [done|]. right. by exists r.
    - split; [by destruct st|]. by left. }
  clearbody st1.
  destruct (regionsToEdge_ st1 !! (region, k)) as [adj|].
  - intros Hup%updateConnectionEstimate_inv. rewrite Hup.
    change (availDist_ (set_regionsToEdge_ _ _)) with (availDist_ st1).
    change (regionsToEdge_ (set_regionsToEdge_ _ ?e)) with e.
    split; [|done]. by rewrite <- Hst1.
  - intros [= <- <-]. split; [|done]. rewrite <- Hst1. by destruct st1.
Qed.

Lemma enterRegion_defined (region k : Z) (s : State) st :
  well_formed st → is_Some (getRegion st k) →
  is_Some (enterRegion region k s st).
Proof.
  intros Hwf [r Hr]. unfold enterRegion. rewrite Hr. simpl.
  set (st1 := if decide (length (motions r) = 1%nat) then _ else st).
  assert (well_formed st1) as Hwf1.
  { subst st1. case_decide; [|done]. by apply (well_formed_ext st). }
  destruct (regionsToEdge_ st1 !! (region, k)) as [adj|] eqn:Hadj; [|by eexists].
  set (adj1 := set_adj_numSelections _ _).
  apply updateConnectionEstimate_defined.
  - by apply (well_formed_set_edge st1 (region, k) adj1 adj).
  - simpl. rewrite lookup_insert_eq. by eexists.
Qed.

(** ** Handling a new motion *)

Lemma processMotion_goal (region : Z) m st pr (improved : bool) :
  (isSatisfied (state m)).1 = true →
  processMotion region m st pr improved =
    Some (st,
          {| solution := Some m; goalDist := (isSatisfied (state m)).2;
             solved := true |},
          improved).
Proof.
  intros Hsat. unfold processMotion.
  destruct (isSatisfied (state m)) as [sat distance]. simpl in Hsat. by subst sat.
Qed.

Lemma processMotion_inv (region : Z) m st pr (improved : bool) st' pr' improved' :
  (isSatisfied (state m)).1 = false →
  processMotion region m st pr improved = Some (st', pr', improved') →
  solved pr' = false ∧
  ∃ (b : bool) st1,
    fileMotion (locateRegion (state m)) m (state m) st = Some (b, st1) ∧
    (st' = st1 ∨
     locateRegion (state m) ≠ region ∧
     ∃ b' : bool,
       enterRegion region (locateRegion (state m)) (state m) st1 = Some (b', st')).
Proof.
  intros Hsat. unfold processMotion.
  destruct (isSatisfied (state m)) as [sat distance]. simpl in Hsat. subst sat.
  destruct (fileMotion _ _ _ _) as [[b st1]|]; [|done]. simpl.
  case_decide as Hne.
  - destruct (enterRegion _ _ _ _) as [[b' st2]|] eqn:Henter; [|done]. simpl.
    intros [= <- <- <-]. split; [by destruct (d_lt _ _)|].
    exists b, st1. split; [done|]. right. split; [done|]. by exists b'.
  - intros [= <- <- <-]. split; [by destruct (d_lt _ _)|].
    exists b, st1. split; [done|]. by left.
Qed.

Lemma fileMotion_well_formed (k : Z) m (s : State) st (b : bool) st' :
  well_formed st → fileMotion k m s st = Some (b, st') → well_formed st'.
Proof.
  intros Hwf (r & r' & Hr & Hr' & Hm & Hi & ->)%fileMotion_inv.
  by apply (well_formed_ext (setRegion st k r')), (well_formed_setRegion st k r' r).
Qed.

Lemma updateEdge_well_formed st key st' :
  well_formed st → updateEdge st key = Some st' → well_formed st'.
Proof.
  intros Hwf (a & c & Ha & ->)%updateEdge_inv.
  by apply (well_formed_set_edge st key (set_cost a c) a).
Qed.

Lemma updateConnectionEstimate_well_formed st (c d : Z) (s : State) (b : bool) st' :
  well_formed st → updateConnectionEstimate st c d s = Some (b, st') →
  well_formed st'.
Proof.
  intros Hwf. unfold updateConnectionEstimate.
  destruct (getRegion st c) as [rc|]; [|done]. simpl.
  destruct (getRegion st d) as [rd|]; [|done]. simpl.
  destruct (regionsToEdge_ st !! (index rc, index rd)) as [adj|] eqn:Hadj; [|done].
  simpl. case_decide.
  - by intros [= <- <-].
  - destruct (updateEdge _ _) as [st1|] eqn:Hup; [|done]. simpl.
    intros [= <- <-]. eapply updateEdge_well_formed; [|done].
    by apply (well_formed_set_edge st _ _ adj).
Qed.

Lemma enterRegion_well_formed (region k : Z) (s : State) st (b : bool) st' :
  well_formed st → enterRegion region k s st = Some (b, st') → well_formed st'.
Proof.
  intros Hwf Henter. unfold enterRegion in Henter.
  destruct (getRegion st k) as [r|]; [|done]. simpl in Henter.
  set (st1 := if decide (length (motions r) = 1%nat) then _ else st) in Henter.
  assert (well_formed st1) as Hwf1.
  { subst st1. case_decide; [|done]. by apply (well_formed_ext st). }
  clearbody st1.
  destruct (regionsToEdge_ st1 !! (region, k)) as [adj|] eqn:Hadj.
  - eapply updateConnectionEstimate_well_formed; [|done].
    by apply (well_formed_set_edge st1 (region, k) _ adj).
  - by injection Henter as <- <-.
Qed.

Lemma processMotion_well_formed (region : Z) m st pr (improved : bool) st' pr'
    improved' :
  well_formed st →
  processMotion region m st pr improved = Some (st', pr', improved') →
  well_formed st' ∧ length (graph_regions st') = length (graph_regions st).
Proof.
  intros Hwf Hrun. destruct (isSatisfied (state m)).1 eqn:Hsat.
  - rewrite processMotion_goal in Hrun by done. by injection Hrun as <- <- <-.
  - apply processMotion_inv in Hrun as (_ & b & st1 & Hfile & Hrest); [|done].
    pose proof (fileMotion_well_formed _ _ _ _ _ _ Hwf Hfile) as Hwf1.
    apply fileMotion_appended in Hfile as (_ & _ & Hlen).
    destruct Hrest as [->|(_ & b' & Henter)]; [done|].
    split; [by eapply enterRegion_well_formed|].
    apply enterRegion_inv in Henter as [-> _]. done.
Qed.

Lemma processMotion_defined (region : Z) m st pr (improved : bool) :
  well_formed st → is_Some (getRegion st (locateRegion (state m))) →
  is_Some (processMotion region m st pr improved).
Proof.
  intros Hwf Hk. destruct (isSatisfied (state m)).1 eqn:Hsat.
  - rewrite processMotion_goal by done. by eexists.
  - unfold processMotion.
    destruct (isSatisfied (state m)) as [sat distance]. simpl in Hsat. subst sat.
    destruct (fileMotion_defined (locateRegion (state m)) m (state m) st Hk)
      as [[b st1] Hfile].
    rewrite Hfile. simpl. case_decide; [|by eexists].
    destruct (enterRegion_defined region (locateRegion (state m)) (state m) st1)
      as [[b' st2] Henter].
    + by eapply fileMotion_well_formed.
    + apply fileMotion_inv in Hfile as (r & r' & _ & Hr' & _). by eexists.
    + rewrite Henter. by eexists.
Qed.

Lemma getRegion_is_Some_length st st' (k : Z) :
  length (graph_regions st') = length (graph_regions st) →
  is_Some (getRegion st k) → is_Some (getRegion st' k).
Proof.
  intros Hlen [r Hr%vec_get_range]. apply vec_get_is_Some. by rewrite Hlen.
Qed.

(** A motion that does not satisfy the goal is filed under the region of
    its state, and under no other. *)
Lemma processMotion_files (region : Z) m st pr (improved : bool) st' pr' improved' :
  (isSatisfied (state m)).1 = false →
  processMotion region m st pr improved = Some (st', pr', improved') →
  appended_to st st' (locateRegion (state m)) m ∧
  (∀ k r, getRegion st k = Some r →
          ∃ r', getRegion st' k = Some r' ∧
                motions r' =
                  motions r ++
                  (if decide (locateRegion (state m) = k) then [m] else [])) ∧
  ptc_polls st' = ptc_polls st ∧
  solved pr' = false.
Proof.
  intros Hsat Hrun.
  apply processMotion_inv in Hrun as (Hsolved & b & st1 & Hfile & Hrest); [|done].
  assert (graph_regions st' = graph_regions st1 ∧ ptc_polls st' = ptc_polls st1)
    as [Hregions Hpolls].
  { destruct Hrest as [->|(_ & b' & [-> _]%enterRegion_inv)]; done. }
  assert (∀ j, getRegion st' j = getRegion st1 j) as Hsame
    by (intros j; unfold getRegion; by rewrite Hregions).
  pose proof (fileMotion_appended _ _ _ _ _ _ Hfile) as ([Hk Hother] & Hne & _).
  split; [|split; [|split]].
  - split.
    + destruct Hk as (r & r' & Hr & Hr' & Hm). exists r, r'. by rewrite Hsame.
    + intros j Hj. by rewrite Hsame, Hother.
  - intros k r Hr. case_decide as Hloc.
    + subst k. destruct Hk as (r0 & r' & Hr0 & Hr' & Hm).
      rewrite Hr in Hr0. injection Hr0 as <-. exists r'. by rewrite Hsame.
    + exists r. rewrite Hsame, Hne by done. by rewrite app_nil_r.
  - rewrite Hpolls. by apply fileMotion_inv in Hfile as (r & r' & _ & _ & _ & _ & ->).
  - done.
Qed.

(** The loop over [newMotions]: the first [n] motions are filed, each under
    the region of its state.  The termination condition is polled before
    each motion and did not hold before these [n]; the loop stops at motion
    [n] because the condition holds there or, when it does not, because the
    motion satisfies the goal, and neither that motion nor a later one is
    filed. *)
Lemma processNewMotions_files (region : Z) (ms : list Motion) st pr
    (improved : bool) :
  well_formed st →
  (∀ m, m ∈ ms → is_Some (getRegion st (locateRegion (state m)))) →
  ∃ st' pr' (improved' : bool) (n : nat),
    processNewMotions region ms st pr improved = Some (st', pr', improved') ∧
    (n ≤ length ms)%nat ∧
    (∀ j, (j < n)%nat → ptc (ptc_polls st + j)%nat = false) ∧
    (∀ m, m ∈ take n ms → (isSatisfied (state m)).1 = false) ∧
    (∀ k r, getRegion st k = Some r →
            ∃ r', getRegion st' k = Some r' ∧
                  motions r' =
                    motions r ++
                    filter (λ m, locateRegion (state m) = k) (take n ms)) ∧
    (∀ m, ms !! n = Some m →
          ptc_polls st' = S (ptc_polls st + n) ∧
          (ptc (ptc_polls st + n)%nat = true ∨
           (ptc (ptc_polls st + n)%nat = false ∧
            (isSatisfied (state m)).1 = true ∧ solved pr' = true ∧
            solution pr' = Some m))) ∧
    (n = length ms → ptc_polls st' = (ptc_polls st + n)%nat).
Proof.
  revert st pr improved.
  induction ms as [|m rest IH]; intros st pr improved Hwf Hloc.
  - exists st, pr, improved, 0%nat. simpl. repeat split; try done; try lia.
    + intros m Hm. by apply elem_of_nil in Hm.
    + intros k r Hr. exists r. by rewrite app_nil_r.
  - simpl. destruct (ptc (ptc_polls st)) eqn:Hptc.
    { exists (set_ptc_polls st (S (ptc_polls st))), pr, improved, 0%nat.
      simpl. rewrite Nat.add_0_r.
      split; [done|]. split; [lia|]. split; [lia|].
      split; [intros m' Hm'; by apply elem_of_nil in Hm'|].
      split; [intros k r Hr; exists r; by rewrite app_nil_r|].
      split; [|done]. intros m' _. split; [done|]. by left. }
    set (st1 := set_ptc_polls st (S (ptc_polls st))).
    assert (well_formed st1) as Hwf1 by done.
    destruct (isSatisfied (state m)).1 eqn:Hsat.
    { rewrite processMotion_goal by done. simpl.
      eexists st1, _, improved, 0%nat. simpl. rewrite Nat.add_0_r.
      split; [done|]. split; [lia|]. split; [lia|].
      split; [intros m' Hm'; by apply elem_of_nil in Hm'|].
      split; [intros k r Hr; exists r; by rewrite app_nil_r|].
      split; [|done]. intros m' [= <-]. split; [done|]. by right. }
    destruct (processMotion_defined region m st1 pr improved Hwf1)
      as [[[st2 pr1] improved1] Hrun].
    { apply (Hloc m). by left. }
    rewrite Hrun. simpl.
    pose proof (processMotion_well_formed _ _ _ _ _ _ _ _ Hwf1 Hrun) as [Hwf2 Hlen].
    pose proof (processMotion_files _ _ _ _ _ _ _ _ Hsat Hrun)
      as (_ & Hfiles & Hpolls & Hsolved).
    rewrite Hsolved.
    destruct (IH st2 pr1 improved1 Hwf2)
      as (st' & pr' & improved' & n & Hloop & Hn & Hpolled & Hnot & Hlists &
          Hstop & Hend).
    { intros m' Hm'. apply (getRegion_is_Some_length st1); [done|].
      apply (Hloc m'). by right. }
    rewrite Hpolls in Hpolled, Hstop, Hend. simpl in Hpolled, Hstop, Hend.
    exists st', pr', improved', (S n). simpl. split; [done|]. split; [lia|].
    split; [|split; [|split; [|split]]].
    + intros [|j] Hj; [by rewrite Nat.add_0_r|].
      replace (ptc_polls st + S j)%nat with (S (ptc_polls st + j)) by lia.
      apply Hpolled. lia.
    + intros m' [->|Hm']%elem_of_cons; [done|]. by apply Hnot.
    + intros k r Hr. destruct (Hfiles k r Hr) as (r1 & Hr1 & Hm1).
      destruct (Hlists k r1 Hr1) as (r' & Hr' & Hm').
      exists r'. split; [done|]. rewrite Hm', Hm1, <- app_assoc. f_equal.
      rewrite filter_cons. by case_decide.
    + intros m' Hm'.
      replace (ptc_polls st + S n)%nat with (S (ptc_polls st + n)) by lia.
      by apply Hstop.
    + intros Hall. rewrite Hend by lia. lia.
Qed.

Lemma addStart_files st (s : State) :
  is_Some (getRegion st (locateRegion s)) →
  ∃ st', addStart st s = Some st' ∧
         appended_to st st' (locateRegion s) (addRoot s).
Proof.
  intros Hk. unfold addStart.
  set (st1 := set_startRegions_ st _).
  destruct (fileMotion_defined (locateRegion s) (addRoot s) s st1 Hk)
    as [[b st2] Hfile].
  rewrite Hfile. simpl. exists st2. split; [done|].
  by apply fileMotion_appended in Hfile as [Happ _].
Qed.

(** C1, as the code has it.  A start state gets a root motion that is
    appended to the list of the region of the state, and to no other list.
    Of the motions a call of [selectAndExtend] returns, the loop of [solve]
    handles a prefix: before each of these [n] motions the termination
    condition was polled and did not hold, the motion does not satisfy the
    goal, and it is appended to the list of the region of its state, and to
    no other list.  The motion at which the loop stops is appended to no
    list: the termination condition held when it was polled for this
    motion, or it did not and the motion satisfies the goal and is recorded
    as the solution.  The condition is polled once for every motion up to
    that one, and never after the last motion. *)
Theorem motions_filed_once st :
  well_formed st →
  (∀ s : State,
     is_Some (getRegion st (locateRegion s)) →
     ∃ st', addStart st s = Some st' ∧
            appended_to st st' (locateRegion s) (addRoot s)) ∧
  (∀ (region : Z) (ms : list Motion) pr (improved : bool),
     (∀ m, m ∈ ms → is_Some (getRegion st (locateRegion (state m)))) →
     ∃ st' pr' (improved' : bool) (n : nat),
       processNewMotions region ms st pr improved = Some (st', pr', improved') ∧
       (n ≤ length ms)%nat ∧
       (∀ j, (j < n)%nat → ptc (ptc_polls st + j)%nat = false) ∧
       (∀ m, m ∈ take n ms → (isSatisfied (state m)).1 = false) ∧
       (∀ k r, getRegion st k = Some r →
               ∃ r', getRegion st' k = Some r' ∧
                     motions r' =
                       motions r ++
                       filter (λ m, locateRegion (state m) = k) (take n ms)) ∧
       (∀ m, ms !! n = Some m →
             ptc_polls st' = S (ptc_polls st + n) ∧
             (ptc (ptc_polls st + n)%nat = true ∨
              (ptc (ptc_polls st + n)%nat = false ∧
               (isSatisfied (state m)).1 = true ∧ solved pr' = true ∧
               solution pr' = Some m))) ∧
       (n = length ms → ptc_polls st' = (ptc_polls st + n)%nat)).
Proof.
  intros Hwf. split.
  - intros s. apply addStart_files.
  - intros region ms pr improved. by apply processNewMotions_files.
Qed.

(** ** The keys of the availability distribution *)

Lemma availableLoop_inv (n : nat) st st' :
  availableLoop n st = Some st' →
  graph_regions st' = graph_regions st ∧ lead_ st' = lead_ st ∧
  ∀ k w, (k, w) ∈ availDist_ st' →
         (k, w) ∈ availDist_ st ∨
         (k ∈ lead_ st ∧ ∃ r, getRegion st k = Some r ∧ motions r ≠ []).
Proof.
  revert st. induction n as [|i IH]; intros st; simpl.
  - intros [= <-]. split; [done|]. split; [done|]. intros k w Hk. by left.
  - destruct (lead_ st !! i) as [k|] eqn:Hk; [|done]. simpl.
    destruct (getRegion st k) as [r|] eqn:Hr; [|done]. simpl.
    destruct (motions r) as [|m0 ms] eqn:Hm; [apply IH|].
    assert (∀ k' w', (k', w') ∈ availDist_ st ++ [(k, weight r)] →
              (k', w') ∈ availDist_ st ∨
              (k' ∈ lead_ st ∧ ∃ r', getRegion st k' = Some r' ∧ motions r' ≠ []))
      as Hadd.
    { intros k' w' [Hin|Hin]%elem_of_app; [by left|].
      apply list_elem_of_singleton in Hin as [= -> ->]. right.
      split; [by eapply list_elem_of_lookup_2|]. exists r. by rewrite Hm. }
    destruct (d_ge _ _).
    + intros [= <-]. done.
    + intros (Hregions & Hlead & Hkeys)%IH. split; [done|]. split; [done|].
      intros k' w' Hin. destruct (Hkeys k' w' Hin) as [Hold|Hnew]; [|by right].
      by apply Hadd.
Qed.

(** Right after [computeAvailableRegions] every key of [availDist_] is a
    region of the lead that holds a motion. *)
Lemma computeAvailableRegions_keys st st' :
  computeAvailableRegions st = Some st' →
  available_have_motions st' ∧ available_on_lead st'.
Proof.
  unfold computeAvailableRegions.
  intros (Hregions & Hlead & Hkeys)%availableLoop_inv.
  split; intros k w Hin; destruct (Hkeys k w Hin) as [Hold|[Hk Hr]].
  - by apply elem_of_nil in Hold.
  - unfold getRegion. rewrite Hregions. done.
  - by apply elem_of_nil in Hold.
  - by rewrite Hlead.
Qed.

Lemma selectRegion_keeps_keys st (k : Z) st' :
  selectRegion st = Some (k, st') →
  available_have_motions st → available_have_motions st'.
Proof.
  intros (_ & Hav & _ & Hother & (r & Hr & Hr') & _)%selectRegion_inv Hinv j w Hin.
  rewrite Hav in Hin. destruct (Hinv j w Hin) as (rj & Hrj & Hm).
  destruct (decide (j = k)) as [->|Hne].
  - rewrite Hr in Hrj. injection Hrj as <-. eexists. split; [done|]. done.
  - exists rj. by rewrite Hother.
Qed.

Lemma fileMotion_keeps_keys (k : Z) m (s : State) st (b : bool) st' :
  fileMotion k m s st = Some (b, st') →
  available_have_motions st → available_have_motions st'.
Proof.
  intros Hfile Hinv j w Hin.
  pose proof (fileMotion_appended _ _ _ _ _ _ Hfile)
    as ([(r & r' & Hr & Hr' & Hm) _] & Hother & _).
  apply fileMotion_inv in Hfile as (r0 & r0' & _ & _ & _ & _ & Hst').
  rewrite Hst' in Hin. simpl in Hin.
  destruct (Hinv j w Hin) as (rj & Hrj & Hmj).
  destruct (decide (j = k)) as [->|Hne].
  - exists r'. split; [done|]. rewrite Hm. by destruct (motions r).
  - exists rj. by rewrite Hother.
Qed.

Lemma enterRegion_keeps_keys (region k : Z) (s : State) st (b : bool) st' :
  enterRegion region k s st = Some (b, st') →
  available_have_motions st → available_have_motions st'.
Proof.
  intros [Hst' Hav]%enterRegion_inv Hinv j w Hin.
  assert (getRegion st' j = getRegion st j) as ->
    by (by rewrite Hst').
  destruct Hav as [Hav|(r & Hr & Hlen & Hav)]; rewrite Hav in Hin.
  - by apply (Hinv j w).
  - apply elem_of_app in Hin as [Hin|Hin]; [by apply (Hinv j w)|].
    apply list_elem_of_singleton in Hin as [= -> ->].
    exists r. split; [done|]. by destruct (motions r).
Qed.

Lemma processMotion_keeps_keys (region : Z) m st pr (improved : bool) st' pr'
    improved' :
  processMotion region m st pr improved = Some (st', pr', improved') →
  available_have_motions st → available_have_motions st'.
Proof.
  intros Hrun Hinv. destruct (isSatisfied (state m)).1 eqn:Hsat.
  - rewrite processMotion_goal in Hrun by done. by injection Hrun as <- _ _.
  - apply processMotion_inv in Hrun as (_ & b & st1 & Hfile & Hrest); [|done].
    pose proof (fileMotion_keeps_keys _ _ _ _ _ _ Hfile Hinv) as Hinv1.
    destruct Hrest as [->|(_ & b' & Henter)]; [done|].
    by eapply enterRegion_keeps_keys.
Qed.

Lemma expansion_step_keeps_keys st st' :
  expansion_step st st' →
  available_have_motions st → available_have_motions st'.
Proof.
  intros [st0|st0 k st1 Hsel|region m st0 pr improved st1 pr' improved' Hrun|st0].
  - done.
  - by eapply selectRegion_keeps_keys.
  - by eapply processMotion_keeps_keys.
  - done.
Qed.

(** The loops of [solve] below [computeAvailableRegions] are made of
    expansion steps. *)
Lemma processNewMotions_steps (region : Z) (ms : list Motion) st pr
    (improved : bool) st' pr' improved' :
  processNewMotions region ms st pr improved = Some (st', pr', improved') →
  rtc expansion_step st st'.
Proof.
  revert st pr improved. induction ms as [|m rest IH]; intros st pr improved; simpl.
  - by intros [= <- <- <-].
  - destruct (ptc (ptc_polls st)).
    + intros [= <- <- <-]. apply rtc_once, (step_poll st).
    + destruct (processMotion _ _ _ _ _) as [[[st2 pr1] improved1]|] eqn:Hrun;
        [|done].
      simpl. intros Hrest.
      eapply rtc_l; [apply (step_poll st)|].
      eapply rtc_l; [by eapply step_motion|].
      destruct (solved pr1); [by injection Hrest as <- <- <-|by eapply IH].
Qed.

Lemma treeSelections_steps (n : nat) (region : Z) st pr (improved : bool) st' pr'
    improved' :
  treeSelections n region st pr improved = Some (st', pr', improved') →
  rtc expansion_step st st'.
Proof.
  revert st pr improved. induction n as [|n IH]; intros st pr improved; simpl.
  - by intros [= <- <- <-].
  - destruct (solved pr); [by intros [= <- <- <-]|].
    destruct (ptc (ptc_polls st)).
    + intros [= <- <- <-]. apply rtc_once, (step_poll st).
    + destruct (processNewMotions _ _ _ _ _) as [[[st2 pr1] improved1]|] eqn:Hrun;
        [|done].
      simpl. intros Hrest.
      eapply rtc_l; [apply (step_poll st)|].
      etrans; [by eapply processNewMotions_steps|by eapply IH].
Qed.

Lemma regionExpansions_steps (n : nat) st pr st' pr' :
  regionExpansions n st pr = Some (st', pr') → rtc expansion_step st st'.
Proof.
  revert st pr. induction n as [|n IH]; intros st pr; simpl.
  - by intros [= <- <-].
  - destruct (solved pr); [by intros [= <- <-]|].
    destruct (ptc (ptc_polls st)).
    + intros [= <- <-]. apply rtc_once, (step_poll st).
    + destruct (selectRegion _) as [[region st2]|] eqn:Hsel; [|done]. simpl.
      destruct (treeSelections _ _ _ _ _) as [[[st3 pr1] improved]|] eqn:Hrun;
        [|done].
      simpl. intros Hrest.
      eapply rtc_l; [apply (step_poll st)|].
      eapply rtc_l; [by eapply step_select|].
      etrans; [by eapply treeSelections_steps|].
      destruct improved; [by eapply IH|].
      eapply rtc_l; [apply (step_draw st3)|].
      destruct (d_lt _ _); [by injection Hrest as <- <-|by eapply IH].
Qed.

(** C2, as the code has it.  From [computeAvailableRegions] on and after
    every step of the region-expansion loop, every key of [availDist_] is a
    region whose list of motions is not empty.  (A key need not occur in the
    lead: a region the tree enters for the first time is added whether the
    lead holds it or not.) *)
Theorem available_keys_have_motions st0 st1 st :
  computeAvailableRegions st0 = Some st1 →
  rtc expansion_step st1 st →
  available_have_motions st.
Proof.
  intros [Hinv _]%computeAvailableRegions_keys Hsteps.
  induction Hsteps as [|st1 st2 st Hstep _ IH]; [done|].
  apply IH. by eapply expansion_step_keeps_keys.
Qed.

(** ** Region estimates *)

Lemma vec_incr_Some (v : list Z) (i x : Z) :
  vec_get v i = Some x → vec_incr v i = Some (vec_set v i (x + 1)).
Proof. intros Hx. unfold vec_incr. by rewrite Hx. Qed.

Lemma totalIn_cons (i : Z) (s : State) (l : list State) :
  totalIn i (s :: l) =
    (if decide (locateRegion s = i) then 1 else 0) + totalIn i l.
Proof.
  unfold totalIn, samplesIn. rewrite filter_cons.
  case_decide; simpl; lia.
Qed.

Lemma validIn_cons (i : Z) (s : State) (l : list State) :
  validIn i (s :: l) =
    (if decide (locateRegion s = i) then if isValid s then 1 else 0 else 0) +
    validIn i l.
Proof.
  unfold validIn, samplesIn. rewrite filter_cons. case_decide; [|lia].
  rewrite filter_cons. destruct (isValid s); case_decide; simpl; try done; lia.
Qed.

(** The sampling loop counts, for every region, the samples that lie in it
    and the valid ones among them. *)
Lemma foldM_countSample (l : list nat) (numTotal numValid : list Z) :
  length numValid = length numTotal →
  (∀ j, j ∈ l →
        0 ≤ locateRegion (sampleUniform j) < Z.of_nat (length numTotal)) →
  ∃ numTotal' numValid',
    foldM countSample (numTotal, numValid) l = Some (numTotal', numValid') ∧
    length numTotal' = length numTotal ∧
    length numValid' = length numValid ∧
    ∀ i t v, vec_get numTotal i = Some t → vec_get numValid i = Some v →
             vec_get numTotal' i = Some (t + totalIn i (sampleUniform <$> l)) ∧
             vec_get numValid' i = Some (v + validIn i (sampleUniform <$> l)).
Proof.
  revert numTotal numValid.
  induction l as [|j l IH]; intros numTotal numValid Hlen Hloc.
  - exists numTotal, numValid. simpl. repeat split; try done.
    + unfold totalIn. simpl. by rewrite Z.add_0_r.
    + unfold validIn. simpl. by rewrite Z.add_0_r.
  - set (s := sampleUniform j). set (rid := locateRegion s).
    assert (0 ≤ rid < Z.of_nat (length numTotal)) as Hrid
      by (apply Hloc; by left).
    destruct (vec_get_is_Some numTotal rid Hrid) as [t0 Ht0].
    destruct (vec_get_is_Some numValid rid ltac:(lia)) as [v0 Hv0].
    set (numTotal1 := vec_set numTotal rid (t0 + 1)).
    set (numValid1 := if isValid s then vec_set numValid rid (v0 + 1) else numValid).
    assert (length numValid1 = length numValid) as Hlen1.
    { subst numValid1. destruct (isValid s); [apply vec_set_length|done]. }
    assert (countSample (numTotal, numValid) j = Some (numTotal1, numValid1))
      as Hstep.
    { unfold countSample. fold s. fold rid. simpl. subst numValid1.
      destruct (isValid s).
      - rewrite (vec_incr_Some _ _ _ Hv0). simpl.
        by rewrite (vec_incr_Some _ _ _ Ht0).
      - simpl. by rewrite (vec_incr_Some _ _ _ Ht0). }
    destruct (IH numTotal1 numValid1) as (numTotal' & numValid' & Hrun & Hl1 & Hl2 & Hcounts).
    { rewrite Hlen1. subst numTotal1. by rewrite vec_set_length. }
    { intros j' Hj'. subst numTotal1. rewrite vec_set_length. apply Hloc. by right. }
    exists numTotal', numValid'. simpl. rewrite Hstep. simpl.
    split; [done|]. split; [by rewrite Hl1; apply vec_set_length|].
    split; [by rewrite Hl2|].
    intros i t v Ht Hv. fold s. rewrite totalIn_cons, validIn_cons. fold rid.
    assert (vec_get numTotal1 i =
              Some (t + if decide (rid = i) then 1 else 0)) as Ht1.
    { subst numTotal1. rewrite (vec_get_set _ _ _ _ _ Ht0). case_decide.
      - subst i. rewrite Ht0 in Ht. injection Ht as <-. done.
      - by rewrite Z.add_0_r. }
    assert (vec_get numValid1 i =
              Some (v + if decide (rid = i)
                        then if isValid s then 1 else 0 else 0)) as Hv1.
    { subst numValid1. destruct (isValid s).
      - rewrite (vec_get_set _ _ _ _ _ Hv0). case_decide.
        + subst i. rewrite Hv0 in Hv. injection Hv as <-. done.
        + by rewrite Z.add_0_r.
      - rewrite Hv. f_equal. case_decide; lia. }
    destruct (Hcounts i _ _ Ht1 Hv1) as [-> ->]. split; by rewrite Z.add_assoc.
Qed.

(** The region loop estimates every region of [ks] once, from the region as
    it was, and touches no other. *)
Lemma foldM_estimateRegion (numTotal numValid : list Z) (ks : list Z) st :
  NoDup ks →
  (∀ i, i ∈ ks → ∃ r, getRegion st i = Some r ∧
                      is_Some (regionEstimate numTotal numValid i r)) →
  ∃ st', foldM (estimateRegion numTotal numValid) st ks = Some st' ∧
         st' = set_graph_regions st (graph_regions st') ∧
         ∀ i r, getRegion st i = Some r →
                getRegion st' i =
                  if decide (i ∈ ks) then regionEstimate numTotal numValid i r
                  else Some r.
Proof.
  revert st. induction ks as [|i ks IH]; intros st Hnodup Hdef.
  - exists st. simpl. split; [done|]. split; [by destruct st|].
    by intros i r Hr.
  - apply NoDup_cons in Hnodup as [Hi Hnodup].
    destruct (Hdef i) as (r & Hr & [r' Hr']); [by left|].
    set (st1 := setRegion st i r').
    assert (∀ j, getRegion st1 j = if decide (i = j) then Some r' else getRegion st j)
      as Hst1 by (intros j; by apply (getRegion_setRegion st i j r' r)).
    destruct (IH st1 Hnodup) as (st' & Hrun & Hframe & Hregions).
    { intros j Hj. destruct (Hdef j) as (rj & Hrj & Hej); [by right|].
      exists rj. split; [|done]. rewrite Hst1, decide_False; [done|].
      intros ->. done. }
    assert (estimateRegion numTotal numValid st i = Some st1) as Hstep.
    { unfold estimateRegion. rewrite Hr. simpl. by rewrite Hr'. }
    exists st'. simpl. rewrite Hstep. simpl.
    split; [done|]. split; [by rewrite Hframe|].
    intros j rj Hrj. destruct (decide (i = j)) as [<-|Hne].
    + rewrite Hr in Hrj. injection Hrj as <-.
      rewrite (Hregions i r'), decide_False by (by rewrite ?Hst1, ?decide_True).
      rewrite decide_True by (by left). done.
    + rewrite (Hregions j rj) by (by rewrite Hst1, decide_False).
      destruct (decide (j ∈ ks)) as [Hin|Hnin].
      * rewrite decide_True by (by right). done.
      * rewrite decide_False; [done|]. intros [->|Hin]%elem_of_cons; done.
Qed.

Lemma regionEstimate_spec (numTotal numValid : list Z) (i : Z) r (total valid : Z) :
  vec_get numTotal i = Some total →
  vec_get numValid i = Some valid →
  let share :=
    if decide (total = 0) then d_one else d_div (d_of_Z valid) (d_of_Z total) in
  regionEstimate numTotal numValid i r =
    Some (updateRegion
            (set_freeVolume
               (set_percentValidCells (set_volume r (getRegionVolume i)) share)
               (at_least_epsilon (d_mul share (getRegionVolume i))))).
Proof.
  intros Ht Hv share. unfold regionEstimate. rewrite Ht. simpl.
  subst share. unfold at_least_epsilon. case_decide; simpl.
  - by destruct (d_lt _ _).
  - rewrite Hv. simpl. by destruct (d_lt _ _).
Qed.

(** [setupRegionEstimates], whatever the arithmetic of [double] is. *)
Lemma setupRegionEstimates_regions st :
  getNumRegions = Z.of_nat (length (graph_regions st)) →
  (∀ s, s ∈ freeVolSamples st → 0 ≤ locateRegion s < getNumRegions) →
  ∃ st',
    setupRegionEstimates st = Some st' ∧
    st' = set_graph_regions st (graph_regions st') ∧
    ∀ i r, getRegion st i = Some r →
      let share := validShare i (freeVolSamples st) in
      getRegion st' i =
        Some (updateRegion
                (set_freeVolume
                   (set_percentValidCells (set_volume r (getRegionVolume i)) share)
                   (at_least_epsilon (d_mul share (getRegionVolume i))))).
Proof.
  intros Hnum Hloc. unfold setupRegionEstimates, sampleCounts.
  set (n := Z.to_nat (numFreeVolSamples_ (config st))).
  set (zeros := replicate (Z.to_nat getNumRegions) 0).
  assert (length zeros = length (graph_regions st)) as Hzeros.
  { subst zeros. rewrite length_replicate. lia. }
  destruct (foldM_countSample (seq 0 n) zeros zeros eq_refl)
    as (numTotal & numValid & Hcount & Hl1 & Hl2 & Hcounts).
  { intros j Hj. rewrite Hzeros, <- Hnum. apply Hloc.
    unfold freeVolSamples. fold n. by apply list_elem_of_fmap_2. }
  rewrite Hcount. simpl.
  assert (∀ i, 0 ≤ i < getNumRegions →
            vec_get numTotal i = Some (totalIn i (freeVolSamples st)) ∧
            vec_get numValid i = Some (validIn i (freeVolSamples st))) as Hvec.
  { intros i Hi.
    assert (vec_get zeros i = Some 0) as Hz.
    { unfold vec_get. rewrite decide_True by lia. subst zeros.
      apply lookup_replicate_2. lia. }
    destruct (Hcounts i 0 0 Hz Hz) as [Ht Hv]. by rewrite Z.add_0_l in Ht, Hv. }
  destruct (foldM_estimateRegion numTotal numValid (seqZ 0 getNumRegions) st)
    as (st' & Hrun & Hframe & Hregions).
  { apply NoDup_seqZ. }
  { intros i Hi%elem_of_seqZ.
    destruct (vec_get_is_Some (graph_regions st) i ltac:(lia)) as [r Hr].
    exists r. split; [done|]. destruct (Hvec i ltac:(lia)) as [Ht Hv].
    rewrite (regionEstimate_spec _ _ _ _ _ _ Ht Hv). by eexists. }
  exists st'. split; [done|]. split; [done|].
  intros i r Hr. cbv zeta. pose proof (getRegion_range _ _ _ Hr) as Hi.
  rewrite (Hregions i r Hr), decide_True by (apply elem_of_seqZ; lia).
  destruct (Hvec i ltac:(lia)) as [Ht Hv].
  by rewrite (regionEstimate_spec _ _ _ _ _ _ Ht Hv).
Qed.

(** The selection count is also written by [initRegion], which resets it on
    a vertex [buildGraph] has just added and computes neither [alpha] nor
    [weight]: these are computed by [setupRegionEstimates], which [solve]
    runs before it reads them, from the counts as they are then. *)
Lemma initRegion_fields r :
  numSelections (initRegion r) = 0 ∧
  covGridCells (initRegion r) = covGridCells r ∧
  alpha (initRegion r) = alpha r ∧ weight (initRegion r) = weight r.
Proof. done. Qed.

Lemma setupRegionEstimates_derived st :
  getNumRegions = Z.of_nat (length (graph_regions st)) →
  (∀ s, s ∈ freeVolSamples st → 0 ≤ locateRegion s < getNumRegions) →
  ∃ st',
    setupRegionEstimates st = Some st' ∧
    ∀ i r, getRegion st i = Some r → counts_in_range r →
      ∃ r', getRegion st' i = Some r' ∧ derived r' ∧
            numSelections r' = numSelections r ∧
            covGridCells r' = covGridCells r.
Proof.
  intros Hnum Hloc.
  destruct (setupRegionEstimates_regions st Hnum Hloc)
    as (st' & Hrun & _ & Hregions).
  exists st'. split; [done|]. intros i r Hr Hrange.
  eexists. split; [exact (Hregions i r Hr)|].
  split; [by apply updateRegion_derived|done].
Qed.

(** ** The lead after a failed search *)

(** The final loop of [computeLead] changes edges only, and only edges
    stored under two consecutive regions of the lead. *)
Lemma updateLeadEdges_inv (fuel : nat) (i : Z) st st' :
  updateLeadEdges fuel i st = Some st' →
  st' = set_regionsToEdge_ st (regionsToEdge_ st') ∧
  ∀ key : Z * Z,
    regionsToEdge_ st' !! key ≠ regionsToEdge_ st !! key →
    ∃ j, i ≤ j ∧ vec_get (lead_ st) j = Some key.1 ∧
         vec_get (lead_ st) (j + 1) = Some key.2.
Proof.
  revert i st. induction fuel as [|fuel IH]; intros i st; simpl.
  - case_decide; [done|]. intros [= <-]. split; [by destruct st|done].
  - case_decide; [|intros [= <-]; split; [by destruct st|done]].
    destruct (vec_get (lead_ st) i) as [u|] eqn:Hu; [|done]. simpl.
    destruct (vec_get (lead_ st) (i + 1)) as [v|] eqn:Hv; [|done]. simpl.
    destruct (regionsToEdge_ st !! (u, v)) as [adj|] eqn:Hadj; [|done]. simpl.
    set (next := if adj_empty adj then _ else Some st).
    destruct next as [st1|] eqn:Hst1; [|done]. simpl.
    assert (st1 = set_regionsToEdge_ st (regionsToEdge_ st1) ∧
            ∀ key, key ≠ (u, v) →
                   regionsToEdge_ st1 !! key = regionsToEdge_ st !! key)
      as [Hframe1 Hother].
    { destruct (adj_empty adj).
      - apply updateEdge_inv in Hst1 as (a0 & c & _ & ->). split; [done|].
        intros key Hkey. simpl. by rewrite !lookup_insert_ne.
      - injection Hst1 as <-. split; [by destruct st|done]. }
    intros (Hframe & Hkeys)%IH. split.
    + rewrite Hframe, Hframe1. done.
    + intros key Hkey. destruct (decide (key = (u, v))) as [->|Hne].
      * exists i. split; [lia|]. done.
      * destruct (Hkeys key) as (j & Hj & Hj1 & Hj2).
        { by rewrite Hother. }
        exists j. split; [lia|]. by rewrite Hframe1 in Hj1, Hj2.
Qed.

(** With an empty lead the final loop of [computeLead] reads outside the
    vector: [lead_.size()-1] wraps around. *)
Lemma updateLeadEdges_empty_lead (fuel : nat) st :
  lead_ st = [] → updateLeadEdges fuel 0 st = None.
Proof. intros Hlead. destruct fuel; simpl; by rewrite Hlead. Qed.

(** C4, on the code.  When the start and the goal region differ, the
    shortest-path branch of [computeLead] is taken and the search returns
    without reaching the goal, the branch writes nothing: the lead, which
    [computeLead] cleared on entry, is empty when the branch is left, so the
    lead of the previous round is not in place.  The final loop then runs
    on the empty lead: its bound [lead_.size()-1] is [2^64 - 1], its first
    round reads [lead_[0]] outside the vector, and [computeLead] has no
    defined result. *)
Theorem failed_search_has_no_result st (startRegion goalRegion : Z) :
  startRegion ≠ goalRegion →
  d_lt (uniform01 (rng_ st)) (probShortestPath_ (config st)) = true →
  astar_search (set_rng_ (set_lead_ st []) (S (rng_ st))) startRegion goalRegion
    = None →
  ∃ st1,
    searchLead (set_lead_ st []) startRegion goalRegion = Some st1 ∧
    st1 = set_rng_ (set_lead_ st []) (S (rng_ st)) ∧
    lead_ st1 = [] ∧
    size_t (Z.of_nat (length (lead_ st1)) - 1) = 2 ^ 64 - 1 ∧
    vec_get (lead_ st1) 0 = None ∧
    computeLead st startRegion goalRegion = None.
Proof.
  intros Hne Hdraw Hastar.
  assert (searchLead (set_lead_ st []) startRegion goalRegion =
            Some (set_rng_ (set_lead_ st []) (S (rng_ st)))) as Hsearch.
  { unfold searchLead, rng_uniform01, shortestPathLead. simpl.
    simpl in Hdraw. rewrite Hdraw. by rewrite Hastar. }
  eexists. split; [exact Hsearch|]. split; [done|]. split; [done|].
  split; [done|]. split; [done|].
  unfold computeLead. rewrite decide_False by done. by rewrite Hsearch.
Qed.

(** ** [solve] without start or goal states *)

Lemma setupRegionEstimates_frame st st' :
  setupRegionEstimates st = Some st' →
  st' = set_graph_regions st (graph_regions st').
Proof.
  unfold setupRegionEstimates. destruct (sampleCounts st) as [counts|]; [|done].
  simpl. apply (foldM_invariant (λ st1, st1 = set_graph_regions st (graph_regions st1))).
  - by destruct st.
  - intros st1 i st2 Hst1. unfold estimateRegion.
    destruct (getRegion st1 i) as [r|]; [|done]. simpl.
    destruct (regionEstimate _ _ _ _) as [r'|]; [|done]. simpl.
    intros [= <-]. by rewrite Hst1.
Qed.

Lemma setupEdgeEstimates_frame st st' :
  setupEdgeEstimates st = Some st' →
  st' = set_regionsToEdge_ st (regionsToEdge_ st').
Proof.
  unfold setupEdgeEstimates.
  apply (foldM_invariant (λ st1, st1 = set_regionsToEdge_ st (regionsToEdge_ st1))).
  - by destruct st.
  - intros st1 e st2 Hst1. unfold resetEdge.
    destruct (edgeKey st1 e) as [key|]; [|done]. simpl.
    destruct (regionsToEdge_ st1 !! key) as [adj|]; [|done]. simpl.
    intros (a0 & c & _ & ->)%updateEdge_inv. by rewrite Hst1.
Qed.

(** Setting up the estimates writes regions, edges, the motion count and
    the flag [graphReady_], which is set afterwards. *)
Lemma setupEstimates_frame st st' :
  setupEstimates st = Some st' →
  graphReady_ st' = true ∧
  st' = set_graphReady_
          (set_numMotions_
             (set_regionsToEdge_ (set_graph_regions st (graph_regions st'))
                (regionsToEdge_ st'))
             (numMotions_ st'))
          true.
Proof.
  unfold setupEstimates. destruct (graphReady_ st) eqn:Hready.
  - intros [= <-]. split; [done|]. destruct st. simpl in *. by subst.
  - destruct (setupRegionEstimates _) as [st1|] eqn:Hregions; [|done]. simpl.
    destruct (setupEdgeEstimates st1) as [st2|] eqn:Hedges; [|done]. simpl.
    intros [= <-]. split; [done|].
    apply setupRegionEstimates_frame in Hregions.
    apply setupEdgeEstimates_frame in Hedges.
    rewrite Hedges, Hregions. done.
Qed.

Lemma addStart_frame st (s : State) st' :
  addStart st s = Some st' →
  locateRegion s ∈ startRegions_ st' ∧
  st' = set_numMotions_
          (set_startRegions_ (set_graph_regions st (graph_regions st'))
             (startRegions_ st'))
          (numMotions_ st').
Proof.
  unfold addStart.
  destruct (fileMotion _ _ _ _) as [[b st1]|] eqn:Hfile; [|done]. simpl.
  intros [= <-]. apply fileMotion_inv in Hfile as (r & r' & _ & _ & _ & _ & ->).
  split; [|done]. simpl. by apply elem_of_union_l, elem_of_singleton.
Qed.

(** The loop over the start states consumes them all; it writes regions,
    the start regions and the motion count, and every start state leaves
    its region among the start regions. *)
Lemma addStarts_frame (starts : list State) st st' :
  pis_starts st = starts →
  addStarts starts st = Some st' →
  pis_starts st' = [] ∧
  (starts = [] → st' = st) ∧
  (starts ≠ [] → startRegions_ st' ≠ ∅) ∧
  st' = set_pis_starts
          (set_numMotions_
             (set_startRegions_ (set_graph_regions st (graph_regions st'))
                (startRegions_ st'))
             (numMotions_ st'))
          [].
Proof.
  revert st. induction starts as [|s rest IH]; intros st Hstarts; simpl.
  - intros [= <-]. repeat split; try done. destruct st. simpl in *. by subst.
  - destruct (addStart _ s) as [st1|] eqn:Hstart; [|done]. simpl.
    intros Hrest. apply addStart_frame in Hstart as [Hin Hst1].
    assert (pis_starts st1 = rest) as Hrest1 by (by rewrite Hst1).
    destruct (IH st1 Hrest1 Hrest) as (Hnil & Hsame & Hnonempty & Hst').
    split; [done|]. split; [done|]. split.
    + intros _. destruct rest as [|s' rest'].
      * rewrite (Hsame eq_refl). intros Hempty. rewrite Hempty in Hin.
        by apply not_elem_of_empty in Hin.
      * by apply Hnonempty.
    + rewrite Hst', Hst1. done.
Qed.

Lemma solve_seeded (fuel : nat) st st1 st2 :
  setupEstimates st = Some st1 →
  addStarts (pis_starts st1) st1 = Some st2 →
  solve fuel st =
    if decide (startRegions_ st2 = ∅) then
      Some (false, log st2 (MsgError "There are no valid start states"))
    else if decide (goalRegions_ st2 = ∅) then
      match pis_goals st2 with
      | g :: rest =>
          plan fuel
            (set_goalRegions_ (set_pis_goals st2 rest)
               ({[locateRegion g]} ∪ goalRegions_ st2))
      | [] =>
          Some (false, log st2 (MsgError "Unable to sample a valid goal state"))
      end
    else plan fuel st2.
Proof. intros Hsetup Hstarts. unfold solve. rewrite Hsetup. simpl. by rewrite Hstarts. Qed.

(** C9.  Let the estimates be set up and the pending start states be
    seeded ([st2]).  If then no start region is known, or no goal region is
    known and [pis_] has no goal state to give, [solve] returns [false]
    whatever the termination condition; the state it leaves is [st2] with
    one error message appended, so no solution path was added.  The state
    serves a later call: the estimates stay set up, a start state given
    later makes the start regions non-empty, and with a start region known a
    goal state given later takes [solve] on to planning. *)
Theorem solve_without_states (fuel : nat) st st1 st2 :
  setupEstimates st = Some st1 →
  addStarts (pis_starts st1) st1 = Some st2 →
  startRegions_ st2 = ∅ ∨ (goalRegions_ st2 = ∅ ∧ pis_goals st2 = []) →
  ∃ text st',
    solve fuel st = Some (false, st') ∧
    st' = log st2 (MsgError text) ∧
    ((startRegions_ st2 = ∅ ∧ text = "There are no valid start states") ∨
     (startRegions_ st2 ≠ ∅ ∧ text = "Unable to sample a valid goal state")) ∧
    solutionPaths st' = solutionPaths st ∧
    graphReady_ st' = true ∧
    (∀ (s : State) (starts : list State) st3,
       addStarts (s :: starts) (set_pis_starts st' (s :: starts)) = Some st3 →
       startRegions_ st3 ≠ ∅) ∧
    (startRegions_ st2 ≠ ∅ →
     ∀ (g : State) (goals : list State),
       solve fuel (set_pis_goals st' (g :: goals)) =
         plan fuel
           (set_goalRegions_ (set_pis_goals st' goals)
              ({[locateRegion g]} ∪ goalRegions_ st'))).
Proof.
  intros Hsetup Hstarts Hmissing.
  pose proof (setupEstimates_frame _ _ Hsetup) as [Hready Hst1].
  pose proof (addStarts_frame _ _ _ eq_refl Hstarts) as (Hnil & _ & _ & Hst2).
  assert (solutionPaths st2 = solutionPaths st) as Hpaths
    by (by rewrite Hst2, Hst1).
  assert (graphReady_ st2 = true) as Hready2 by (by rewrite Hst2).
  assert (∀ text (s : State) (starts : list State) st3,
            addStarts (s :: starts)
              (set_pis_starts (log st2 (MsgError text)) (s :: starts)) = Some st3 →
            startRegions_ st3 ≠ ∅) as Hretry.
  { intros text s starts st3 Hadd.
    by apply addStarts_frame in Hadd as (_ & _ & Hnonempty & _); [apply Hnonempty|]. }
  rewrite (solve_seeded fuel st st1 st2 Hsetup Hstarts).
  destruct (decide (startRegions_ st2 = ∅)) as [Hempty|Hnonempty].
  - eexists _, _. split; [done|]. split; [done|]. split; [by left|].
    split; [done|]. split; [done|]. split; [apply Hretry|]. done.
  - destruct Hmissing as [?|[Hgoals Hpis]]; [done|].
    rewrite decide_True by done. rewrite Hpis.
    eexists _, _. split; [done|]. split; [done|]. split; [by right|].
    split; [done|]. split; [done|]. split; [apply Hretry|].
    intros _ g goals.
    set (st' := log st2 (MsgError "Unable to sample a valid goal state")).
    assert (setupEstimates (set_pis_goals st' (g :: goals)) =
              Some (set_pis_goals st' (g :: goals))) as Hsetup'.
    { unfold setupEstimates. simpl. by rewrite Hready2. }
    rewrite (solve_seeded fuel _ _ (set_pis_goals st' (g :: goals)) Hsetup').
    + simpl. rewrite decide_False by done. by rewrite decide_True by done.
    + simpl. by rewrite Hnil.
Qed.

(** ** Coverage estimates, applied twice *)

(** X5.  [updateCoverageEstimate] reports whether the coverage cell of the
    state is new to the region; afterwards the cell is in the region's
    coverage, and a second call with the same state reports [false] and
    changes nothing. *)
Theorem updateCoverageEstimate_again st (k : Z) (s : State) (b : bool) st' :
  updateCoverageEstimate st k s = Some (b, st') →
  (∃ r r', getRegion st k = Some r ∧ getRegion st' k = Some r' ∧
           b = bool_decide (covGrid_locateRegion s ∉ covGridCells r) ∧
           covGridCells r' = {[covGrid_locateRegion s]} ∪ covGridCells r) ∧
  (b = false → st' = st) ∧
  updateCoverageEstimate st' k s = Some (false, st').
Proof.
  unfold updateCoverageEstimate.
  destruct (getRegion st k) as [r|] eqn:Hr; [|done]. simpl.
  case_decide as Hcell.
  - intros [= <- <-]. split.
    + exists r, r. split; [done|]. split; [done|]. split.
      * symmetry. apply bool_decide_eq_false. by intros ?.
      * symmetry. apply subseteq_union_1_L. by apply singleton_subseteq_l.
    + split; [done|]. rewrite Hr. simpl. by rewrite decide_True.
  - intros [= <- <-]. split.
    + eexists r, _. split; [done|].
      rewrite (getRegion_setRegion _ _ _ _ r Hr), decide_True by done.
      split; [done|]. split; [|done].
      symmetry. by apply bool_decide_eq_true.
    + split; [done|].
      rewrite (getRegion_setRegion _ _ _ _ r Hr), decide_True by done. simpl.
      rewrite decide_True; [done|].
      apply elem_of_union_l, elem_of_singleton. done.
Qed.

(** ** Edge costs do not read the stored cost *)

Lemma defaultEdgeCost_ext st st' :
  graph_regions st' = graph_regions st →
  (∀ key, set_cost (D := D) <$> regionsToEdge_ st' !! key
          = set_cost <$> regionsToEdge_ st !! key) →
  ∀ i j : Z, defaultEdgeCost st' i j = defaultEdgeCost st i j.
Proof.
  intros Hregions Hedges i j. unfold defaultEdgeCost, getRegion.
  rewrite Hregions. specialize (Hedges (i, j)).
  destruct (regionsToEdge_ st' !! (i, j)) as [a'|],
    (regionsToEdge_ st !! (i, j)) as [a|]; simpl in *; try done.
  injection Hedges as Hedges.
  assert (set_cost a' d_one = set_cost a d_one) as Heq by by rewrite Hedges.
  injection Heq as -> -> -> -> -> ->. done.
Qed.

Lemma edgeCostLoop_ext st st' a a' factors (c : D) :
  graph_regions st' = graph_regions st →
  (∀ i j : Z, defaultEdgeCost st' i j = defaultEdgeCost st i j) →
  source a' = source a → target a' = target a →
  edgeCostLoop st' a' factors c = edgeCostLoop st a factors c.
Proof.
  intros Hregions Hdefault Hsrc Htgt. revert c.
  induction factors as [|factor factors IH]; intros c; simpl; [done|].
  unfold getRegion. rewrite Hregions, Hsrc, Htgt.
  destruct (vec_get (graph_regions st) (source a)) as [src|]; [|done]. simpl.
  destruct (vec_get (graph_regions st) (target a)) as [tgt|]; [|done]. simpl.
  assert (callFactor st' factor (index src) (index tgt)
          = callFactor st factor (index src) (index tgt)) as ->.
  { destruct factor; simpl; [apply Hdefault|done]. }
  destruct (callFactor st factor (index src) (index tgt)); [|done]. simpl.
  apply IH.
Qed.

Lemma set_cost_insert_ext st key a (c : D) :
  regionsToEdge_ st !! key = Some a →
  ∀ key', set_cost (D := D) <$> <[key := set_cost a c]> (regionsToEdge_ st) !! key'
          = set_cost <$> regionsToEdge_ st !! key'.
Proof.
  intros Ha key'. destruct (decide (key = key')) as [<-|Hne].
  - rewrite lookup_insert_eq, Ha. done.
  - by rewrite lookup_insert_ne.
Qed.

Lemma edgeCost_set_cost st key a (c : D) a0 :
  regionsToEdge_ st !! key = Some a →
  edgeCost (set_regionsToEdge_ st (<[key := set_cost a c]> (regionsToEdge_ st)))
    (set_cost a0 c) = edgeCost st a0.
Proof.
  intros Ha. unfold edgeCost. simpl.
  apply edgeCostLoop_ext; [done| |done|done].
  apply defaultEdgeCost_ext; [done|]. simpl. by apply set_cost_insert_ext.
Qed.

(** X7.  The cost [updateEdge] writes does not depend on the cost the edge
    held: whatever cost is stored before the call, the result is the same,
    and a second call changes nothing. *)
Theorem updateEdge_again st key st' :
  updateEdge st key = Some st' →
  updateEdge st' key = Some st' ∧
  ∀ a (c0 : D),
    regionsToEdge_ st !! key = Some a →
    updateEdge
      (set_regionsToEdge_ st (<[key := set_cost a c0]> (regionsToEdge_ st))) key
    = Some st'.
Proof.
  intros Hup.
  assert (∀ a (c0 : D),
            regionsToEdge_ st !! key = Some a →
            updateEdge
              (set_regionsToEdge_ st (<[key := set_cost a c0]> (regionsToEdge_ st)))
              key = Some st') as Hany.
  { intros a c0 Ha. unfold updateEdge in Hup |- *. rewrite Ha in Hup.
    simpl in Hup |- *. rewrite lookup_insert_eq. simpl.
    rewrite (edgeCost_set_cost st key a c0 a Ha).
    destruct (edgeCost st a) as [c|]; [|done]. simpl in Hup |- *.
    injection Hup as <-. rewrite insert_insert_eq. done. }
  split; [|exact Hany].
  apply updateEdge_inv in Hup as Hshape. destruct Hshape as (a & c & Ha & ->).
  by apply Hany.
Qed.

Lemma updateConnectionEstimate_shape st (c d : Z) (s : State) (b : bool) st' :
  updateConnectionEstimate st c d s = Some (b, st') →
  (∃ rc rd a a',
     getRegion st c = Some rc ∧ getRegion st d = Some rd ∧
     regionsToEdge_ st !! (index rc, index rd) = Some a ∧
     regionsToEdge_ st' !! (index rc, index rd) = Some a' ∧
     b = bool_decide (covGrid_locateRegion s ∉ adj_covGridCells a) ∧
     adj_covGridCells a' = {[covGrid_locateRegion s]} ∪ adj_covGridCells a ∧
     set_cost (set_adj_covGridCells a' ∅) d_one
       = set_cost (set_adj_covGridCells a ∅) d_one ∧
     ∀ key, key ≠ (index rc, index rd) →
            regionsToEdge_ st' !! key = regionsToEdge_ st !! key) ∧
  (b = false → st' = st) ∧
  updateConnectionEstimate st' c d s = Some (false, st').
Proof.
  unfold updateConnectionEstimate.
  destruct (getRegion st c) as [rc|] eqn:Hc; [|done]. simpl.
  destruct (getRegion st d) as [rd|] eqn:Hd; [|done]. simpl.
  destruct (regionsToEdge_ st !! (index rc, index rd)) as [a|] eqn:Ha; [|done].
  simpl. case_decide as Hcell.
  - intros [= <- <-]. split.
    + exists rc, rd, a, a. repeat (split; [done|]). split.
      * symmetry. apply bool_decide_eq_false. by intros ?.
      * split; [|done].
        symmetry. apply subseteq_union_1_L. by apply singleton_subseteq_l.
    + split; [done|]. rewrite Hc, Hd. simpl. rewrite Ha. simpl.
      by rewrite decide_True.
  - destruct (updateEdge _ _) as [st1|] eqn:Hup; [|done]. simpl.
    intros [= <- <-].
    apply updateEdge_inv in Hup as (a1 & c1 & Ha1 & ->). simpl in Ha1.
    rewrite lookup_insert_eq in Ha1. injection Ha1 as <-.
    simpl. rewrite insert_insert_eq. split.
    + eexists rc, rd, a, _. repeat (split; [done|]). simpl.
      rewrite lookup_insert_eq. split; [done|]. split.
      * symmetry. by apply bool_decide_eq_true.
      * split; [done|]. split; [done|].
        intros key Hkey. by rewrite lookup_insert_ne.
    + split; [done|].
      change (getRegion (set_regionsToEdge_ ?x ?y)) with (getRegion x).
      change (getRegion (set_regionsToEdge_ ?x ?y)) with (getRegion x).
      rewrite Hc, Hd. simpl. rewrite lookup_insert_eq. simpl.
      rewrite decide_True; [done|].
      apply elem_of_union_l, elem_of_singleton. done.
Qed.

(** X6.  [updateConnectionEstimate] reports whether the coverage cell of the
    state is new to the edge between the two regions; afterwards the cell is
    in the edge's coverage, no other edge has changed, and a second call
    with the same state reports [false] and changes nothing. *)
Theorem updateConnectionEstimate_again st (c d : Z) (s : State) (b : bool) st' :
  updateConnectionEstimate st c d s = Some (b, st') →
  (∃ rc rd a a',
     getRegion st c = Some rc ∧ getRegion st d = Some rd ∧
     regionsToEdge_ st !! (index rc, index rd) = Some a ∧
     regionsToEdge_ st' !! (index rc, index rd) = Some a' ∧
     b = bool_decide (covGrid_locateRegion s ∉ adj_covGridCells a) ∧
     adj_covGridCells a' = {[covGrid_locateRegion s]} ∪ adj_covGridCells a ∧
     ∀ key, key ≠ (index rc, index rd) →
            regionsToEdge_ st' !! key = regionsToEdge_ st !! key) ∧
  (b = false → st' = st) ∧
  updateConnectionEstimate st' c d s = Some (false, st').
Proof.
  intros Hrun.
  apply updateConnectionEstimate_shape in Hrun
    as ((rc & rd & a & a' & ? & ? & ? & ? & ? & ? & _ & ?) & ? & ?).
  split; [|done]. by exists rc, rd, a, a'.
Qed.

(** ** One more edge cost factor *)

Lemma edgeCostLoop_app st a (fs gs : list EdgeCostFactorFn) (c : D) :
  edgeCostLoop st a (fs ++ gs) c =
    edgeCostLoop st a fs c ≫= edgeCostLoop st a gs.
Proof.
  revert c. induction fs as [|f fs IH]; intros c; simpl; [done|].
  destruct (getRegion st (source a)) as [src|]; [|done]. simpl.
  destruct (getRegion st (target a)) as [tgt|]; [|done]. simpl.
  destruct (callFactor st f (index src) (index tgt)); [|done]. simpl.
  apply IH.
Qed.

Lemma callFactor_factors st fs factor (i j : Z) :
  callFactor (set_edgeCostFactors_ st fs) factor i j = callFactor st factor i j.
Proof. by destruct factor. Qed.

Lemma edgeCostLoop_factors st fs a factors (c : D) :
  edgeCostLoop (set_edgeCostFactors_ st fs) a factors c
  = edgeCostLoop st a factors c.
Proof.
  revert c. induction factors as [|f factors IH]; intros c; simpl; [done|].
  change (getRegion (set_edgeCostFactors_ st fs)) with (getRegion st).
  destruct (getRegion st (source a)) as [src|]; [|done]. simpl.
  destruct (getRegion st (target a)) as [tgt|]; [|done]. simpl.
  rewrite callFactor_factors.
  destruct (callFactor st f (index src) (index tgt)); [|done]. simpl.
  apply IH.
Qed.

(** X8.  After [addEdgeCostFactor factor], [updateEdge] gives an edge the
    cost it would have given it before, multiplied by the value of the new
    factor at the indices of the edge's end points. *)
Theorem addEdgeCostFactor_multiplies st (factor : EdgeCostFactorFn) key st1 a1
    src tgt (c : D) :
  updateEdge st key = Some st1 →
  regionsToEdge_ st1 !! key = Some a1 →
  getRegion st (source a1) = Some src →
  getRegion st (target a1) = Some tgt →
  callFactor st factor (index src) (index tgt) = Some c →
  ∃ st2,
    updateEdge (addEdgeCostFactor st factor) key = Some st2 ∧
    regionsToEdge_ st2 !! key = Some (set_cost a1 (d_mul (cost a1) c)) ∧
    (∀ key', key' ≠ key →
             regionsToEdge_ st2 !! key' = regionsToEdge_ st !! key') ∧
    edgeCostFactors_ st2 = edgeCostFactors_ st ++ [factor].
Proof.
  intros Hup Ha1 Hsrc Htgt Hc. unfold updateEdge in Hup |- *.
  change (regionsToEdge_ (addEdgeCostFactor st factor)) with (regionsToEdge_ st).
  destruct (regionsToEdge_ st !! key) as [a|] eqn:Ha; [|done]. simpl in *.
  destruct (edgeCost st a) as [c0|] eqn:Hcost; [|done]. simpl in Hup.
  injection Hup as <-. simpl in Ha1. rewrite lookup_insert_eq in Ha1.
  injection Ha1 as <-. simpl in Hsrc, Htgt.
  unfold edgeCost in Hcost |- *. unfold addEdgeCostFactor at 2. simpl.
  rewrite edgeCostLoop_factors, edgeCostLoop_app, Hcost. simpl.
  rewrite Hsrc, Htgt. simpl. rewrite Hc. simpl.
  eexists. split; [done|]. simpl. rewrite lookup_insert_eq.
  split; [done|]. split; [|done]. intros key' Hne. by rewrite lookup_insert_ne.
Qed.

(** ** A lead of one region *)

(** X14.  When the start region is the goal region, [computeLead] makes the
    lead that single region and touches nothing else: no random number is
    drawn and no edge is updated.  If the region holds a motion,
    [computeAvailableRegions] then makes it the only available region, with
    its weight, and draws one random number. *)
Theorem computeLead_same_region st (k : Z) r :
  getRegion st k = Some r →
  motions r ≠ [] →
  computeLead st k k = Some (set_lead_ st [k]) ∧
  computeAvailableRegions (set_lead_ st [k]) =
    Some (set_rng_ (set_availDist_ (set_lead_ st [k]) [(k, weight r)])
            (S (rng_ st))).
Proof.
  intros Hr Hm. split.
  - unfold computeLead. by rewrite decide_True.
  - unfold computeAvailableRegions. simpl.
    change (to_int (size_t (1 - 1))) with 0. simpl.
    change (getRegion (set_availDist_ (set_lead_ st [k]) [])) with (getRegion st).
    rewrite Hr. simpl. destruct (motions r) as [|m ms]; [done|].
    simpl. by destruct (d_ge _ _).
Qed.

(** ** Samples outside the decomposition *)

Lemma countSample_lengths (acc acc' : list Z * list Z) (j : nat) :
  countSample acc j = Some acc' →
  length acc'.1 = length acc.1 ∧ length acc'.2 = length acc.2.
Proof.
  unfold countSample, vec_incr. intros Hstep.
  destruct (isValid (sampleUniform j)).
  - destruct (vec_get acc.2 _); [|done]. simpl in Hstep.
    destruct (vec_get acc.1 _); [|done]. simpl in Hstep.
    injection Hstep as <-. simpl. by rewrite !vec_set_length.
  - simpl in Hstep. destruct (vec_get acc.1 _); [|done]. simpl in Hstep.
    injection Hstep as <-. simpl. by rewrite !vec_set_length.
Qed.

Lemma countSample_outside (acc : list Z * list Z) (j : nat) :
  ¬ (0 ≤ locateRegion (sampleUniform j) < Z.of_nat (length acc.1)) →
  countSample acc j = None.
Proof.
  intros Hout. unfold countSample, vec_incr.
  destruct (vec_get acc.1 (locateRegion (sampleUniform j))) as [x|] eqn:Hx.
  { by apply vec_get_range in Hx. }
  simpl. by destruct (if isValid _ then _ else _).
Qed.

Lemma foldM_countSample_outside (l : list nat) (acc : list Z * list Z) (j : nat) :
  j ∈ l →
  ¬ (0 ≤ locateRegion (sampleUniform j) < Z.of_nat (length acc.1)) →
  foldM countSample acc l = None.
Proof.
  revert acc. induction l as [|i l IH]; intros acc Hj Hout.
  - by apply elem_of_nil in Hj.
  - simpl. destruct (countSample acc i) as [acc'|] eqn:Hstep; [|done]. simpl.
    apply elem_of_cons in Hj as [->|Hj].
    + by rewrite countSample_outside in Hstep.
    + apply IH; [done|]. apply countSample_lengths in Hstep as [-> _]. done.
Qed.

(** X3.  [setupRegionEstimates] has no defined result when one of the
    samples it draws lies in no region of the decomposition: the counters
    [numTotal] and [numValid] are indexed with the number [locateRegion]
    returns. *)
Theorem setupRegionEstimates_sample_outside st (j : nat) :
  0 ≤ getNumRegions →
  (Z.of_nat j < numFreeVolSamples_ (config st)) →
  ¬ (0 ≤ locateRegion (sampleUniform j) < getNumRegions) →
  setupRegionEstimates st = None.
Proof.
  intros Hnum Hj Hout. unfold setupRegionEstimates, sampleCounts.
  rewrite (foldM_countSample_outside _ _ j); [done| |].
  - apply elem_of_seq. lia.
  - simpl. rewrite length_replicate. by rewrite Z2Nat.id.
Qed.

(** ** The solution path *)

Lemma mpath_chain m :
  ∃ root rest,
    reverse (mpath m) = root :: rest ∧ parent root = None ∧
    (root :: rest) !! length rest = Some m ∧
    ∀ (i : nat) y, rest !! i = Some y → parent y = (root :: rest) !! i.
Proof.
  revert m. fix IH 1. intros [s c n [p|]].
  - destruct (IH p) as (root & rest & Hrev & Hroot & Hlast & Hchain).
    exists root, (rest ++ [mkMotion s c n (Some p)]).
    simpl. rewrite reverse_cons, Hrev. split; [done|]. split; [done|]. split.
    + rewrite length_app. simpl. rewrite Nat.add_1_r. simpl.
      by rewrite lookup_app_r, Nat.sub_diag.
    + intros i y Hy. apply lookup_app_Some in Hy as [Hy|[Hi Hy]].
      * rewrite (Hchain i y Hy). apply lookup_lt_Some in Hy.
        change (root :: rest ++ ?l) with ((root :: rest) ++ l).
        rewrite lookup_app_l; [done|]. simpl. lia.
      * apply list_lookup_singleton_Some in Hy as [Hi' <-]. simpl.
        assert (i = length rest) as -> by lia.
        change (root :: rest ++ ?l) with ((root :: rest) ++ l).
        rewrite lookup_app_l; [done|]. simpl. lia.
  - exists (mkMotion s c n None), []. simpl. split; [done|]. split; [done|].
    split; [done|]. intros i y Hy. done.
Qed.

(** X22.  The path [solve] hands to the goal for the motion [m] lists the
    motions from the root of the tree to [m]: the root contributes its state
    alone, and every later motion its state, its control and the duration
    [steps * getPropagationStepSize]; each motion is the child of the one
    before it. *)
Theorem solution_path_shape st pr m :
  solution pr = Some m →
  ∃ root rest,
    parent root = None ∧
    last (root :: rest) = Some m ∧
    (∀ (i : nat) y, rest !! i = Some y → parent y = (root :: rest) !! i) ∧
    addSolution st pr =
      (true,
       set_solutionPaths st
         (solutionPaths st ++
          [{| sol_path :=
                AppendState (state root) ::
                ((λ y, AppendControl (state y) (control y)
                         (d_mul (d_of_Z (steps y)) getPropagationStepSize))
                   <$> rest);
              sol_approximate := negb (solved pr);
              sol_difference := goalDist pr |}])).
Proof.
  intros Hm. destruct (mpath_chain m) as (root & rest & Hrev & Hroot & Hlast & Hchain).
  exists root, rest. split; [done|]. split.
  { rewrite last_lookup. simpl. done. }
  split; [done|].
  assert (pathEntry root = AppendState (state root)) as Hhead.
  { unfold pathEntry. by rewrite Hroot. }
  assert (pathEntry <$> rest =
          (λ y, AppendControl (state y) (control y)
                  (d_mul (d_of_Z (steps y)) getPropagationStepSize)) <$> rest)
    as Htail.
  { apply list_eq. intros i. rewrite !list_lookup_fmap.
    destruct (rest !! i) as [y|] eqn:Hy; [|done]. simpl.
    specialize (Hchain i y Hy). unfold pathEntry. rewrite Hchain.
    assert (is_Some ((root :: rest) !! i)) as [x ->]; [|done].
    apply lookup_lt_is_Some. apply lookup_lt_Some in Hy. simpl. lia. }
  unfold addSolution. rewrite Hm, Hrev, fmap_cons, Hhead, Htail. done.
Qed.

(** ** Leads from a predecessor map *)

Lemma follows_parents_snoc (parents pre : list Z) (u v : Z) :
  follows_parents parents pre → last pre = Some u →
  vec_get parents v = Some u →
  follows_parents parents (pre ++ [v]).
Proof.
  intros Hpre Hlast Hv. induction pre as [|x pre IH]; [done|].
  destruct pre as [|y pre].
  - simpl in *. injection Hlast as ->. done.
  - destruct Hpre as [Hxy Hpre]. split; [done|]. by apply IH.
Qed.

Lemma leadLength_fillLead (fuel : nat) (parents : list Z)
    (startRegion region len n : Z) :
  leadLength fuel parents startRegion region len = Some n →
  len ≤ n ∧
  ∀ filled lead,
    fillLead parents (Z.to_nat (n - len + 1)) region filled = Some lead →
    ∃ pre, lead = pre ++ filled ∧ lead_between startRegion region pre ∧
           follows_parents parents pre.
Proof.
  revert region len. induction fuel as [|fuel IH]; intros region len; simpl.
  - case_decide as Hregion; [|done]. intros [= <-]. split; [lia|].
    intros filled lead. replace (Z.to_nat (len - len + 1)) with 1%nat by lia.
    simpl. destruct (vec_get parents region); [|done]. simpl. intros [= <-].
    exists [region]. subst region. by repeat split.
  - case_decide as Hregion.
    + intros [= <-]. split; [lia|].
      intros filled lead. replace (Z.to_nat (len - len + 1)) with 1%nat by lia.
      simpl. destruct (vec_get parents region); [|done]. simpl. intros [= <-].
      exists [region]. subst region. by repeat split.
    + destruct (vec_get parents region) as [next|] eqn:Hnext; [|done]. simpl.
      intros Hlen. destruct (IH next (len + 1) Hlen) as [Hle Hfill].
      split; [lia|]. intros filled lead.
      replace (Z.to_nat (n - len + 1))
        with (S (Z.to_nat (n - (len + 1) + 1))) by lia.
      simpl. rewrite Hnext. simpl. intros Hlead.
      destruct (Hfill _ _ Hlead) as (pre & -> & (Hhead & Hlast & Htail) & Hpre).
      exists (pre ++ [region]). split; [by rewrite <- app_assoc|].
      destruct pre as [|x pre]; [done|]. split; [|by eapply follows_parents_snoc].
      split; [done|]. split; [by rewrite last_snoc|].
      simpl in *. apply Forall_app. split; [done|]. by apply Forall_singleton.
Qed.

Lemma leadFromParents_inv (parents : list Z) (startRegion goalRegion : Z)
    st st' :
  leadFromParents parents startRegion goalRegion st = Some st' →
  st' = set_lead_ st (lead_ st') ∧
  lead_between startRegion goalRegion (lead_ st') ∧
  follows_parents parents (lead_ st').
Proof.
  unfold leadFromParents. intros Hrun.
  destruct (leadLength _ _ _ _ _) as [len|] eqn:Hlen; [|done]. simpl in Hrun.
  destruct (fillLead _ _ _ _) as [lead|] eqn:Hlead; [|done]. simpl in Hrun.
  injection Hrun as <-. split; [done|]. simpl.
  apply leadLength_fillLead in Hlen as [Hle Hfill].
  replace (Z.to_nat len) with (Z.to_nat (len - 1 + 1)) in Hlead by lia.
  destruct (Hfill _ _ Hlead) as (pre & -> & Hbetween & Hpre).
  by rewrite app_nil_r.
Qed.

(** X9.  The lead both branches of [computeLead] read off a predecessor map
    starts at the start region, ends at the goal region, does not come back
    to the start region, and every entry is the predecessor of the entry
    after it.  Nothing but [lead_] is written. *)
Theorem leadFromParents_lead (parents : list Z) (startRegion goalRegion : Z)
    st st' :
  leadFromParents parents startRegion goalRegion st = Some st' →
  st' = set_lead_ st (lead_ st') ∧
  lead_between startRegion goalRegion (lead_ st') ∧
  follows_parents parents (lead_ st').
Proof. apply leadFromParents_inv. Qed.

(** ** The random search for a lead *)

Lemma discover_along_edges st (startRegion v : Z) (outs l : list Z)
    (acc acc' : list Z * list Z) :
  vec_get (graph_out st) v = Some outs →
  (∀ x, x ∈ l → x ∈ outs) →
  discovered_along_edges st startRegion acc.2 →
  foldM (discover v) acc l = Some acc' →
  discovered_along_edges st startRegion acc'.2.
Proof.
  intros Hv. revert acc. induction l as [|x l IH]; intros acc Hl Hacc; simpl.
  - by intros [= <-].
  - destruct (discover v acc x) as [acc1|] eqn:Hstep; [|done]. simpl.
    apply IH; [intros y Hy; apply Hl; by right|].
    unfold discover in Hstep.
    destruct (vec_get acc.2 x) as [p|] eqn:Hp; [|done]. simpl in Hstep.
    case_decide as Hneg; injection Hstep as <-; [|done]. simpl.
    intros y q Hy Hq. rewrite (vec_get_set _ _ _ _ p Hp) in Hy.
    case_decide as Hxy.
    + injection Hy as <-. subst y. right. exists outs. split; [done|].
      apply Hl. by left.
    + by apply Hacc.
Qed.

Lemma chooseNeighbors_frame (n : nat) (i goalRegion : Z)
    (neighbors stack : list Z) st (found : bool) (stack' : list Z) st' :
  chooseNeighbors n i goalRegion neighbors stack st = Some (found, stack', st') →
  st' = set_rng_ st (rng_ st').
Proof.
  revert i neighbors stack st. induction n as [|n IH];
    intros i neighbors stack st; simpl.
  - intros [= _ _ <-]. by destruct st.
  - intros Hrun.
    destruct (vec_get neighbors (uniformInt _ _ _)) as [c|]; [|done].
    simpl in Hrun. case_decide.
    + by injection Hrun as _ _ <-.
    + destruct (vec_get neighbors i) as [ni|]; [|done]. simpl in Hrun.
      apply IH in Hrun. rewrite Hrun. done.
Qed.

Lemma follows_parents_edges st (startRegion : Z) (parents lead : list Z) :
  discovered_along_edges st startRegion parents →
  follows_parents parents lead →
  (∀ x, head lead = Some x → 0 ≤ x) →
  Forall (λ k, k ≠ startRegion) (tail lead) →
  follows_edges st lead.
Proof.
  intros Hparents. induction lead as [|u lead IH]; [done|].
  destruct lead as [|v lead]; [done|].
  intros [Huv Hfollows] Hhead Htail. simpl in Htail.
  apply Forall_cons in Htail as [Hv Htail]. split.
  - destruct (Hparents v u Huv) as [[? _]|Hedge]; [by apply Hhead|done|done].
  - apply IH; [done| |].
    + intros x [= <-]. by apply vec_get_range in Huv as [? _].
    + done.
Qed.

Lemma follows_edges_ext st st' (lead : list Z) :
  graph_out st' = graph_out st → follows_edges st lead → follows_edges st' lead.
Proof.
  intros Hout. induction lead as [|u lead IH]; [done|].
  destruct lead as [|v lead]; [done|].
  intros [Hedge Hrest]. split; [by rewrite Hout|by apply IH].
Qed.

Lemma randomDFS_lead (fuel : nat) (startRegion goalRegion : Z)
    (stack parents : list Z) st st' :
  0 ≤ startRegion →
  discovered_along_edges st startRegion parents →
  randomDFS fuel startRegion goalRegion stack parents st = Some st' →
  st' = set_rng_ (set_lead_ st (lead_ st')) (rng_ st') ∧
  (lead_ st' = lead_ st ∨
   lead_between startRegion goalRegion (lead_ st') ∧
   follows_edges st (lead_ st')).
Proof.
  intros Hstart. revert stack parents st.
  induction fuel as [|fuel IH]; intros stack parents st Hparents;
    destruct stack as [|v stack]; simpl.
  - intros [= <-]. split; [by destruct st|by left].
  - done.
  - intros [= <-]. split; [by destruct st|by left].
  - destruct (vec_get (graph_out st) v) as [outs|] eqn:Hv; [|done]. simpl.
    destruct (foldM (discover v) ([], parents) outs) as [[neighbors parents1]|]
      eqn:Hdiscover; [|done]. simpl.
    destruct (chooseNeighbors _ _ _ _ _ _) as [[[found stack2] st1]|]
      eqn:Hchoose; [|done]. simpl.
    apply chooseNeighbors_frame in Hchoose.
    assert (discovered_along_edges st startRegion parents1) as Hparents1.
    { by apply (discover_along_edges st startRegion v outs outs
                  ([], parents) (neighbors, parents1)). }
    destruct found.
    + intros Hlead. apply leadFromParents_inv in Hlead as (Hst' & Hbetween & Hfollows).
      split.
      { rewrite Hst', Hchoose. by destruct st. }
      right. split; [done|].
      apply (follows_parents_edges st startRegion parents1); [done|done| |].
      * intros x Hx. destruct Hbetween as (Hhead & _ & _).
        rewrite Hhead in Hx. by injection Hx as <-.
      * by destruct Hbetween as (_ & _ & ?).
    + assert (graph_out st1 = graph_out st) as Hout by by rewrite Hchoose.
      assert (lead_ st1 = lead_ st) as Hsame by by rewrite Hchoose.
      intros Hrun. apply IH in Hrun as [Hst' Hlead].
      * split.
        { rewrite Hst', Hchoose. by destruct st. }
        rewrite Hsame in Hlead. destruct Hlead as [?|[? Hedges]]; [by left|].
        right. split; [done|]. by apply (follows_edges_ext st1).
      * intros a p Ha Hp. rewrite Hout. by apply Hparents1.
Qed.

Lemma randomDFSLead_inv st (startRegion goalRegion : Z) st' :
  randomDFSLead st startRegion goalRegion = Some st' →
  st' = set_rng_ (set_lead_ st (lead_ st')) (rng_ st') ∧
  (lead_ st' = lead_ st ∨
   lead_between startRegion goalRegion (lead_ st') ∧
   follows_edges st (lead_ st')).
Proof.
  unfold randomDFSLead.
  destruct (vec_get (replicate _ _) startRegion) as [p|] eqn:Hstart; [|done].
  intros Hrun.
  apply (randomDFS_lead
           (S (length (replicate (Z.to_nat getNumRegions) (-1))))
           startRegion goalRegion [startRegion]
           (vec_set (replicate (Z.to_nat getNumRegions) (-1)) startRegion
              startRegion));
    [| |exact Hrun].
  - by apply vec_get_range in Hstart as [? _].
  - intros a q Ha Hq. rewrite (vec_get_set _ _ _ _ p Hstart) in Ha.
    case_decide as Heq.
    + injection Ha as <-. by left.
    + unfold vec_get in Ha. case_decide; [|done].
      apply lookup_replicate in Ha as [-> _]. lia.
Qed.

(** X10.  The random search of [computeLead] either leaves [lead_] as it is
    (the goal region was not reached) or makes it a lead from the start
    region to the goal region along edges of the graph: every entry is an
    out-neighbour of the entry before it.  Besides [lead_] only the random
    number generator advances. *)
Theorem randomDFSLead_follows_edges st (startRegion goalRegion : Z) st' :
  randomDFSLead st startRegion goalRegion = Some st' →
  st' = set_rng_ (set_lead_ st (lead_ st')) (rng_ st') ∧
  (lead_ st' = lead_ st ∨
   lead_between startRegion goalRegion (lead_ st') ∧
   follows_edges st (lead_ st')).
Proof. apply randomDFSLead_inv. Qed.

(** ** The tree only grows *)

#[local] Instance region_grown_refl : Reflexive (region_grown (D := D) (State := State) (Control := Control)).
Proof. intros r. by repeat split. Qed.

#[local] Instance region_grown_trans : Transitive (region_grown (D := D) (State := State) (Control := Control)).
Proof.
  intros r1 r2 r3 (? & ? & ? & ? & ? & ? & ?) (? & ? & ? & ? & ? & ? & ?).
  repeat split; try congruence; by etrans.
Qed.

#[local] Instance edge_grown_refl : Reflexive (edge_grown (D := D)).
Proof. intros a. by repeat split. Qed.

#[local] Instance edge_grown_trans : Transitive (edge_grown (D := D)).
Proof.
  intros a1 a2 a3 (? & ? & ? & ? & ? & Hc1) (? & ? & ? & ? & ? & Hc2).
  repeat split; try congruence; try by etrans. intros ?. by apply Hc2, Hc1.
Qed.

#[local] Instance same_setting_refl : Reflexive (same_setting (D := D) (State := State) (Control := Control)).
Proof. intros st. by repeat split. Qed.

#[local] Instance same_setting_trans : Transitive (same_setting (D := D) (State := State) (Control := Control)).
Proof.
  intros st1 st2 st3 (? & ? & ? & ? & ? & ? & ? & ? & ? & ? & ?)
    (? & ? & ? & ? & ? & ? & ? & ? & ? & ? & ?).
  repeat split; congruence.
Qed.

#[local] Instance tree_grown_refl : Reflexive (tree_grown (D := D) (State := State) (Control := Control)).
Proof.
  intros st. by split; [|split; [|split]].
Qed.

#[local] Instance tree_grown_trans : Transitive (tree_grown (D := D) (State := State) (Control := Control)).
Proof.
  intros st1 st2 st3 (Hr1 & He1 & Ha1 & Hs1) (Hr2 & He2 & Ha2 & Hs2).
  split; [|split; [|split]].
  - by etrans.
  - intros key. etrans; [apply He1|apply He2].
  - by etrans.
  - by etrans.
Qed.

Lemma same_setting_fields st st' :
  graph_out st' = graph_out st → lead_ st' = lead_ st →
  startRegions_ st' = startRegions_ st → goalRegions_ st' = goalRegions_ st →
  edgeCostFactors_ st' = edgeCostFactors_ st →
  graphReady_ st' = graphReady_ st →
  pis_starts st' = pis_starts st → pis_goals st' = pis_goals st →
  msg_ st' = msg_ st → solutionPaths st' = solutionPaths st →
  config st' = config st → same_setting st st'.
Proof. intros. by repeat split. Qed.

Lemma tree_grown_fields st st' :
  Forall2 region_grown (graph_regions st) (graph_regions st') →
  (∀ key, option_Forall2 edge_grown
            (regionsToEdge_ st !! key) (regionsToEdge_ st' !! key)) →
  availDist_ st `prefix_of` availDist_ st' →
  same_setting st st' → tree_grown st st'.
Proof. intros. split; [done|split; [done|split; done]]. Qed.

(** Steps that write none of the members [tree_grown] speaks of, or one of
    them. *)
Local Ltac same_setting_tac := apply same_setting_fields; reflexivity.
Local Ltac tree_grown_but :=
  apply tree_grown_fields;
    [try reflexivity|try (intros ?; reflexivity)|try reflexivity|same_setting_tac].

Lemma tree_grown_setRegion st (k : Z) r r' :
  getRegion st k = Some r → region_grown r r' →
  tree_grown st (setRegion st k r').
Proof.
  intros Hr Hgrown. tree_grown_but. simpl.
  unfold getRegion, vec_get in Hr. case_decide; [|done].
  rewrite <- (list_insert_id (graph_regions st) (Z.to_nat k) r) at 1 by done.
  unfold vec_set. apply Forall2_insert; [reflexivity|done].
Qed.

Lemma tree_grown_set_edge st key a a' :
  regionsToEdge_ st !! key = Some a → edge_grown a a' →
  tree_grown st (set_regionsToEdge_ st (<[key := a']> (regionsToEdge_ st))).
Proof.
  intros Ha Hgrown. tree_grown_but. simpl.
  intros key'. destruct (decide (key = key')) as [<-|Hne].
  - rewrite lookup_insert_eq, Ha. by constructor.
  - by rewrite lookup_insert_ne.
Qed.

Lemma updateRegion_grown r r' :
  region_grown r r' → region_grown r (updateRegion r').
Proof.
  intros Hgrown. etrans; [exact Hgrown|].
  destruct (updateRegion_fields r') as (? & ? & ? & ? & ? & Hcells & Hmotions).
  by repeat split.
Qed.

Lemma updateCoverageEstimate_grown st (k : Z) (s : State) (b : bool) st' :
  updateCoverageEstimate st k s = Some (b, st') → tree_grown st st'.
Proof.
  unfold updateCoverageEstimate.
  destruct (getRegion st k) as [r|] eqn:Hr; [|done]. simpl.
  case_decide; intros [= <- <-]; [done|].
  apply (tree_grown_setRegion st k r); [done|]. apply updateRegion_grown.
  repeat split; try done. simpl. apply union_subseteq_r.
Qed.

Lemma fileMotion_grown (k : Z) m (s : State) st (b : bool) st' :
  fileMotion k m s st = Some (b, st') → tree_grown st st'.
Proof.
  unfold fileMotion.
  destruct (getRegion st k) as [r|] eqn:Hr; [|done]. simpl.
  intros Hcover. apply updateCoverageEstimate_grown in Hcover.
  etrans; [|exact Hcover].
  etrans; [apply (tree_grown_setRegion st k r
                    (set_motions r (motions r ++ [m])) Hr)|].
  - repeat split; try done. simpl. by apply prefix_app_r.
  - tree_grown_but.
Qed.

Lemma updateEdge_grown st key st' :
  updateEdge st key = Some st' → tree_grown st st'.
Proof.
  intros Hup. apply updateEdge_inv in Hup as (a & c & Ha & ->).
  apply (tree_grown_set_edge st key a); [done|]. by repeat split.
Qed.

Lemma updateConnectionEstimate_grown st (c d : Z) (s : State) (b : bool) st' :
  updateConnectionEstimate st c d s = Some (b, st') → tree_grown st st'.
Proof.
  unfold updateConnectionEstimate.
  destruct (getRegion st c) as [rc|]; [|done]. simpl.
  destruct (getRegion st d) as [rd|]; [|done]. simpl.
  destruct (regionsToEdge_ st !! (index rc, index rd)) as [a|] eqn:Ha; [|done].
  simpl. case_decide; [by intros [= <- <-]|].
  destruct (updateEdge _ _) as [st1|] eqn:Hup; [|done]. simpl.
  intros [= <- <-]. apply updateEdge_grown in Hup.
  etrans; [|exact Hup]. apply (tree_grown_set_edge st _ a); [done|].
  repeat split; try done. simpl. apply union_subseteq_r.
Qed.

Lemma enterRegion_grown (region k : Z) (s : State) st (b : bool) st' :
  enterRegion region k s st = Some (b, st') → tree_grown st st'.
Proof.
  unfold enterRegion.
  destruct (getRegion st k) as [r|]; [|done]. simpl.
  set (st1 := if decide (length (motions r) = 1%nat) then _ else st).
  assert (tree_grown st st1) as Hst1.
  { subst st1. case_decide; [|done].
    tree_grown_but. simpl. by apply prefix_app_r. }
  destruct (regionsToEdge_ st1 !! (region, k)) as [adj|] eqn:Hadj.
  - intros Hconn. apply updateConnectionEstimate_grown in Hconn.
    etrans; [exact Hst1|]. etrans; [|exact Hconn].
    apply (tree_grown_set_edge st1 _ adj); [done|].
    repeat split; try done; simpl; lia.
  - by intros [= <- <-].
Qed.

Lemma processMotion_grown (region : Z) m st pr (improved : bool) st' pr'
    improved' :
  processMotion region m st pr improved = Some (st', pr', improved') →
  tree_grown st st'.
Proof.
  unfold processMotion. destruct (isSatisfied (state m)) as [sat distance].
  destruct sat; [by intros [= <- _ _]|].
  destruct (fileMotion _ _ _ _) as [[covered st1]|] eqn:Hfile; [|done].
  simpl. apply fileMotion_grown in Hfile. case_decide.
  - destruct (enterRegion _ _ _ _) as [[connected st2]|] eqn:Henter; [|done].
    simpl. intros [= <- _ _]. apply enterRegion_grown in Henter. by etrans.
  - by intros [= <- _ _].
Qed.

Lemma selectRegion_grown st (k : Z) st' :
  selectRegion st = Some (k, st') → tree_grown st st'.
Proof.
  unfold selectRegion. simpl. destruct (availDist_ st) as [|e d]; [done|].
  change (getRegion (set_rng_ st (S (rng_ st)))) with (getRegion st).
  destruct (getRegion st _) as [r|] eqn:Hr; [|done]. simpl.
  intros [= _ <-].
  etrans; [|apply (tree_grown_setRegion (set_rng_ st (S (rng_ st))) _ r _ Hr)].
  - tree_grown_but.
  - apply updateRegion_grown. repeat split; try done. simpl. lia.
Qed.

Lemma expansion_step_grown st st' :
  expansion_step st st' → tree_grown st st'.
Proof.
  intros [st0|st0 k st1 Hsel|region m st0 pr improved st1 pr' improved' Hm|st0].
  - tree_grown_but.
  - by eapply selectRegion_grown.
  - by eapply processMotion_grown.
  - tree_grown_but.
Qed.

Lemma expansion_steps_grown st st' :
  rtc expansion_step st st' → tree_grown st st'.
Proof.
  induction 1 as [st|st1 st2 st3 Hstep _ IH]; [done|].
  etrans; [|exact IH]. by apply expansion_step_grown.
Qed.

(** X18.  The region-expansion loop of [solve] only adds to the graph: after
    any number of its steps every region has the motions it had, in the same
    order, as a prefix of its list, the coverage cells it had, a selection
    count that is no smaller, and the same index and volume estimates; every
    edge is still there with the coverage it had, a selection count that is
    no smaller and the same number of lead inclusions, and an edge the tree
    has crossed stays crossed; [availDist_] was extended at its end; the
    lead is the same. *)
Theorem tree_only_grows st st' :
  rtc expansion_step st st' → tree_grown st st'.
Proof. apply expansion_steps_grown. Qed.

(** ** The counter of motions *)

Lemma sum_list_with_insert {A : Type} (f : A → nat) (l : list A) (i : nat)
    (x y : A) :
  l !! i = Some x →
  (sum_list_with f (<[i := y]> l) + f x = sum_list_with f l + f y)%nat.
Proof.
  revert i. induction l as [|z l IH]; intros [|i] Hx; simpl in *; try done.
  - injection Hx as ->. lia.
  - specialize (IH i Hx). lia.
Qed.

Lemma filedMotions_setRegion st (k : Z) r r' :
  getRegion st k = Some r →
  filedMotions (setRegion st k r') =
    filedMotions st - Z.of_nat (length (motions r))
    + Z.of_nat (length (motions r')).
Proof.
  intros Hr. unfold getRegion, vec_get in Hr. case_decide; [|done].
  unfold filedMotions, setRegion, vec_set. simpl.
  pose proof (sum_list_with_insert (λ r, length (motions r))
                (graph_regions st) (Z.to_nat k) r r' Hr).
  simpl in *. lia.
Qed.

Lemma updateCoverageEstimate_count st (k : Z) (s : State) (b : bool) st' :
  updateCoverageEstimate st k s = Some (b, st') →
  numMotions_ st' = numMotions_ st ∧ filedMotions st' = filedMotions st.
Proof.
  unfold updateCoverageEstimate.
  destruct (getRegion st k) as [r|] eqn:Hr; [|done]. simpl.
  case_decide; intros [= <- <-]; [done|]. split; [done|].
  rewrite (filedMotions_setRegion st k r _ Hr).
  destruct (updateRegion_fields (set_covGridCells r
              ({[covGrid_locateRegion s]} ∪ covGridCells r)))
    as (_ & _ & _ & _ & _ & _ & ->).
  simpl. lia.
Qed.

Lemma fileMotion_count (k : Z) m (s : State) st (b : bool) st' :
  fileMotion k m s st = Some (b, st') →
  numMotions_ st' = numMotions_ st + 1 ∧
  filedMotions st' = filedMotions st + 1.
Proof.
  unfold fileMotion.
  destruct (getRegion st k) as [r|] eqn:Hr; [|done]. simpl.
  intros Hcover. apply updateCoverageEstimate_count in Hcover as [-> ->].
  split; [done|].
  change (filedMotions (set_numMotions_ ?x ?n)) with (filedMotions x).
  rewrite (filedMotions_setRegion st k r _ Hr). simpl.
  rewrite length_app. simpl. lia.
Qed.

Lemma processMotion_count (region : Z) m st pr (improved : bool) st' pr'
    improved' :
  processMotion region m st pr improved = Some (st', pr', improved') →
  numMotions_ st' - filedMotions st' = numMotions_ st - filedMotions st.
Proof.
  intros Hrun. destruct (isSatisfied (state m)).1 eqn:Hsat.
  - rewrite processMotion_goal in Hrun by done. by injection Hrun as <- _ _.
  - apply processMotion_inv in Hrun as (_ & b & st1 & Hfile & Hrest); [|done].
    apply fileMotion_count in Hfile as [Hn Hf].
    destruct Hrest as [->|(_ & b' & Henter)]; [lia|].
    apply enterRegion_inv in Henter as [-> _].
    change (numMotions_ (set_regionsToEdge_ (set_availDist_ st1 ?x) ?y))
      with (numMotions_ st1).
    change (filedMotions (set_regionsToEdge_ (set_availDist_ st1 ?x) ?y))
      with (filedMotions st1).
    lia.
Qed.

Lemma expansion_step_count st st' :
  expansion_step st st' →
  numMotions_ st' - filedMotions st' = numMotions_ st - filedMotions st.
Proof.
  intros [st0|st0 k st1 Hsel|region m st0 pr improved st1 pr' improved' Hm|st0].
  - done.
  - unfold selectRegion in Hsel. simpl in Hsel.
    destruct (availDist_ st0) as [|e d]; [done|].
    change (getRegion (set_rng_ st0 (S (rng_ st0)))) with (getRegion st0) in Hsel.
    destruct (getRegion st0 _) as [r|] eqn:Hr; [|done]. simpl in Hsel.
    injection Hsel as _ <-.
    rewrite (filedMotions_setRegion (set_rng_ st0 (S (rng_ st0))) _ r _ Hr).
    destruct (updateRegion_fields (set_numSelections r (numSelections r + 1)))
      as (_ & _ & _ & _ & _ & _ & ->).
    change (filedMotions (set_rng_ st0 ?n)) with (filedMotions st0).
    simpl. lia.
  - by eapply processMotion_count.
  - done.
Qed.

(** X19.  [numMotions_] counts the motions filed in the regions: when it
    does so before a start state is added or before steps of the
    region-expansion loop are taken, it does so afterwards.  (A motion that
    satisfies the goal is neither filed nor counted.) *)
Theorem numMotions_counts_filed st :
  numMotions_ st = filedMotions st →
  (∀ (s : State) st', addStart st s = Some st' →
                      numMotions_ st' = filedMotions st') ∧
  (∀ st', rtc expansion_step st st' → numMotions_ st' = filedMotions st').
Proof.
  intros Hcount. split.
  - intros s st'. unfold addStart.
    destruct (fileMotion _ _ _ _) as [[b st1]|] eqn:Hfile; [|done]. simpl.
    intros [= <-]. apply fileMotion_count in Hfile as [-> ->].
    change (numMotions_ (set_startRegions_ st ?x)) with (numMotions_ st).
    change (filedMotions (set_startRegions_ st ?x)) with (filedMotions st).
    lia.
  - intros st' Hsteps.
    assert (numMotions_ st' - filedMotions st' = numMotions_ st - filedMotions st)
      as Hsame; [|lia].
    clear Hcount. induction Hsteps as [st|st1 st2 st3 Hstep _ IH]; [done|].
    apply expansion_step_count in Hstep. lia.
Qed.

(** ** What [computeLead] writes *)

#[local] Instance lead_counted_refl : Reflexive (lead_counted (D := D)).
Proof. intros a. by repeat split. Qed.

#[local] Instance lead_counted_trans : Transitive (lead_counted (D := D)).
Proof.
  intros a1 a2 a3 (? & ? & He1 & ? & ? & ? & Hc1) (? & ? & ? & ? & ? & ? & Hc2).
  repeat split; try congruence; [lia|].
  intros Hcrossed. rewrite Hc2, Hc1; [done|done|]. by rewrite He1.
Qed.

Lemma searchLead_frame st (startRegion goalRegion : Z) st' :
  searchLead st startRegion goalRegion = Some st' →
  st' = set_rng_ (set_lead_ st (lead_ st')) (rng_ st').
Proof.
  unfold searchLead. simpl. destruct (d_lt _ _).
  - unfold shortestPathLead. destruct (astar_search _ _ _) as [parents|].
    + intros Hlead. apply leadFromParents_inv in Hlead as [-> _].
      by destruct st.
    + intros [= <-]. by destruct st.
  - intros Hlead. apply randomDFSLead_inv in Hlead as [-> _]. by destruct st.
Qed.

Lemma updateLeadEdges_counted (fuel : nat) (i : Z) st st' :
  updateLeadEdges fuel i st = Some st' →
  ∀ key, option_Forall2 lead_counted
           (regionsToEdge_ st !! key) (regionsToEdge_ st' !! key).
Proof.
  revert i st. induction fuel as [|fuel IH]; intros i st; simpl.
  - case_decide; [done|]. intros [= <-] key. reflexivity.
  - case_decide; [|intros [= <-] key; reflexivity].
    destruct (vec_get (lead_ st) i) as [u|]; [|done]. simpl.
    destruct (vec_get (lead_ st) (i + 1)) as [v|]; [|done]. simpl.
    destruct (regionsToEdge_ st !! (u, v)) as [adj|] eqn:Hadj; [|done]. simpl.
    destruct (adj_empty adj) eqn:Hempty.
    + destruct (updateEdge _ _) as [st1|] eqn:Hup; [|done]. simpl.
      intros Hrest key. etrans; [|by eapply IH].
      apply updateEdge_inv in Hup as (a1 & c & Ha1 & ->). simpl in *.
      rewrite lookup_insert_eq in Ha1. injection Ha1 as <-.
      rewrite insert_insert_eq.
      destruct (decide ((u, v) = key)) as [<-|Hne].
      * rewrite lookup_insert_eq, Hadj. constructor.
        repeat split; simpl; try done; [lia|]. by rewrite Hempty.
      * rewrite lookup_insert_ne by done. reflexivity.
    + simpl. apply IH.
Qed.

Lemma computeLead_inv st (startRegion goalRegion : Z) st' :
  computeLead st startRegion goalRegion = Some st' →
  st' = set_rng_
          (set_lead_ (set_regionsToEdge_ st (regionsToEdge_ st')) (lead_ st'))
          (rng_ st') ∧
  ∀ key, option_Forall2 lead_counted
           (regionsToEdge_ st !! key) (regionsToEdge_ st' !! key).
Proof.
  unfold computeLead. case_decide.
  - intros [= <-]. split; [by destruct st|]. intros key. reflexivity.
  - destruct (searchLead _ _ _) as [st1|] eqn:Hsearch; [|done].
    intros Hupdate.
    change (updateLeadEdges (S (length (lead_ st1))) 0 st1 = Some st')
      in Hupdate.
    apply searchLead_frame in Hsearch.
    pose proof (updateLeadEdges_counted _ _ _ _ Hupdate) as Hedges.
    apply updateLeadEdges_inv in Hupdate as [Hst' _]. split.
    + rewrite Hst', Hsearch. by destruct st.
    + intros key. specialize (Hedges key). by rewrite Hsearch in Hedges.
Qed.

(** X12.  [computeLead] writes [lead_], advances the random number
    generator, and updates edges the tree has not crossed: such an edge may
    be included in one more lead, and its cost is recomputed.  An edge the
    tree has crossed, the regions and everything else are left as they are;
    no edge is added or removed. *)
Theorem computeLead_frame st (startRegion goalRegion : Z) st' :
  computeLead st startRegion goalRegion = Some st' →
  st' = set_rng_
          (set_lead_ (set_regionsToEdge_ st (regionsToEdge_ st')) (lead_ st'))
          (rng_ st') ∧
  ∀ key, option_Forall2 lead_counted
           (regionsToEdge_ st !! key) (regionsToEdge_ st' !! key).
Proof. apply computeLead_inv. Qed.

(** ** What [solve] reports *)

Lemma processMotion_reported (region : Z) m st pr (improved : bool) st' pr'
    improved' :
  reported pr → solved pr = false →
  processMotion region m st pr improved = Some (st', pr', improved') →
  reported pr'.
Proof.
  intros Hpr Hunsolved. unfold processMotion.
  destruct (isSatisfied (state m)) as [sat distance] eqn:Hsat.
  destruct sat.
  - intros [= _ <- _]. unfold reported. simpl. by rewrite Hsat.
  - destruct (fileMotion _ _ _ _) as [[covered st1]|]; [|done]. simpl.
    assert (reported
              (if d_lt distance (goalDist pr)
               then {| solution := Some m; goalDist := distance; solved := false |}
               else {| solution := solution pr; goalDist := goalDist pr;
                       solved := false |})) as Hpr1.
    { destruct (d_lt _ _); unfold reported; simpl; [by rewrite Hsat|].
      unfold reported in Hpr. destruct (solution pr); [|done].
      destruct Hpr as [<- <-]. done. }
    case_decide.
    + destruct (enterRegion _ _ _ _) as [[connected st2]|]; [|done]. simpl.
      by intros [= _ <- _].
    + by intros [= _ <- _].
Qed.

Lemma processNewMotions_reported (region : Z) (ms : list Motion) st pr
    (improved : bool) st' pr' improved' :
  reported pr → solved pr = false →
  processNewMotions region ms st pr improved = Some (st', pr', improved') →
  reported pr'.
Proof.
  revert st pr improved. induction ms as [|m ms IH];
    intros st pr improved Hpr Hunsolved; simpl.
  - by intros [= _ <- _].
  - destruct (ptc (ptc_polls st)); [by intros [= _ <- _]|].
    destruct (processMotion _ _ _ _ _) as [[[st2 pr1] improved1]|] eqn:Hstep;
      [|done].
    simpl. apply processMotion_reported in Hstep; [|done|done].
    destruct (solved pr1) eqn:Hsolved; [by intros [= _ <- _]|].
    by apply IH.
Qed.

Lemma treeSelections_reported (n : nat) (region : Z) st pr (improved : bool)
    st' pr' improved' :
  reported pr →
  treeSelections n region st pr improved = Some (st', pr', improved') →
  reported pr'.
Proof.
  revert st pr improved. induction n as [|n IH]; intros st pr improved Hpr; simpl.
  - by intros [= _ <- _].
  - destruct (solved pr) eqn:Hsolved; [by intros [= _ <- _]|].
    destruct (ptc (ptc_polls st)); [by intros [= _ <- _]|].
    destruct (processNewMotions _ _ _ _ _) as [[[st2 pr1] improved1]|] eqn:Hstep;
      [|done].
    simpl. apply processNewMotions_reported in Hstep; [|done|done].
    by apply IH.
Qed.

Lemma regionExpansions_reported (n : nat) st pr st' pr' :
  reported pr →
  regionExpansions n st pr = Some (st', pr') → reported pr'.
Proof.
  revert st pr. induction n as [|n IH]; intros st pr Hpr; simpl.
  - by intros [= _ <-].
  - destruct (solved pr) eqn:Hsolved; [by intros [= _ <-]|].
    destruct (ptc (ptc_polls st)); [by intros [= _ <-]|].
    destruct (selectRegion _) as [[region st2]|]; [|done]. simpl.
    destruct (treeSelections _ _ _ _ _) as [[[st3 pr1] improved]|] eqn:Hstep;
      [|done].
    simpl. apply treeSelections_reported in Hstep; [|done].
    destruct improved; [by apply IH|].
    destruct (d_lt _ _); [by intros [= _ <-]|by apply IH].
Qed.

Lemma availableLoop_paths (n : nat) st st' :
  availableLoop n st = Some st' → solutionPaths st' = solutionPaths st.
Proof.
  revert st. induction n as [|n IH]; intros st; simpl.
  - by intros [= <-].
  - destruct (lead_ st !! n) as [k|]; [|done]. simpl.
    destruct (getRegion st k) as [r|]; [|done]. simpl.
    destruct (motions r); [apply IH|].
    destruct (d_ge _ _); [by intros [= <-]|].
    intros Hrest. by apply IH in Hrest.
Qed.

Lemma chooseGoalRegion_paths st :
  solutionPaths (chooseGoalRegion st).2 = solutionPaths st.
Proof.
  unfold chooseGoalRegion. destruct (pis_goals st) as [|g goals].
  - by rewrite decide_True.
  - by case_decide.
Qed.

Lemma mainLoop_reports (fuel : nat) st pr st' pr' :
  reported pr →
  mainLoop fuel st pr = Some (st', pr') →
  reported pr' ∧ solutionPaths st' = solutionPaths st.
Proof.
  revert st pr. induction fuel as [|fuel IH]; intros st pr Hpr; simpl; [done|].
  destruct (ptc (ptc_polls st)); [by intros [= <- <-]|].
  destruct (solved pr); [by intros [= <- <-]|].
  pose proof (chooseGoalRegion_paths
                (set_rng_ (set_ptc_polls st (S (ptc_polls st)))
                   (S (rng_ (set_ptc_polls st (S (ptc_polls st)))))))
    as Hchoose.
  destruct (chooseGoalRegion _) as [chosenGoalRegion st3]. simpl in Hchoose.
  destruct (computeLead _ _ _) as [st4|] eqn:Hlead; [|done]. simpl.
  destruct (computeAvailableRegions st4) as [st5|] eqn:Havail; [|done]. simpl.
  destruct (regionExpansions _ _ _) as [[st6 pr1]|] eqn:Hexpand; [|done]. simpl.
  intros Hrest. apply IH in Hrest as [Hpr' Hpaths].
  - split; [done|]. rewrite Hpaths.
    apply regionExpansions_steps, expansion_steps_grown in Hexpand
      as (_ & _ & _ & Hsame).
    destruct Hsame as (_ & _ & _ & _ & _ & _ & _ & _ & _ & -> & _).
    apply availableLoop_paths in Havail. rewrite Havail. simpl.
    apply computeLead_inv in Hlead as [-> _]. simpl. done.
  - by eapply regionExpansions_reported.
Qed.

(** X21.  [solve] returns [true] exactly when it hands a path to the goal,
    and it hands over at most one: the path of a motion [m], marked
    approximate exactly when the state of [m] does not satisfy the goal,
    with the distance the goal gave for that state.  When [solve] returns
    [false] the solution paths are untouched. *)
Theorem solve_reports (fuel : nat) st (b : bool) st' :
  solve fuel st = Some (b, st') →
  if b then
    ∃ m, solutionPaths st' =
           solutionPaths st ++
           [{| sol_path := pathEntry <$> reverse (mpath m);
               sol_approximate := negb (isSatisfied (state m)).1;
               sol_difference := (isSatisfied (state m)).2 |}]
  else solutionPaths st' = solutionPaths st.
Proof.
  unfold solve.
  destruct (setupEstimates st) as [st1|] eqn:Hsetup; [|done]. simpl.
  destruct (addStarts _ _) as [st2|] eqn:Hstarts; [|done]. simpl.
  assert (solutionPaths st2 = solutionPaths st) as Hpaths.
  { apply addStarts_frame in Hstarts as (_ & _ & _ & ->); [|done].
    apply setupEstimates_frame in Hsetup as [_ ->]. done. }
  assert (∀ st3, solutionPaths st3 = solutionPaths st →
                 plan fuel st3 = Some (b, st') →
                 if b then
                   ∃ m, solutionPaths st' =
                          solutionPaths st ++
                          [{| sol_path := pathEntry <$> reverse (mpath m);
                              sol_approximate := negb (isSatisfied (state m)).1;
                              sol_difference := (isSatisfied (state m)).2 |}]
                 else solutionPaths st' = solutionPaths st) as Hplan.
  { intros st3 Hst3. unfold plan.
    destruct (mainLoop _ _ _) as [[st4 pr]|] eqn:Hloop; [|done]. simpl.
    apply mainLoop_reports in Hloop as [Hpr Hst4]; [|done].
    simpl in Hst4. unfold addSolution, reported in *.
    destruct (solution pr) as [m|].
    - intros [= <- <-]. exists m. simpl. destruct Hpr as [-> ->].
      by rewrite Hst4, Hst3.
    - intros [= <- <-]. by rewrite Hst4, Hst3. }
  case_decide; [by intros [= <- <-]|].
  case_decide; [|by apply Hplan].
  destruct (pis_goals st2) as [|g goals]; [by intros [= <- <-]|].
  by apply Hplan.
Qed.

(** ** The region-expansion loop is defined *)

Lemma selectRegion_well_formed st (k : Z) st' :
  well_formed st → selectRegion st = Some (k, st') → well_formed st'.
Proof.
  intros Hwf. unfold selectRegion. simpl.
  destruct (availDist_ st) as [|e d]; [done|].
  change (getRegion (set_rng_ st (S (rng_ st)))) with (getRegion st).
  destruct (getRegion st _) as [r|] eqn:Hr; [|done]. simpl.
  intros [= _ <-].
  apply (well_formed_setRegion (set_rng_ st (S (rng_ st))) _ _ r); [done|done|].
  by destruct (updateRegion_fields (set_numSelections r (numSelections r + 1)))
    as (-> & _).
Qed.

Lemma expansion_step_expandable st st' :
  expansion_step st st' → expandable st → expandable st'.
Proof.
  intros Hstep (Hwf & Havail & Hkeys). split; [|split].
  - destruct Hstep
      as [st0|st0 k st1 Hsel|region m st0 pr improved st1 pr' improved' Hm|st0].
    + done.
    + by eapply selectRegion_well_formed.
    + by eapply processMotion_well_formed.
    + done.
  - apply expansion_step_grown in Hstep as (_ & _ & [d Hd] & _).
    rewrite Hd. intros [? _]%app_eq_nil. done.
  - by eapply expansion_step_keeps_keys.
Qed.

Lemma expansion_steps_expandable st st' :
  rtc expansion_step st st' → expandable st → expandable st'.
Proof.
  induction 1 as [st|st1 st2 st3 Hstep _ IH]; [done|].
  intros Hst1. by eapply IH, expansion_step_expandable.
Qed.

Lemma selectRegion_defined st :
  (∀ (d : list (Z * D)) (u : D), d ≠ [] → pdf_sample d u ∈ d.*1) →
  expandable st → is_Some (selectRegion st).
Proof.
  intros Hpdf (_ & Havail & Hkeys). unfold selectRegion. simpl.
  specialize (Hpdf (availDist_ st) (uniform01 (rng_ st)) Havail).
  destruct (availDist_ st) as [|e d] eqn:Hd; [done|].
  change (getRegion (set_rng_ st (S (rng_ st)))) with (getRegion st).
  apply list_elem_of_fmap in Hpdf as ([k w] & Hk & Hin). simpl in Hk.
  rewrite <- Hd in Hin. destruct (Hkeys k w Hin) as (r & Hr & _).
  rewrite Hk, Hr. simpl. by eexists.
Qed.

Lemma treeSelections_defined (n : nat) (region : Z) st pr (improved : bool) :
  (∀ st1 (k : Z) m, m ∈ selectAndExtend st1 k →
                    is_Some (getRegion st1 (locateRegion (state m)))) →
  expandable st →
  ∃ st' pr' (improved' : bool),
    treeSelections n region st pr improved = Some (st', pr', improved') ∧
    expandable st'.
Proof.
  intros Hplanner. revert st pr improved.
  induction n as [|n IH]; intros st pr improved Hst; simpl.
  - by exists st, pr, improved.
  - destruct (solved pr); [by exists st, pr, improved|].
    destruct (ptc (ptc_polls st)).
    { eexists _, pr, improved. split; [done|].
      apply (expansion_step_expandable st); [|done]. apply step_poll. }
    set (st1 := set_ptc_polls st (S (ptc_polls st))).
    assert (expandable st1) as Hst1.
    { apply (expansion_step_expandable st); [|done]. apply step_poll. }
    destruct (processNewMotions_files region (selectAndExtend st1 region) st1 pr
                improved)
      as (st2 & pr1 & improved1 & _ & Hrun & _); [by destruct Hst1| |].
    { intros m Hm. by eapply Hplanner. }
    rewrite Hrun. simpl. apply IH.
    apply processNewMotions_steps in Hrun.
    by apply (expansion_steps_expandable st1).
Qed.

(** X16.  The region-expansion loop of [solve] has a defined result: it
    never samples an empty distribution, selects a region that does not
    exist or files a motion outside the graph.  This holds when the graph is
    well formed, [availDist_] is not empty and holds regions with motions,
    [PDF::sample] returns an element of the distribution, and the tree
    planner returns motions whose states lie in regions of the graph.  The
    same is then true after the loop. *)
Theorem regionExpansions_defined (n : nat) st pr :
  (∀ (d : list (Z * D)) (u : D), d ≠ [] → pdf_sample d u ∈ d.*1) →
  (∀ st1 (k : Z) m, m ∈ selectAndExtend st1 k →
                    is_Some (getRegion st1 (locateRegion (state m)))) →
  expandable st →
  ∃ st' pr', regionExpansions n st pr = Some (st', pr') ∧ expandable st'.
Proof.
  intros Hpdf Hplanner. revert st pr.
  induction n as [|n IH]; intros st pr Hst; simpl.
  - by exists st, pr.
  - destruct (solved pr); [by exists st, pr|].
    assert (expandable (set_ptc_polls st (S (ptc_polls st)))) as Hst1.
    { apply (expansion_step_expandable st); [|done]. apply step_poll. }
    destruct (ptc (ptc_polls st)); [by eexists _, pr|].
    destruct (selectRegion_defined _ Hpdf Hst1) as [[region st2] Hsel].
    rewrite Hsel. simpl.
    assert (expandable st2) as Hst2.
    { eapply expansion_step_expandable; [|exact Hst1]. by eapply step_select. }
    destruct (treeSelections_defined
                (Z.to_nat (numTreeSelections_ (config st2))) region st2 pr false
                Hplanner Hst2)
      as (st3 & pr1 & improved & Htree & Hst3).
    rewrite Htree. simpl. destruct improved; [by apply IH|].
    assert (expandable (set_rng_ st3 (S (rng_ st3)))) as Hst4.
    { apply (expansion_step_expandable st3); [|done]. apply step_draw. }
    destruct (d_lt _ _); [by eexists _, pr1|by apply IH].
Qed.

(** ** The graph [setup] builds *)

Lemma addVertices_spec (n : nat) st :
  addVertices n st =
    set_graph_out
      (set_graph_regions st
         (graph_regions st ++
          ((λ i, initRegion (blankRegion i))
             <$> seqZ (Z.of_nat (length (graph_regions st))) (Z.of_nat n))))
      (graph_out st ++ replicate n []).
Proof.
  revert st. induction n as [|n IH]; intros st.
  - simpl. rewrite !app_nil_r. by destruct st.
  - simpl addVertices. rewrite IH. simpl. rewrite length_app. simpl.
    rewrite <- !app_assoc. simpl.
    replace (Z.of_nat (S n)) with (Z.succ (Z.of_nat n)) by lia.
    rewrite (seqZ_cons (Z.of_nat (length (graph_regions st)))
               (Z.succ (Z.of_nat n))) by lia.
    simpl.
    replace (Z.pred (Z.succ (Z.of_nat n))) with (Z.of_nat n) by lia.
    replace (Z.succ (Z.of_nat (length (graph_regions st))))
      with (Z.of_nat (length (graph_regions st) + 1)) by lia.
    done.
Qed.

Lemma building_getRegion (n : Z) st (i : Z) :
  building n st → 0 ≤ i < n →
  getRegion st i = Some (initRegion (blankRegion i)).
Proof.
  intros (Hregions & _) Hi. unfold getRegion, vec_get.
  rewrite decide_True by lia. rewrite Hregions, list_lookup_fmap.
  rewrite (lookup_seqZ_lt 0 n (Z.to_nat i)) by lia. simpl. f_equal. f_equal.
  f_equal. lia.
Qed.

Lemma addEdges_fresh (n : Z) (vi : Z) (js : list Z) st (outs : list Z) :
  building n st → 0 ≤ vi < n →
  vec_get (graph_out st) vi = Some outs →
  (∀ j, j ∈ js → 0 ≤ j < n) →
  ∃ st',
    foldM (addEdge vi) st js = Some st' ∧ building n st' ∧
    graph_out st' = vec_set (graph_out st) vi (outs ++ js) ∧
    ∀ key : Z * Z,
      regionsToEdge_ st' !! key =
        if decide (key.1 = vi ∧ key.2 ∈ js)
        then Some (blankAdjacency key.1 key.2)
        else regionsToEdge_ st !! key.
Proof.
  intros Hst Hvi. revert st outs Hst.
  induction js as [|j js IH]; intros st outs Hst Houts Hjs; simpl.
  - exists st. split; [done|]. split; [done|]. split.
    + rewrite app_nil_r. unfold vec_set. symmetry. apply list_insert_id.
      unfold vec_get in Houts. by case_decide.
    + intros key. rewrite decide_False; [done|].
      intros [_ Hin]. by apply elem_of_nil in Hin.
  - set (st1 := set_graph_out st (vec_set (graph_out st) vi (outs ++ [j]))).
    assert (building n st1) as Hst1.
    { destruct Hst as (? & Hlen & ?). split; [done|]. split; [|done].
      simpl. by rewrite vec_set_length. }
    set (st2 := set_regionsToEdge_ st1
                  (<[(vi, j) := blankAdjacency vi j]> (regionsToEdge_ st1))).
    assert (addEdge vi st j = Some st2) as Hadd.
    { unfold addEdge. rewrite Houts. simpl. fold st1. unfold initEdge.
      rewrite (building_getRegion n st1 vi Hst1 Hvi).
      rewrite (building_getRegion n st1 j Hst1) by (apply Hjs; by left).
      simpl. unfold edgeCost. destruct Hst1 as (_ & _ & ->). done. }
    rewrite Hadd. simpl.
    destruct (IH st2 (outs ++ [j])) as (st' & Hrun & Hst' & Hout & Hedges).
    + done.
    + simpl. apply vec_get_set_eq. by exists outs.
    + intros j' Hj'. apply Hjs. by right.
    + exists st'. split; [done|]. split; [done|]. split.
      * rewrite Hout. simpl. unfold vec_set.
        rewrite list_insert_insert_eq, <- app_assoc. done.
      * intros key. rewrite Hedges. simpl.
        destruct (decide (key.1 = vi ∧ key.2 ∈ js)) as [[Hk Hin]|Hnot].
        { rewrite decide_True; [done|]. split; [done|]. by right. }
        destruct (decide (key = (vi, j))) as [->|Hne].
        { rewrite lookup_insert_eq. simpl. rewrite decide_True; [done|].
          split; [done|]. by left. }
        rewrite lookup_insert_ne by done.
        rewrite decide_False; [done|]. intros [Hk [Hj|Hin]%elem_of_cons].
        -- apply Hne. destruct key. simpl in *. by subst.
        -- by apply Hnot.
Qed.

Lemma addAllEdges_fresh (n : Z) (vs : list Z) st :
  building n st → NoDup vs →
  (∀ vi, vi ∈ vs → 0 ≤ vi < n ∧ ∀ j, j ∈ getNeighbors vi → 0 ≤ j < n) →
  ∃ st',
    foldM (λ st2 vi, foldM (addEdge vi) st2 (getNeighbors vi)) st vs = Some st' ∧
    building n st' ∧
    (∀ v : Z,
       vec_get (graph_out st') v =
         if decide (v ∈ vs)
         then (λ outs, outs ++ getNeighbors v) <$> vec_get (graph_out st) v
         else vec_get (graph_out st) v) ∧
    ∀ key : Z * Z,
      regionsToEdge_ st' !! key =
        if decide (key.1 ∈ vs ∧ key.2 ∈ getNeighbors key.1)
        then Some (blankAdjacency key.1 key.2)
        else regionsToEdge_ st !! key.
Proof.
  revert st. induction vs as [|vi vs IH]; intros st Hst Hnodup Hvs.
  - exists st. split; [done|]. split; [done|]. split.
    + intros v. rewrite decide_False; [done|]. by intros ?%elem_of_nil.
    + intros key. rewrite decide_False; [done|]. by intros [?%elem_of_nil _].
  - apply NoDup_cons in Hnodup as [Hvi Hnodup].
    destruct (Hvs vi) as [Hrange Hneighbors]; [by left|].
    destruct (vec_get_is_Some (graph_out st) vi) as [outs Houts].
    { destruct Hst as (_ & -> & _). lia. }
    destruct (addEdges_fresh n vi (getNeighbors vi) st outs Hst Hrange Houts
                Hneighbors)
      as (st1 & Hrun1 & Hst1 & Hout1 & Hedges1).
    cbn [foldM]. rewrite Hrun1. cbn [mbind option_bind].
    destruct (IH st1 Hst1 Hnodup) as (st' & Hrun & Hst' & Hout & Hedges).
    { intros v Hv. apply Hvs. by right. }
    exists st'. split; [done|]. split; [done|]. split.
    + intros v. rewrite Hout, Hout1.
      rewrite (vec_get_set _ _ _ _ outs Houts).
      destruct (decide (v ∈ vs)) as [Hv|Hv];
        destruct (decide (vi = v)) as [<-|Hne];
        destruct (decide (_ ∈ _ :: vs)) as [Hin|Hin]; try done;
        try (exfalso; apply Hin; apply elem_of_cons; auto; fail).
      * by rewrite Houts.
      * by apply elem_of_cons in Hin as [?|?].
    + intros key. rewrite Hedges, Hedges1.
      destruct (decide (key.1 ∈ vs ∧ key.2 ∈ getNeighbors key.1))
        as [[Hk Hin]|Hnot];
        destruct (decide (key.1 = vi ∧ key.2 ∈ getNeighbors vi))
          as [[Hk' Hin']|Hnot'];
        destruct (decide (key.1 ∈ vi :: vs ∧ _)) as [[Hk'' Hin'']|Hnot''];
        try done.
      * exfalso. apply Hnot''. split; [|done]. apply elem_of_cons. by right.
      * exfalso. apply Hnot''. split; [|done]. apply elem_of_cons. by right.
      * exfalso. apply Hnot''. split; [|by rewrite Hk']. apply elem_of_cons.
        by left.
      * exfalso. apply elem_of_cons in Hk'' as [Hk''|Hk''].
        -- apply Hnot'. split; [done|]. by rewrite <- Hk''.
        -- by apply Hnot.
Qed.

(** X1.  [setup] on a planner that has no graph and no edge cost factor yet:
    the graph gets one vertex per region of the decomposition, initialised
    by [initRegion] and without motions or coverage, and one edge for every
    neighbour the decomposition lists, stored under the pair of region
    numbers.  The cost of every edge is [1.0], since the default edge cost
    is installed as a factor only after the edges were initialised.  The
    neighbours the decomposition lists must be regions. *)
Theorem setup_fresh st :
  graph_regions st = [] → graph_out st = [] → regionsToEdge_ st = ∅ →
  edgeCostFactors_ st = [] →
  0 ≤ getNumRegions →
  (∀ i j, 0 ≤ i < getNumRegions → j ∈ getNeighbors i →
          0 ≤ j < getNumRegions) →
  ∃ st',
    setup st = Some st' ∧
    Z.of_nat (length (graph_regions st')) = getNumRegions ∧
    (∀ i, 0 ≤ i < getNumRegions →
          ∃ r, getRegion st' i = Some r ∧ index r = i ∧
               numSelections r = 0 ∧ volume r = d_one ∧
               percentValidCells r = d_one ∧ freeVolume r = d_one ∧
               covGridCells r = ∅ ∧ motions r = []) ∧
    graph_out st' = getNeighbors <$> seqZ 0 getNumRegions ∧
    (∀ i j,
       if decide (0 ≤ i < getNumRegions ∧ j ∈ getNeighbors i)
       then ∃ a, regionsToEdge_ st' !! (i, j) = Some a ∧
                 source a = i ∧ target a = j ∧ cost a = d_one
       else regionsToEdge_ st' !! (i, j) = None) ∧
    edgeCostFactors_ st' = [DefaultEdgeCost] ∧
    well_formed st'.
Proof.
  intros Hregions Hout Hedges Hfactors Hnum Hneighbors.
  unfold setup, buildGraph.
  set (n := getNumRegions) in *.
  set (st1 := addVertices (Z.to_nat n) st).
  assert (building n st1 ∧ graph_out st1 = replicate (Z.to_nat n) [] ∧
          regionsToEdge_ st1 = ∅) as (Hst1 & Hout1 & Hedges1).
  { subst st1. rewrite addVertices_spec, Hregions, Hout. simpl.
    rewrite Z2Nat.id by done. split; [|done].
    split; [done|]. split; [|done]. simpl. by rewrite length_replicate. }
  assert (vertices st1 = seqZ 0 n) as Hvertices.
  { unfold vertices. destruct Hst1 as (-> & _).
    rewrite length_fmap, length_seqZ. by rewrite Z2Nat.id. }
  destruct (addAllEdges_fresh n (seqZ 0 n) st1 Hst1)
    as (st2 & Hrun & Hst2 & Hout2 & Hedges2).
  { apply NoDup_seqZ. }
  { intros vi Hvi%elem_of_seqZ. split; [lia|].
    intros j Hj. apply (Hneighbors vi j); [lia|done]. }
  rewrite Hvertices, Hrun. simpl. eexists. split; [done|].
  destruct Hst2 as (Hregions2 & Hlen2 & Hfactors2) eqn:Hbuilding.
  assert (∀ key a, regionsToEdge_ st2 !! key = Some a →
                   (0 ≤ key.1 < n ∧ key.2 ∈ getNeighbors key.1) ∧
                   a = blankAdjacency key.1 key.2) as Hedge.
  { intros key a. rewrite Hedges2, Hedges1, lookup_empty.
    case_decide as Hkey; [|done]. intros [= <-].
    destruct Hkey as [Hk%elem_of_seqZ ?]. split; [|done]. split; [lia|done]. }
  split; [|split; [|split; [|split; [|split]]]].
  - simpl. rewrite Hregions2, length_fmap, length_seqZ. lia.
  - intros i Hi. exists (initRegion (blankRegion i)).
    change (getRegion (addEdgeCostFactor st2 DefaultEdgeCost)) with (getRegion st2).
    split; [by apply (building_getRegion n)|done].
  - simpl. apply list_eq. intros k.
    rewrite list_lookup_fmap.
    destruct (decide (k < Z.to_nat n)%nat) as [Hk|Hk].
    + rewrite (lookup_seqZ_lt 0 n k) by lia. simpl.
      assert (vec_get (graph_out st1) (Z.of_nat k) = Some []) as Hk1.
      { unfold vec_get. rewrite decide_True by lia.
        rewrite Nat2Z.id, Hout1. by apply lookup_replicate_2. }
      pose proof (Hout2 (Z.of_nat k)) as Hv. rewrite Hk1 in Hv.
      rewrite decide_True in Hv by (apply elem_of_seqZ; lia).
      unfold vec_get in Hv. rewrite decide_True in Hv by lia.
      rewrite Nat2Z.id in Hv. rewrite Hv. simpl. by do 2 f_equal.
    + rewrite lookup_seqZ_ge by lia. simpl.
      apply lookup_ge_None. lia.
  - intros i j. simpl. rewrite (Hedges2 (i, j)), Hedges1, lookup_empty. simpl.
    destruct (decide (0 ≤ i < n ∧ j ∈ getNeighbors i)) as [[Hi Hj]|Hnot].
    + rewrite decide_True by (split; [apply elem_of_seqZ; lia|done]).
      by eexists.
    + rewrite decide_False; [done|].
      intros [Hi%elem_of_seqZ Hj]. apply Hnot. split; [lia|done].
  - simpl. by rewrite Hfactors2.
  - split.
    + simpl. unfold vertices. simpl. rewrite Hregions2.
      rewrite length_fmap, length_seqZ, Z2Nat.id by done.
      rewrite <- list_fmap_compose.
      rewrite <- (list_fmap_id (seqZ 0 n)) at 2. by apply list_fmap_ext.
    + simpl. intros key a Ha. apply Hedge in Ha as [[Hk Hin] ->]. simpl.
      rewrite Hregions2, length_fmap, length_seqZ, Z2Nat.id by done.
      split; [by destruct key|]. split; [done|].
      by apply (Hneighbors key.1).
Qed.

(** ** The initial estimates of the edges *)

Lemma edgeCost_local st st' a key :
  well_formed st → regionsToEdge_ st !! key = Some a →
  graph_regions st' = graph_regions st →
  edgeCostFactors_ st' = edgeCostFactors_ st →
  regionsToEdge_ st' !! key = regionsToEdge_ st !! key →
  edgeCost st' a = edgeCost st a.
Proof.
  intros Hwf Ha Hregions Hfactors Hkey. unfold edgeCost. rewrite Hfactors.
  clear Hfactors.
  destruct (well_formed_edge st key a Hwf Ha) as (-> & [src Hsrc] & [tgt Htgt]).
  generalize (d_one (D := D)). induction (edgeCostFactors_ st) as [|f fs IH];
    intros c; simpl; [done|].
  unfold getRegion in *. rewrite Hregions, Hsrc, Htgt. simpl.
  rewrite (well_formed_index st _ _ Hwf Hsrc), (well_formed_index st _ _ Hwf Htgt).
  assert (callFactor st' f (source a) (target a)
          = callFactor st f (source a) (target a)) as ->.
  { destruct f; [|done]. simpl. unfold defaultEdgeCost, getRegion.
    by rewrite Hkey, Hregions. }
  destruct (callFactor st f (source a) (target a)); [|done]. simpl. apply IH.
Qed.

Lemma resetEdge_inv st (e : Z * Z) a :
  well_formed st → regionsToEdge_ st !! e = Some a →
  ∃ c : D,
    let a' :=
      set_cost
        (set_adj_numSelections (set_numLeadInclusions (set_adj_empty a true) 0) 0)
        c in
    let st' := set_regionsToEdge_ st (<[e := a']> (regionsToEdge_ st)) in
    resetEdge st e = Some st' ∧ well_formed st' ∧ edgeCost st' a' = Some c.
Proof.
  intros Hwf Ha. unfold resetEdge, edgeKey.
  destruct (well_formed_edge st e a Hwf Ha) as (He & [src Hsrc] & [tgt Htgt]).
  assert (getRegion st e.1 = Some src ∧ getRegion st e.2 = Some tgt) as [-> ->].
  { by rewrite He. }
  simpl.
  rewrite (well_formed_index st _ _ Hwf Hsrc), (well_formed_index st _ _ Hwf Htgt).
  rewrite <- He, Ha. simpl.
  set (a1 := set_adj_numSelections _ 0).
  set (st1 := set_regionsToEdge_ st (<[e := a1]> (regionsToEdge_ st))).
  assert (well_formed st1) as Hwf1 by by apply (well_formed_set_edge st e a1 a).
  assert (regionsToEdge_ st1 !! e = Some a1) as Ha1.
  { simpl. by rewrite lookup_insert_eq. }
  unfold updateEdge. rewrite Ha1. simpl.
  destruct (edgeCostLoop_defined st1 a1 (edgeCostFactors_ st1) d_one Hwf1)
    as [c Hc].
  { change (source a1, target a1) with (source a, target a).
    by rewrite <- He. }
  exists c. unfold edgeCost at 1. rewrite Hc. simpl.
  rewrite insert_insert_eq. split; [done|]. split.
  - by apply (well_formed_set_edge st e _ a).
  - pose proof (edgeCost_set_cost st1 e a1 c a1 Ha1) as Hsame.
    change (edgeCost
              (set_regionsToEdge_ st
                 (<[e := set_cost a1 c]> (<[e := a1]> (regionsToEdge_ st))))
              (set_cost a1 c) = edgeCost st1 a1) in Hsame.
    rewrite insert_insert_eq in Hsame. by rewrite Hsame.
Qed.

Lemma resetEdges_spec (es : list (Z * Z)) st :
  well_formed st →
  (∀ e, e ∈ es → is_Some (regionsToEdge_ st !! e)) →
  ∃ st',
    foldM resetEdge st es = Some st' ∧ well_formed st' ∧
    st' = set_regionsToEdge_ st (regionsToEdge_ st') ∧
    ∀ key a,
      regionsToEdge_ st !! key = Some a →
      ∃ a', regionsToEdge_ st' !! key = Some a' ∧
            if decide (key ∈ es)
            then reset_of a a' ∧ edgeCost st' a' = Some (cost a')
            else a' = a.
Proof.
  revert st. induction es as [|e es IH]; intros st Hwf Hes.
  - exists st. split; [done|]. split; [done|]. split; [by destruct st|].
    intros key a Ha. exists a. split; [done|]. rewrite decide_False; [done|].
    by intros ?%elem_of_nil.
  - destruct (Hes e) as [a0 Ha0]; [by left|].
    destruct (resetEdge_inv st e a0 Hwf Ha0) as (c & Hrun & Hwf2 & Hcost).
    cbv zeta in Hrun, Hwf2, Hcost.
    set (a2 := set_cost _ c) in *.
    set (st2 := set_regionsToEdge_ st (<[e := a2]> (regionsToEdge_ st))) in *.
    destruct (IH st2 Hwf2) as (st' & Hrest & Hwf' & Hframe & Hedges).
    { intros e' He'. simpl. destruct (decide (e = e')) as [<-|Hne].
      - rewrite lookup_insert_eq. by eexists.
      - rewrite lookup_insert_ne by done. apply Hes. by right. }
    exists st'. cbn [foldM]. rewrite Hrun. cbn [mbind option_bind].
    split; [done|]. split; [done|]. split; [by rewrite Hframe|].
    intros key a Ha. destruct (decide (key = e)) as [->|Hne].
    + rewrite Ha0 in Ha. injection Ha as <-.
      destruct (Hedges e a2) as (a' & Ha' & Hcase).
      { simpl. by rewrite lookup_insert_eq. }
      exists a'. split; [done|]. rewrite decide_True by by left.
      destruct (decide (e ∈ es)) as [Hin|Hnotin].
      * destruct Hcase as [(? & ? & ? & ? & ? & ?) ?]. by repeat split.
      * subst a'. split; [by repeat split|].
        change (cost a2) with c.
        rewrite <- Hcost. apply (edgeCost_local st2 st' a2 e); try done.
        -- simpl. by rewrite lookup_insert_eq.
        -- by rewrite Hframe.
        -- by rewrite Hframe.
        -- rewrite Ha'. simpl. by rewrite lookup_insert_eq.
    + destruct (Hedges key a) as (a' & Ha' & Hcase).
      { simpl. by rewrite lookup_insert_ne. }
      exists a'. split; [done|].
      destruct (decide (key ∈ es)) as [Hin|Hnotin].
      * rewrite decide_True by by right. done.
      * rewrite decide_False; [done|]. by intros [?|?]%elem_of_cons.
Qed.

(** X2.  [setupEdgeEstimates] resets every edge of the graph: its counters
    are zero, it counts as not crossed, its end points and coverage are
    kept, and its cost is the product of the edge cost factors as they
    evaluate on the planner that results.  Nothing but the edges is written.
    (The graph is well formed, and every edge of the graph is stored in
    [regionsToEdge_].) *)
Theorem setupEdgeEstimates_resets st :
  well_formed st →
  (∀ e, e ∈ edges st → is_Some (regionsToEdge_ st !! e)) →
  ∃ st',
    setupEdgeEstimates st = Some st' ∧
    st' = set_regionsToEdge_ st (regionsToEdge_ st') ∧
    ∀ key a,
      regionsToEdge_ st !! key = Some a →
      ∃ a', regionsToEdge_ st' !! key = Some a' ∧
            if decide (key ∈ edges st)
            then reset_of a a' ∧ edgeCost st' a' = Some (cost a')
            else a' = a.
Proof.
  intros Hwf Hedges.
  destruct (resetEdges_spec (edges st) st Hwf Hedges)
    as (st' & Hrun & _ & Hframe & Hall).
  by exists st'.
Qed.

(** ** The start states *)

Lemma addStart_inv st (s : State) st' :
  addStart st s = Some st' →
  startRegions_ st' = {[locateRegion s]} ∪ startRegions_ st ∧
  numMotions_ st' = numMotions_ st + 1 ∧
  pis_starts st' = pis_starts st ∧
  ∀ (k : Z) r, getRegion st k = Some r →
    ∃ r', getRegion st' k = Some r' ∧
          motions r' =
            motions r ++ (if decide (locateRegion s = k) then [addRoot s] else []).
Proof.
  unfold addStart.
  destruct (fileMotion _ _ _ _) as [[b st1]|] eqn:Hfile; [|done]. simpl.
  intros [= <-]. apply fileMotion_inv in Hfile
    as (r0 & r0' & Hr0 & _ & Hmotions & _ & ->).
  split; [done|]. split; [done|]. split; [done|].
  intros k r Hr.
  change (getRegion (set_startRegions_ st ?x)) with (getRegion st) in Hr0.
  unfold getRegion in *. simpl. rewrite (vec_get_set _ _ _ _ r0 Hr0).
  case_decide as Hk.
  - subst k. rewrite Hr0 in Hr. injection Hr as <-. by exists r0'.
  - exists r. by rewrite app_nil_r.
Qed.

(** X4.  The loop of [solve] over the start states files one root motion for
    every start state, in the order of the states, under the region the
    state lies in; these regions are added to [startRegions_], and
    [numMotions_] grows by the number of start states.  (Every start state
    lies in a region of the graph.) *)
Theorem addStarts_files (starts : list State) st :
  (∀ s, s ∈ starts → is_Some (getRegion st (locateRegion s))) →
  ∃ st',
    addStarts starts st = Some st' ∧
    startRegions_ st' = list_to_set (locateRegion <$> starts) ∪ startRegions_ st ∧
    numMotions_ st' = numMotions_ st + Z.of_nat (length starts) ∧
    ∀ (k : Z) r, getRegion st k = Some r →
      ∃ r', getRegion st' k = Some r' ∧
            motions r' =
              motions r ++
              (addRoot <$> filter (λ s, locateRegion s = k) starts).
Proof.
  revert st. induction starts as [|s starts IH]; intros st Hstarts.
  - exists st. split; [done|].
    split; [simpl; by rewrite (left_id_L ∅ (∪))|].
    split; [simpl; lia|].
    intros k r Hr. exists r. by rewrite app_nil_r.
  - cbn [addStarts].
    destruct (addStart_files (set_pis_starts st starts) s) as (st1 & Hrun & _).
    { apply (Hstarts s). by left. }
    rewrite Hrun. cbn [mbind option_bind].
    apply addStart_inv in Hrun as (Hregions & Hcount & _ & Hfiled).
    destruct (IH st1) as (st' & Hrest & Hregions' & Hcount' & Hfiled').
    { intros s' Hs'. destruct (Hstarts s') as [r Hr]; [by right|].
      destruct (Hfiled _ r Hr) as (r' & -> & _). by eexists. }
    exists st'. split; [done|]. split; [|split].
    + rewrite Hregions', Hregions. simpl.
      rewrite (assoc_L (∪)). f_equal. apply (comm_L (∪)).
    + rewrite Hcount', Hcount. simpl. lia.
    + intros k r Hr. destruct (Hfiled k r Hr) as (r1 & Hr1 & Hm1).
      destruct (Hfiled' k r1 Hr1) as (r' & Hr' & Hm').
      exists r'. split; [done|]. rewrite Hm', Hm1, <- app_assoc. f_equal.
      rewrite filter_cons. by case_decide.
Qed.

(** ** The goal region of a round *)

(** X20.  The goal region [solve] chooses for a round of its main loop is
    one of the goal regions it knows after the choice, and no goal region is
    forgotten.  This holds when a goal state is pending or a goal region is
    known, and [sampleUniform] returns an element of a set that is not
    empty.  It holds also when the pending goal state is located at [-1]. *)
Theorem chooseGoalRegion_member st :
  (∀ (n : nat) (s : gset Z), s ≠ ∅ → regionSet_sampleUniform n s ∈ s) →
  pis_goals st ≠ [] ∨ goalRegions_ st ≠ ∅ →
  (chooseGoalRegion st).1 ∈ goalRegions_ (chooseGoalRegion st).2 ∧
  goalRegions_ st ⊆ goalRegions_ (chooseGoalRegion st).2.
Proof.
  intros Hsample Hknown. unfold chooseGoalRegion.
  destruct (pis_goals st) as [|g goals].
  - destruct Hknown as [?|Hknown]; [done|]. rewrite decide_True by done.
    simpl. split; [by apply Hsample|done].
  - assert (locateRegion g ∈ ({[locateRegion g]} ∪ goalRegions_ st : gset Z))
      as Hin by by apply elem_of_union_l, elem_of_singleton.
    case_decide as Hg; simpl.
    + split; [|apply union_subseteq_r]. apply Hsample.
      intros Hempty. rewrite Hempty in Hin. by apply not_elem_of_empty in Hin.
    + split; [done|apply union_subseteq_r].
Qed.

(** ** A termination condition that holds at once *)

(** X23.  When the termination condition holds at the first poll of the main
    loop, [solve] still sets up the estimates, files the start states and
    logs the number of motions, and then returns [false] without asking the
    tree planner and without a solution path. *)
Theorem solve_terminated_at_once (fuel : nat) st st1 st2 :
  setupEstimates st = Some st1 →
  addStarts (pis_starts st1) st1 = Some st2 →
  startRegions_ st2 ≠ ∅ → goalRegions_ st2 ≠ ∅ →
  ptc (ptc_polls st2) = true →
  solve (S fuel) st =
    Some (false,
          set_ptc_polls (log st2 (MsgInformStarting (numMotions_ st2)))
            (S (ptc_polls st2))) ∧
  solutionPaths st2 = solutionPaths st.
Proof.
  intros Hsetup Hstarts Hstart Hgoal Hptc. split.
  - rewrite (solve_seeded (S fuel) st st1 st2 Hsetup Hstarts).
    rewrite decide_False, decide_False by done.
    unfold plan. simpl. by rewrite Hptc.
  - apply addStarts_frame in Hstarts as (_ & _ & _ & ->); [|done].
    by apply setupEstimates_frame in Hsetup as [_ ->].
Qed.

(** ** The lead [computeLead] leaves *)

Lemma searchLead_lead st (startRegion goalRegion : Z) st' :
  searchLead st startRegion goalRegion = Some st' →
  lead_ st' = lead_ st ∨ lead_between startRegion goalRegion (lead_ st').
Proof.
  unfold searchLead. simpl. destruct (d_lt _ _).
  - unfold shortestPathLead. destruct (astar_search _ _ _) as [parents|].
    + intros Hlead. apply leadFromParents_inv in Hlead as (_ & ? & _). by right.
    + intros [= <-]. by left.
  - intros Hlead. apply randomDFSLead_inv in Hlead as [_ [?|[? _]]].
    + by left.
    + by right.
Qed.

Lemma computeLead_lead_between st (startRegion goalRegion : Z) st' :
  computeLead st startRegion goalRegion = Some st' →
  lead_between startRegion goalRegion (lead_ st').
Proof.
  unfold computeLead. case_decide as Hsame.
  - intros [= <-]. subst goalRegion. by repeat split.
  - destruct (searchLead _ _ _) as [st1|] eqn:Hsearch; [|done].
    intros Hupdate.
    change (updateLeadEdges (S (length (lead_ st1))) 0 st1 = Some st')
      in Hupdate.
    apply searchLead_lead in Hsearch as [Hempty|Hlead].
    + by rewrite (updateLeadEdges_empty_lead _ st1 Hempty) in Hupdate.
    + apply updateLeadEdges_inv in Hupdate as [-> _]. done.
Qed.

(** X11.  Whenever [computeLead] has a defined result, the lead it leaves
    starts at the start region, ends at the goal region and does not come
    back to the start region.  (A search that does not reach the goal region
    leaves the lead empty, and the final loop of [computeLead] then reads
    outside the lead.) *)
Theorem computeLead_lead st (startRegion goalRegion : Z) st' :
  computeLead st startRegion goalRegion = Some st' →
  lead_between startRegion goalRegion (lead_ st').
Proof. apply computeLead_lead_between. Qed.

(** ** Counting the inclusions in a lead *)

Lemma lead_pairs_lookup (lead : list Z) (i : nat) (u v : Z) :
  lead !! i = Some u → lead !! S i = Some v →
  lead_pairs lead !! i = Some (u, v).
Proof.
  intros Hu Hv. unfold lead_pairs.
  apply lookup_zip_with_Some. exists u, v. split; [done|]. split; [done|].
  by rewrite lookup_tail.
Qed.

Lemma lead_pairs_length (lead : list Z) :
  length (lead_pairs lead) = (length lead - 1)%nat.
Proof.
  unfold lead_pairs. destruct lead as [|u lead]; [done|].
  rewrite length_zip_with. cbn [tail length]. lia.
Qed.

Lemma updateLeadEdges_spec (fuel i : nat) st :
  well_formed st →
  Z.of_nat (length (lead_ st)) < 2 ^ 64 →
  (i < length (lead_ st))%nat →
  (length (lead_ st) ≤ fuel + S i)%nat →
  (∀ p, p ∈ drop i (lead_pairs (lead_ st)) →
        is_Some (regionsToEdge_ st !! p)) →
  ∃ st',
    updateLeadEdges fuel (Z.of_nat i) st = Some st' ∧
    ∀ key a,
      regionsToEdge_ st !! key = Some a →
      ∃ a', regionsToEdge_ st' !! key = Some a' ∧
            numLeadInclusions a' =
              numLeadInclusions a +
              if adj_empty a
              then Z.of_nat
                     (length (filter (λ p, p = key)
                                (drop i (lead_pairs (lead_ st)))))
              else 0.
Proof.
  revert i st. induction fuel as [|fuel IH]; intros i st Hwf Hlen Hi Hfuel Hpairs.
  - assert (drop i (lead_pairs (lead_ st)) = []) as Hdone.
    { apply drop_ge. rewrite lead_pairs_length. lia. }
    exists st. split.
    + simpl. rewrite decide_False; [done|]. rewrite size_t_small by lia. lia.
    + intros key a Ha. exists a. split; [done|]. rewrite Hdone. simpl.
      destruct (adj_empty a); lia.
  - cbn [updateLeadEdges]. rewrite size_t_small by lia.
    destruct (decide (Z.of_nat i < Z.of_nat (length (lead_ st)) - 1))
      as [Hmore|Hlast].
    2: { assert (drop i (lead_pairs (lead_ st)) = []) as Hdone.
         { apply drop_ge. rewrite lead_pairs_length. lia. }
         exists st. split; [done|]. intros key a Ha. exists a. split; [done|].
         rewrite Hdone. simpl. destruct (adj_empty a); lia. }
    destruct (lookup_lt_is_Some_2 (lead_ st) i) as [u Hu]; [lia|].
    destruct (lookup_lt_is_Some_2 (lead_ st) (S i)) as [v Hv]; [lia|].
    pose proof (lead_pairs_lookup _ _ _ _ Hu Hv) as Hp.
    assert (drop i (lead_pairs (lead_ st))
            = (u, v) :: drop (S i) (lead_pairs (lead_ st))) as Hdrop.
    { by apply drop_S. }
    assert (vec_get (lead_ st) (Z.of_nat i) = Some u) as ->.
    { unfold vec_get. rewrite decide_True by lia. by rewrite Nat2Z.id. }
    assert (vec_get (lead_ st) (Z.of_nat i + 1) = Some v) as ->.
    { unfold vec_get. rewrite decide_True by lia.
      by replace (Z.to_nat (Z.of_nat i + 1)) with (S i) by lia. }
    cbn [mbind option_bind].
    destruct (Hpairs (u, v)) as [adj Hadj]; [rewrite Hdrop; by left|].
    rewrite Hadj. cbn [mbind option_bind].
    replace (Z.of_nat i + 1) with (Z.of_nat (S i)) by lia.
    destruct (adj_empty adj) eqn:Hempty.
    + set (adj1 := set_numLeadInclusions adj (numLeadInclusions adj + 1)).
      set (st0 := set_regionsToEdge_ st (<[(u, v) := adj1]> (regionsToEdge_ st))).
      assert (well_formed st0) as Hwf0
        by by apply (well_formed_set_edge st (u, v) adj1 adj).
      destruct (updateEdge_defined st0 (u, v) adj1 Hwf0) as [c Hup].
      { simpl. by rewrite lookup_insert_eq. }
      rewrite Hup. cbn [mbind option_bind].
      pose proof (updateEdge_well_formed _ _ _ Hwf0 Hup) as Hwf1.
      set (st1 := set_regionsToEdge_ st0 _) in *.
      assert (∀ key, regionsToEdge_ st1 !! key =
                     if decide (key = (u, v)) then Some (set_cost adj1 c)
                     else regionsToEdge_ st !! key) as Hst1.
      { intros key. simpl. case_decide as Hkey.
        - subst key. by rewrite lookup_insert_eq.
        - by rewrite !lookup_insert_ne. }
      destruct (IH (S i) st1 Hwf1) as (st' & Hrun & Hcount);
        change (lead_ st1) with (lead_ st) in *; [done|lia|lia| |].
      { intros p Hin. rewrite Hst1. case_decide; [by eexists|].
        apply Hpairs. rewrite Hdrop. by right. }
      exists st'. split; [done|]. intros key a Ha.
      destruct (decide (key = (u, v))) as [->|Hne].
      * rewrite Hadj in Ha. injection Ha as <-.
        destruct (Hcount (u, v) (set_cost adj1 c)) as (a' & Ha' & Hn).
        { rewrite Hst1. by rewrite decide_True. }
        exists a'. split; [done|]. rewrite Hn, Hempty, Hdrop. simpl.
        rewrite Hempty, filter_cons, decide_True by done. simpl length. lia.
      * destruct (Hcount key a) as (a' & Ha' & Hn).
        { rewrite Hst1. by rewrite decide_False. }
        exists a'. split; [done|]. rewrite Hn, Hdrop.
        rewrite (filter_cons _ (u, v)), decide_False; [done|]. by intros <-.
    + destruct (IH (S i) st Hwf) as (st' & Hrun & Hcount); [done|lia|lia| |].
      { intros p Hin. apply Hpairs. rewrite Hdrop. by right. }
      exists st'. split; [done|]. intros key a Ha.
      destruct (Hcount key a Ha) as (a' & Ha' & Hn).
      exists a'. split; [done|]. rewrite Hn, Hdrop.
      destruct (decide ((u, v) = key)) as [<-|Hne].
      * rewrite Hadj in Ha. injection Ha as <-. by rewrite Hempty.
      * by rewrite (filter_cons _ (u, v)), decide_False.
Qed.

(** X13.  The final loop of [computeLead] on a lead that is not empty and
    whose consecutive regions are joined by stored edges has a defined
    result.  An edge the tree has not crossed is then included in as many
    more leads as it occurs on the lead; the count of an edge the tree has
    crossed stays. (The graph is well formed and the length of the lead fits
    [std::size_t].) *)
Theorem updateLeadEdges_counts st :
  well_formed st →
  lead_ st ≠ [] →
  Z.of_nat (length (lead_ st)) < 2 ^ 64 →
  (∀ p, p ∈ lead_pairs (lead_ st) → is_Some (regionsToEdge_ st !! p)) →
  ∃ st',
    updateLeadEdges (S (length (lead_ st))) 0 st = Some st' ∧
    ∀ key a,
      regionsToEdge_ st !! key = Some a →
      ∃ a', regionsToEdge_ st' !! key = Some a' ∧
            numLeadInclusions a' =
              numLeadInclusions a +
              if adj_empty a
              then Z.of_nat
                     (length (filter (λ p, p = key) (lead_pairs (lead_ st))))
              else 0.
Proof.
  intros Hwf Hlead Hlen Hpairs.
  apply (updateLeadEdges_spec (S (length (lead_ st))) 0 st); try done; [|lia].
  destruct (lead_ st); [done|]. simpl. lia.
Qed.

(** ** A motion that crosses into another region *)

(** X17.  When a new motion that does not satisfy the goal ends in a region
    other than the selected one, the connection estimate is updated only if
    the two regions are joined by a stored edge: that edge then counts as
    crossed, has one more selection and covers the cell of the motion's
    state, and no other edge changes.  If the two regions are not
    neighbours, no edge changes at all.  (The graph is well formed.) *)
Theorem processMotion_crossing (region : Z) m st pr (improved : bool) st' pr'
    improved' :
  well_formed st →
  (isSatisfied (state m)).1 = false →
  locateRegion (state m) ≠ region →
  processMotion region m st pr improved = Some (st', pr', improved') →
  match regionsToEdge_ st !! (region, locateRegion (state m)) with
  | None => regionsToEdge_ st' = regionsToEdge_ st
  | Some a =>
      ∃ a', regionsToEdge_ st' !! (region, locateRegion (state m)) = Some a' ∧
            adj_empty a' = false ∧
            adj_numSelections a' = adj_numSelections a + 1 ∧
            adj_covGridCells a' =
              {[covGrid_locateRegion (state m)]} ∪ adj_covGridCells a ∧
            numLeadInclusions a' = numLeadInclusions a ∧
            source a' = source a ∧ target a' = target a ∧
            ∀ key, key ≠ (region, locateRegion (state m)) →
                   regionsToEdge_ st' !! key = regionsToEdge_ st !! key
  end.
Proof.
  intros Hwf Hsat Hne. unfold processMotion.
  destruct (isSatisfied (state m)) as [sat distance]. simpl in Hsat. subst sat.
  set (k := locateRegion (state m)) in *.
  destruct (fileMotion _ _ _ _) as [[covered st1]|] eqn:Hfile; [|done].
  cbn [mbind option_bind]. rewrite decide_True by done.
  destruct (enterRegion _ _ _ _) as [[connected st2]|] eqn:Henter; [|done].
  cbn [mbind option_bind]. intros [= <- _ _].
  pose proof (fileMotion_well_formed _ _ _ _ _ _ Hwf Hfile) as Hwf1.
  assert (regionsToEdge_ st1 = regionsToEdge_ st) as Hedges1.
  { by apply fileMotion_inv in Hfile as (? & ? & _ & _ & _ & _ & ->). }
  rewrite <- Hedges1. clear Hfile Hedges1 Hwf.
  unfold enterRegion in Henter.
  destruct (getRegion st1 k) as [newRegionObj|]; [|done].
  cbn [mbind option_bind] in Henter.
  set (st1' := if decide (length (motions newRegionObj) = 1%nat) then _ else st1)
    in Henter.
  assert (regionsToEdge_ st1' = regionsToEdge_ st1 ∧ well_formed st1')
    as [Hedges1' Hwf1'].
  { subst st1'. by case_decide. }
  rewrite <- Hedges1'.
  destruct (regionsToEdge_ st1' !! (region, k)) as [adj|] eqn:Hadj.
  - set (adj1 := set_adj_numSelections _ _) in Henter.
    set (st3 := set_regionsToEdge_ st1' _) in Henter.
    assert (well_formed st3) as Hwf3
      by by apply (well_formed_set_edge st1' (region, k) adj1 adj).
    apply updateConnectionEstimate_shape in Henter
      as ((rc & rd & a0 & a' & Hrc & Hrd & Ha0 & Ha' & _ & Hcells & Hsame & Hother)
          & _ & _).
    rewrite (well_formed_index st3 _ _ Hwf3 Hrc) in *.
    rewrite (well_formed_index st3 _ _ Hwf3 Hrd) in *.
    assert (a0 = adj1) as ->.
    { subst st3. simpl in Ha0. rewrite lookup_insert_eq in Ha0. by injection Ha0. }
    exists a'. split; [done|]. injection Hsame as -> -> -> -> ->.
    repeat (split; [done|]).
    intros key Hkey. rewrite (Hother key Hkey). subst st3. simpl.
    by rewrite lookup_insert_ne.
  - by injection Henter as _ <-.
Qed.

(** ** A round of the main loop can expand *)

Lemma updateLeadEdges_well_formed (fuel : nat) (i : Z) st st' :
  well_formed st → updateLeadEdges fuel i st = Some st' → well_formed st'.
Proof.
  revert i st. induction fuel as [|fuel IH]; intros i st Hwf; simpl.
  - case_decide; [done|]. by intros [= <-].
  - case_decide; [|by intros [= <-]].
    destruct (vec_get (lead_ st) i) as [u|]; [|done]. simpl.
    destruct (vec_get (lead_ st) (i + 1)) as [v|]; [|done]. simpl.
    destruct (regionsToEdge_ st !! (u, v)) as [adj|] eqn:Hadj; [|done]. simpl.
    destruct (adj_empty adj).
    + destruct (updateEdge _ _) as [st1|] eqn:Hup; [|done]. simpl.
      apply IH. eapply updateEdge_well_formed; [|exact Hup].
      by apply (well_formed_set_edge st (u, v) _ adj).
    + simpl. by apply IH.
Qed.

Lemma computeAvailableRegions_defined st (k : Z) r :
  Z.of_nat (length (lead_ st)) < 2 ^ 31 →
  (∀ j, j ∈ lead_ st → is_Some (getRegion st j)) →
  k ∈ lead_ st → getRegion st k = Some r → motions r ≠ [] →
  ∃ st',
    computeAvailableRegions st = Some st' ∧ availDist_ st' ≠ [] ∧
    st' = set_rng_ (set_availDist_ st (availDist_ st')) (rng_ st').
Proof.
  intros Hlen Hlead Hk Hr Hm. unfold computeAvailableRegions.
  set (st0 := set_availDist_ st []).
  change (lead_ st0) with (lead_ st).
  rewrite to_int_size_t_pred by lia.
  replace (Z.to_nat (Z.of_nat (length (lead_ st)) - 1 + 1))
    with (length (lead_ st)) by lia.
  destruct (availableLoop_spec (length (lead_ st)) st0 ltac:(done) Hlead)
    as (st' & n & Hrun & Hav & _ & Hpos & _ & _ & Hframe).
  change (lead_ st0) with (lead_ st) in Hav, Hpos.
  rewrite firstn_all in Hav, Hpos.
  change (availDist_ st0) with (@nil (Z * D)) in Hav. simpl in Hav.
  exists st'. split; [done|]. split.
  - assert (candidates st0 (reverse (lead_ st)) ≠ []) as Hcands.
    { apply candidates_nonempty. exists k, r. split; [|done].
      by apply elem_of_reverse. }
    specialize (Hpos Hcands). rewrite Hav.
    destruct (candidates st0 (reverse (lead_ st))) as [|c cs]; [done|].
    destruct n as [|n]; [lia|done].
  - rewrite Hframe. by destruct st.
Qed.

(** X15.  In a round of the main loop of [solve], once [computeLead] has
    given a lead from a start region that holds a motion,
    [computeAvailableRegions] has a defined result and leaves the planner
    ready for the region-expansion loop: the graph is well formed, and
    [availDist_] is not empty and holds regions with motions only.  (The
    graph is well formed before, the entries of the lead are regions of the
    graph, and the length of the lead fits an [int].) *)
Theorem computeAvailableRegions_expandable st (startRegion goalRegion : Z) r st1 :
  well_formed st →
  getRegion st startRegion = Some r → motions r ≠ [] →
  computeLead st startRegion goalRegion = Some st1 →
  Z.of_nat (length (lead_ st1)) < 2 ^ 31 →
  (∀ k, k ∈ lead_ st1 → is_Some (getRegion st1 k)) →
  ∃ st2, computeAvailableRegions st1 = Some st2 ∧ expandable st2.
Proof.
  intros Hwf Hr Hm Hlead Hlen Hregions.
  assert (well_formed st1) as Hwf1.
  { revert Hlead. unfold computeLead. case_decide; [by intros [= <-]|].
    destruct (searchLead _ _ _) as [st0|] eqn:Hsearch; [|done].
    intros Hupdate.
    change (updateLeadEdges (S (length (lead_ st0))) 0 st0 = Some st1)
      in Hupdate.
    eapply updateLeadEdges_well_formed; [|exact Hupdate].
    apply searchLead_frame in Hsearch. by rewrite Hsearch. }
  pose proof (computeLead_inv _ _ _ _ Hlead) as [Hframe _].
  destruct (computeLead_lead_between st startRegion goalRegion st1 Hlead)
    as (Hhead & _ & _).
  destruct (computeAvailableRegions_defined st1 startRegion r Hlen Hregions)
    as (st2 & Hrun & Havail & Hframe2).
  - destruct (lead_ st1); [done|]. injection Hhead as ->. by left.
  - by rewrite Hframe.
  - done.
  - exists st2. split; [done|]. split; [|split; [done|]].
    + by rewrite Hframe2.
    + by apply (computeAvailableRegions_keys st1).
Qed.

(** ** [solve] keeps the structure of the graph *)

#[local] Instance same_ends_refl :
  Reflexive (λ a a' : Adjacency, source a' = source a ∧ target a' = target a).
Proof. by intros a. Qed.

#[local] Instance same_ends_trans :
  Transitive (λ a a' : Adjacency, source a' = source a ∧ target a' = target a).
Proof. intros a1 a2 a3 [? ?] [? ?]. split; congruence. Qed.

#[local] Instance same_graph_refl :
  Reflexive (same_graph (D := D) (State := State) (Control := Control)).
Proof. intros st. split; [done|]. split; [|done]. intros key. reflexivity. Qed.

#[local] Instance same_graph_trans :
  Transitive (same_graph (D := D) (State := State) (Control := Control)).
Proof.
  intros st1 st2 st3 (Hi1 & He1 & Ho1 & Hf1) (Hi2 & He2 & Ho2 & Hf2).
  split; [congruence|]. split; [|split; congruence].
  intros key. etrans; [apply He1|apply He2].
Qed.

Lemma same_graph_fields st st' :
  graph_regions st' = graph_regions st →
  regionsToEdge_ st' = regionsToEdge_ st →
  graph_out st' = graph_out st →
  edgeCostFactors_ st' = edgeCostFactors_ st →
  same_graph st st'.
Proof.
  intros Hr He Ho Hf. split; [by rewrite Hr|]. split; [|done].
  intros key. rewrite He. reflexivity.
Qed.

Lemma well_formed_same_graph st st' :
  well_formed st → same_graph st st' → well_formed st'.
Proof.
  intros [Hidx Hedges] (Hi & He & _ & _).
  assert (length (graph_regions st') = length (graph_regions st)) as Hlen.
  { by rewrite <- (length_fmap index), Hi, length_fmap. }
  split.
  - unfold vertices in *. by rewrite Hlen, Hi.
  - intros key a' Ha'. specialize (He key). rewrite Ha' in He.
    inversion He as [a ? [Hs Ht] Ha|]; subst.
    symmetry in Ha. specialize (Hedges key a Ha). simpl in Hedges.
    rewrite Hlen, Hs, Ht. done.
Qed.

Lemma tree_grown_same_graph st st' :
  tree_grown st st' → same_graph st st'.
Proof.
  intros (Hregions & Hedges & _ & Hout & _ & _ & _ & Hfactors & _).
  split; [|split; [|done]].
  - induction Hregions as [|r r' l l' (Hindex & _) _ IH]; [done|].
    rewrite !fmap_cons. by rewrite Hindex, IH.
  - intros key. destruct (Hedges key) as [a a' (? & ? & _)|]; by constructor.
Qed.

Lemma availableLoop_frame (n : nat) st st' :
  availableLoop n st = Some st' →
  st' = set_rng_ (set_availDist_ st (availDist_ st')) (rng_ st').
Proof.
  revert st. induction n as [|n IH]; intros st; simpl.
  - intros [= <-]. by destruct st.
  - destruct (lead_ st !! n) as [k|]; [|done]. simpl.
    destruct (getRegion st k) as [r|]; [|done]. simpl.
    destruct (motions r); [apply IH|].
    destruct (d_ge _ _); [by intros [= <-]|].
    intros Hrest. apply IH in Hrest. by rewrite Hrest.
Qed.

Lemma regionEstimate_index (numTotal numValid : list Z) (i : Z) r r' :
  regionEstimate numTotal numValid i r = Some r' → index r' = index r.
Proof.
  unfold regionEstimate. destruct (vec_get numTotal i) as [total|]; [|done].
  simpl. case_decide.
  - simpl. intros [= <-].
    destruct (d_lt _ _); by rewrite (proj1 (updateRegion_fields _)).
  - destruct (vec_get numValid i) as [valid|]; [|done]. simpl. intros [= <-].
    destruct (d_lt _ _); by rewrite (proj1 (updateRegion_fields _)).
Qed.

Lemma setRegion_same_graph st (i : Z) r r' :
  getRegion st i = Some r → index r' = index r →
  same_graph st (setRegion st i r').
Proof.
  intros Hr Hindex. split; [|split; [|done]].
  - unfold setRegion, vec_set. simpl. rewrite list_fmap_insert, Hindex.
    apply list_insert_id. unfold getRegion, vec_get in Hr.
    case_decide; [|done]. by rewrite list_lookup_fmap, Hr.
  - intros key. reflexivity.
Qed.

Lemma setupRegionEstimates_same_graph st st' :
  setupRegionEstimates st = Some st' → same_graph st st'.
Proof.
  unfold setupRegionEstimates.
  destruct (sampleCounts st) as [counts|]; [|done]. simpl.
  apply (foldM_invariant (same_graph st)); [done|].
  intros st1 i st2 Hst1. unfold estimateRegion.
  destruct (getRegion st1 i) as [r|] eqn:Hr; [|done]. simpl.
  destruct (regionEstimate _ _ _ _) as [r'|] eqn:Hr'; [|done]. simpl.
  intros [= <-]. etrans; [exact Hst1|].
  apply (setRegion_same_graph st1 i r); [done|].
  by eapply regionEstimate_index.
Qed.

Lemma set_edge_same_graph st key a a' :
  regionsToEdge_ st !! key = Some a →
  source a' = source a → target a' = target a →
  same_graph st (set_regionsToEdge_ st (<[key := a']> (regionsToEdge_ st))).
Proof.
  intros Ha Hs Ht. split; [done|]. split; [|done]. simpl.
  intros key'. destruct (decide (key = key')) as [<-|Hne].
  - rewrite lookup_insert_eq, Ha. by constructor.
  - rewrite lookup_insert_ne by done. reflexivity.
Qed.

Lemma updateEdge_same_graph st key st' :
  updateEdge st key = Some st' → same_graph st st'.
Proof.
  intros Hup. apply updateEdge_inv in Hup as (a & c & Ha & ->).
  by apply (set_edge_same_graph st key a).
Qed.

Lemma setupEdgeEstimates_same_graph st st' :
  setupEdgeEstimates st = Some st' → same_graph st st'.
Proof.
  unfold setupEdgeEstimates.
  apply (foldM_invariant (same_graph st)); [done|].
  intros st1 e st2 Hst1. unfold resetEdge.
  destruct (edgeKey st1 e) as [key|]; [|done]. simpl.
  destruct (regionsToEdge_ st1 !! key) as [adj|] eqn:Hadj; [|done]. simpl.
  intros Hup. apply updateEdge_same_graph in Hup.
  etrans; [exact Hst1|]. etrans; [|exact Hup].
  by apply (set_edge_same_graph st1 key adj).
Qed.

Lemma addStarts_same_graph (starts : list State) st st' :
  addStarts starts st = Some st' → same_graph st st'.
Proof.
  revert st. induction starts as [|s starts IH]; intros st; simpl.
  - by intros [= <-].
  - destruct (addStart _ s) as [st1|] eqn:Hstart; [|done]. simpl.
    intros Hrest. apply IH in Hrest. etrans; [|exact Hrest].
    unfold addStart in Hstart.
    destruct (fileMotion _ _ _ _) as [[b st2]|] eqn:Hfile; [|done].
    simpl in Hstart. injection Hstart as <-.
    apply fileMotion_grown, tree_grown_same_graph in Hfile.
    etrans; [|exact Hfile]. by apply same_graph_fields.
Qed.

Lemma mainLoop_same_graph (fuel : nat) st pr st' pr' :
  mainLoop fuel st pr = Some (st', pr') → same_graph st st'.
Proof.
  revert st pr. induction fuel as [|fuel IH]; intros st pr; simpl; [done|].
  destruct (ptc (ptc_polls st)); [intros [= <- _]; by apply same_graph_fields|].
  destruct (solved pr); [intros [= <- _]; by apply same_graph_fields|].
  set (st2 := set_rng_ _ _).
  assert (same_graph st (chooseGoalRegion st2).2) as Hchoose.
  { unfold chooseGoalRegion. destruct (pis_goals st2) as [|g goals].
    - rewrite decide_True by done. by apply same_graph_fields.
    - case_decide; by apply same_graph_fields. }
  destruct (chooseGoalRegion st2) as [chosenGoalRegion st3]. simpl in Hchoose.
  destruct (computeLead _ _ _) as [st4|] eqn:Hlead; [|done]. simpl.
  destruct (computeAvailableRegions st4) as [st5|] eqn:Havail; [|done]. simpl.
  destruct (regionExpansions _ _ _) as [[st6 pr1]|] eqn:Hexpand; [|done]. simpl.
  intros Hrest. apply IH in Hrest.
  etrans; [exact Hchoose|]. etrans; [|exact Hrest].
  apply regionExpansions_steps, expansion_steps_grown, tree_grown_same_graph
    in Hexpand.
  etrans; [|exact Hexpand].
  apply availableLoop_frame in Havail.
  apply computeLead_inv in Hlead as [Hframe Hedges].
  trans st4; [|rewrite Havail; by apply same_graph_fields].
  split; [by rewrite Hframe|]. split; [|by rewrite Hframe].
  intros key. destruct (Hedges key) as [a a' (? & ? & _)|]; by constructor.
Qed.

(** X24.  [solve] keeps the structure of the graph: whatever it returns, the
    graph has the same vertices with the same indices, the same adjacency,
    the same stored edges with the same end points and the same edge cost
    factors as before, and a graph that was well formed is well formed
    afterwards. *)
Theorem solve_keeps_graph (fuel : nat) st (b : bool) st' :
  solve fuel st = Some (b, st') →
  same_graph st st' ∧ (well_formed st → well_formed st').
Proof.
  intros Hrun. assert (same_graph st st') as Hsame;
    [|split; [done|]; intros Hwf; by apply (well_formed_same_graph st)].
  revert Hrun. unfold solve.
  destruct (setupEstimates st) as [st1|] eqn:Hsetup; [|done]. simpl.
  destruct (addStarts _ _) as [st2|] eqn:Hstarts; [|done]. simpl.
  assert (same_graph st st2) as Hst2.
  { apply addStarts_same_graph in Hstarts. etrans; [|exact Hstarts].
    unfold setupEstimates in Hsetup. destruct (graphReady_ st).
    - by injection Hsetup as <-.
    - destruct (setupRegionEstimates _) as [st3|] eqn:Hregions; [|done].
      simpl in Hsetup.
      destruct (setupEdgeEstimates st3) as [st4|] eqn:Hedges; [|done].
      simpl in Hsetup. injection Hsetup as <-.
      apply setupRegionEstimates_same_graph in Hregions.
      apply setupEdgeEstimates_same_graph in Hedges.
      etrans; [|etrans; [exact Hregions|]].
      + by apply same_graph_fields.
      + etrans; [exact Hedges|]. by apply same_graph_fields. }
  assert (∀ st3, same_graph st st3 → plan fuel st3 = Some (b, st') →
                 same_graph st st') as Hplan.
  { intros st3 Hst3. unfold plan.
    destruct (mainLoop _ _ _) as [[st4 pr]|] eqn:Hloop; [|done]. simpl.
    apply mainLoop_same_graph in Hloop. unfold addSolution.
    assert (same_graph st st4) as Hst4.
    { etrans; [exact Hst3|]. etrans; [|exact Hloop]. by apply same_graph_fields. }
    destruct (solution pr); intros [= <- <-]; [|done].
    etrans; [exact Hst4|]. by apply same_graph_fields. }
  case_decide.
  { intros [= <- <-]. etrans; [exact Hst2|]. by apply same_graph_fields. }
  case_decide; [|by apply Hplan].
  destruct (pis_goals st2) as [|g goals].
  - intros [= <- <-]. etrans; [exact Hst2|]. by apply same_graph_fields.
  - apply Hplan. etrans; [exact Hst2|]. by apply same_graph_fields.
Qed.

End Properties.

(** * Runs in the concrete world *)

(** ** Binary64 arithmetic *)

(** The number of binary digits of a positive integer. *)
Lemma Zdigits2_log2 (m : Z) : 0 < m → Zdigits2 m = Z.log2 m + 1.
Proof.
  destruct m as [|p|p]; try lia. intros _.
  assert (H : ∀ q, digits2_pos q = Pos.size q) by (induction q; simpl; congruence).
  unfold Zdigits2. rewrite H.
  change (Z.pos (Pos.size p)) with (Z.log2 (2 * Z.pos p)).
  rewrite Z.log2_double by lia. lia.
Qed.

Lemma Zdigits2_spec (m : Z) :
  0 < m → 2 ^ (Zdigits2 m - 1) ≤ m < 2 ^ Zdigits2 m.
Proof.
  intros Hm. rewrite Zdigits2_log2 by done.
  replace (Z.log2 m + 1 - 1) with (Z.log2 m) by lia.
  replace (Z.log2 m + 1) with (Z.succ (Z.log2 m)) by lia.
  by apply Z.log2_spec.
Qed.

Lemma Zdigits2_unique (m d : Z) :
  2 ^ (d - 1) ≤ m < 2 ^ d → 0 < m → Zdigits2 m = d.
Proof.
  intros Hd Hm. rewrite Zdigits2_log2 by done.
  assert (0 < d).
  { destruct (decide (0 < d)); [done|].
    destruct (decide (d = 0)) as [->|]; [simpl in Hd; lia|].
    rewrite (Z.pow_neg_r 2 d) in Hd by lia. lia. }
  pose proof (Z.log2_unique m (d - 1)).
  replace (Z.succ (d - 1)) with d in * by lia. lia.
Qed.

Lemma digits2_pos_iter_xO (p n : positive) :
  Z.pos (digits2_pos (Pos.iter xO p n)) = Z.pos (digits2_pos p) + Z.pos n.
Proof.
  induction n as [|n IH] using Pos.peano_ind.
  - simpl. lia.
  - rewrite Pos.iter_succ. simpl. lia.
Qed.

(** A shift to the right halves the mantissa. *)
Lemma shr_1_m mrs : 0 ≤ shr_m mrs → shr_m (shr_1 mrs) = shr_m mrs / 2.
Proof.
  destruct mrs as [m r s]. simpl. intros Hm.
  destruct m as [|[p|p|]|p]; try lia; simpl.
  - done.
  - rewrite Pos2Z.inj_xI. apply (Z.div_unique _ _ _ 1); lia.
  - rewrite Pos2Z.inj_xO. apply (Z.div_unique _ _ _ 0); lia.
  - done.
Qed.

Lemma iter_shr_1_m p mrs :
  0 ≤ shr_m mrs →
  shr_m (SpecFloat.iter_pos shr_1 p mrs) = shr_m mrs / 2 ^ Z.pos p.
Proof.
  revert mrs. induction p as [p IH|p IH|]; intros mrs Hm;
    simpl SpecFloat.iter_pos.
  - assert (H1 : 0 ≤ shr_m (shr_1 mrs))
      by (rewrite shr_1_m by done; apply Z.div_pos; lia).
    assert (H2 : 0 ≤ shr_m (SpecFloat.iter_pos shr_1 p (shr_1 mrs)))
      by (rewrite IH by done; apply Z.div_pos; lia).
    rewrite IH by done. rewrite IH by done. rewrite shr_1_m by done.
    rewrite !Z.div_div by lia. f_equal.
    rewrite Pos2Z.inj_xI. rewrite <- !Z.pow_add_r by lia.
    rewrite <- (Z.pow_1_r 2) at 1. rewrite <- Z.pow_add_r by lia. f_equal. lia.
  - assert (H2 : 0 ≤ shr_m (SpecFloat.iter_pos shr_1 p mrs))
      by (rewrite IH by done; apply Z.div_pos; lia).
    rewrite IH by done. rewrite IH by done.
    rewrite !Z.div_div by lia. f_equal.
    rewrite Pos2Z.inj_xO. rewrite <- !Z.pow_add_r by lia. f_equal. lia.
  - by apply shr_1_m.
Qed.

Lemma shr_record_of_loc_m m l : shr_m (shr_record_of_loc m l) = m.
Proof. by destruct l as [|[]]. Qed.

(** [shr_fexp] on a mantissa of at least 53 digits whose value is in the
    range of the normal numbers: it keeps the leading 53 digits. *)
Lemma shr_fexp_normal m e l :
  0 < m → 53 ≤ Zdigits2 m → -1074 ≤ e + Zdigits2 m - 53 →
  ∃ mrs, shr_fexp prec emax m e l = (mrs, e + Zdigits2 m - 53) ∧
         shr_m mrs = m / 2 ^ (Zdigits2 m - 53).
Proof.
  intros Hm Hd He. unfold shr_fexp, fexp, emin.
  change prec with 53. change emax with 1024.
  replace (Z.max (Zdigits2 m + e - 53) (3 - 1024 - 53) - e)
    with (Zdigits2 m - 53) by lia.
  unfold shr. destruct (Zdigits2 m - 53) as [|p|p] eqn:Hn; try lia.
  - eexists. split; [f_equal; lia|]. rewrite shr_record_of_loc_m.
    by rewrite Z.pow_0_r, Z.div_1_r.
  - eexists. split; [f_equal; lia|]. rewrite iter_shr_1_m.
    + by rewrite shr_record_of_loc_m.
    + rewrite shr_record_of_loc_m. lia.
Qed.

Lemma round_nearest_even_bounds m l :
  m ≤ round_nearest_even m l ≤ m + 1.
Proof.
  unfold round_nearest_even. destruct l as [|[]]; try lia.
  destruct (Z.even m); lia.
Qed.

(** Rounding a positive mantissa of at least 53 digits whose value is in
    the range of the normal numbers gives a normal number. *)
Lemma binary_round_aux_normal sx mx ex lx :
  0 < mx → 53 ≤ Zdigits2 mx →
  -1074 ≤ ex + Zdigits2 mx - 53 → ex + Zdigits2 mx - 53 < 971 →
  ∃ m e, binary_round_aux prec emax sx mx ex lx = S754_finite sx m e ∧
         Zdigits2 (Z.pos m) = 53 ∧
         ex + Zdigits2 mx - 53 ≤ e ≤ ex + Zdigits2 mx - 52.
Proof.
  intros Hm Hd Hlo Hhi. unfold binary_round_aux.
  destruct (shr_fexp_normal mx ex lx Hm Hd Hlo) as (mrs1 & -> & Hm1).
  pose proof (Zdigits2_spec mx Hm) as Hdig.
  set (d := Zdigits2 mx) in *. set (e1 := ex + d - 53) in *.
  assert (Hm1' : 2 ^ 52 ≤ shr_m mrs1 < 2 ^ 53).
  { rewrite Hm1. replace (2 ^ (d - 1)) with (2 ^ 52 * 2 ^ (d - 53)) in Hdig
      by (rewrite <- Z.pow_add_r by lia; f_equal; lia).
    replace (2 ^ d) with (2 ^ 53 * 2 ^ (d - 53)) in Hdig
      by (rewrite <- Z.pow_add_r by lia; f_equal; lia).
    assert (0 < 2 ^ (d - 53)) by (apply Z.pow_pos_nonneg; lia).
    split.
    - apply Z.div_le_lower_bound; lia.
    - apply Z.div_lt_upper_bound; lia. }
  pose proof (round_nearest_even_bounds (shr_m mrs1) (loc_of_shr_record mrs1))
    as Hr.
  set (m2 := round_nearest_even (shr_m mrs1) (loc_of_shr_record mrs1)) in *.
  assert (Hm2 : 0 < m2) by lia.
  destruct (decide (m2 < 2 ^ 53)) as [Hlt|Hge].
  - assert (Hd2 : Zdigits2 m2 = 53) by (apply Zdigits2_unique; [simpl; lia|lia]).
    destruct (shr_fexp_normal m2 e1 loc_Exact) as (mrs2 & -> & Hm3); [lia..|].
    rewrite Hd2 in *. rewrite Z.sub_diag, Z.pow_0_r, Z.div_1_r in Hm3.
    rewrite Hm3. destruct m2 as [|p|p]; try lia.
    replace (e1 + 53 - 53) with e1 by lia.
    assert (Hle : (e1 <=? emax - prec) = true)
      by (apply Z.leb_le; change emax with 1024; change prec with 53; lia).
    rewrite Hle. exists p, e1. split; [done|]. split; [done|]. subst e1. lia.
  - assert (m2 = 2 ^ 53) as Hm2' by lia.
    assert (Hd2 : Zdigits2 m2 = 54) by (rewrite Hm2'; reflexivity).
    destruct (shr_fexp_normal m2 e1 loc_Exact) as (mrs2 & -> & Hm3); [lia..|].
    rewrite Hd2 in *. rewrite Hm2' in Hm3.
    change (2 ^ 53 / 2 ^ (54 - 53)) with (Z.pos (2 ^ 52)) in Hm3. rewrite Hm3.
    assert (Hle : (e1 + 54 - 53 <=? emax - prec) = true)
      by (apply Z.leb_le; change emax with 1024; change prec with 53; lia).
    rewrite Hle. exists (2 ^ 52)%positive, (e1 + 54 - 53).
    split; [done|]. split; [reflexivity|]. subst e1. lia.
Qed.

Lemma normal_between_valid lo hi x :
  -1074 ≤ lo → hi ≤ 971 → normal_between lo hi x → valid_binary x = true.
Proof.
  intros Hlo Hhi (m & e & -> & Hd & He). simpl.
  unfold bounded, canonical_mantissa, fexp, emin.
  change (Z.pos (digits2_pos m)) with (Zdigits2 (Z.pos m)). rewrite Hd.
  change prec with 53. change emax with 1024.
  apply andb_true_intro. split; [apply Z.eqb_eq|apply Z.leb_le]; lia.
Qed.

(** The conversion of an integer of [1 .. 2^64 - 1] to [double]. *)
Lemma binary_normalize_normal (k : Z) :
  1 ≤ k < 2 ^ 64 →
  normal_between (-52) 12 (binary_normalize prec emax k 0 false).
Proof.
  intros Hk. destruct k as [|p|p]; try lia.
  unfold binary_normalize, binary_round.
  pose proof (Zdigits2_spec (Z.pos p) eq_refl) as Hdig.
  assert (Hd : 1 ≤ Zdigits2 (Z.pos p) ≤ 64).
  { split.
    - rewrite Zdigits2_log2 by done. pose proof (Z.log2_nonneg (Z.pos p)). lia.
    - destruct (decide (Zdigits2 (Z.pos p) ≤ 64)) as [|Hn]; [done|].
      assert (2 ^ 64 ≤ 2 ^ (Zdigits2 (Z.pos p) - 1))
        by (apply Z.pow_le_mono_r; lia).
      lia. }
  change (Z.pos (digits2_pos p)) with (Zdigits2 (Z.pos p)).
  set (d := Zdigits2 (Z.pos p)) in *.
  unfold shl_align, fexp, emin. change prec with 53. change emax with 1024.
  replace (Z.max (d + 0 - 53) (3 - 1024 - 53) - 0) with (d - 53) by lia.
  change (binary_round_aux 53 1024) with (binary_round_aux prec emax).
  destruct (d - 53) as [|q|q] eqn:Hq.
  - destruct (binary_round_aux_normal false (Z.pos p) 0 loc_Exact)
      as (m & e & -> & Hm & He); fold d; try lia.
    exists m, e. split; [done|]. split; [done|]. lia.
  - destruct (binary_round_aux_normal false (Z.pos p) 0 loc_Exact)
      as (m & e & -> & Hm & He); fold d; try lia.
    exists m, e. split; [done|]. split; [done|]. lia.
  - replace (Z.max (d + 0 - 53) (3 - 1024 - 53)) with (d - 53) by lia.
    assert (Hd' : Zdigits2 (Z.pos (Pos.iter xO p q)) = 53).
    { unfold Zdigits2. rewrite digits2_pos_iter_xO.
      change (Z.pos (digits2_pos p)) with d. lia. }
    destruct (binary_round_aux_normal false (Z.pos (Pos.iter xO p q)) (d - 53)
                loc_Exact)
      as (m & e & -> & Hm & He); rewrite ?Hd'; try lia.
    exists m, e. split; [done|]. split; [done|]. lia.
Qed.

Lemma binary64_of_Z_normal (k : Z) :
  1 ≤ k < 2 ^ 64 → normal_between (-52) 12 (Prim2SF (binary64_of_Z k)).
Proof.
  intros Hk. pose proof (binary_normalize_normal k Hk) as Hn.
  unfold binary64_of_Z. rewrite Prim2SF_SF2Prim; [done|].
  by apply (normal_between_valid (-52) 12).
Qed.

(** The quotient of two normal numbers whose exponents are far from the
    ends of the range is a normal number. *)
Lemma SF64div_normal (lo1 hi1 lo2 hi2 : Z) x y :
  normal_between lo1 hi1 x → normal_between lo2 hi2 y →
  -1020 ≤ lo1 - hi2 → hi1 - lo2 ≤ 960 →
  normal_between (lo1 - hi2 - 53) (hi1 - lo2 - 51) (SF64div x y).
Proof.
  intros (mx & ex & -> & Hdx & Hex) (my & ey & -> & Hdy & Hey) Hlo Hhi.
  unfold SF64div, SFdiv, SFdiv_core_binary. rewrite Hdx, Hdy.
  unfold fexp, emin. change prec with 53. change emax with 1024.
  replace (Z.min (Z.max (53 + ex - (53 + ey) - 53) (3 - 1024 - 53)) (ex - ey))
    with (ex - ey - 53) by lia.
  replace (ex - ey - (ex - ey - 53)) with 53 by lia.
  change (binary_round_aux 53 1024) with (binary_round_aux prec emax).
  pose proof (Zdigits2_spec (Z.pos mx) eq_refl) as Hx. rewrite Hdx in Hx.
  pose proof (Zdigits2_spec (Z.pos my) eq_refl) as Hy. rewrite Hdy in Hy.
  pose proof (Z.div_eucl_eq (Z.shiftl (Z.pos mx) 53) (Z.pos my)) as Heq.
  pose proof (Z.mod_pos_bound (Z.shiftl (Z.pos mx) 53) (Z.pos my)) as Hmod.
  unfold Z.modulo in Hmod.
  destruct (Z.div_eucl (Z.shiftl (Z.pos mx) 53) (Z.pos my)) as [q r].
  rewrite Z.shiftl_mul_pow2 in Heq by lia.
  specialize (Heq ltac:(lia)). specialize (Hmod ltac:(lia)).
  assert (Hq : 2 ^ 52 ≤ q < 2 ^ 54).
  { change (2 ^ (53 - 1)) with (2 ^ 52) in *. split; nia. }
  assert (Hdq : 53 ≤ Zdigits2 q ≤ 54).
  { pose proof (Zdigits2_spec q ltac:(lia)) as Hs. split.
    - destruct (decide (53 ≤ Zdigits2 q)); [done|].
      assert (2 ^ Zdigits2 q ≤ 2 ^ 52) by (apply Z.pow_le_mono_r; lia). lia.
    - destruct (decide (Zdigits2 q ≤ 54)); [done|].
      assert (2 ^ 54 ≤ 2 ^ (Zdigits2 q - 1)) by (apply Z.pow_le_mono_r; lia).
      lia. }
  destruct (binary_round_aux_normal (xorb false false) q (ex - ey - 53)
              (new_location (Z.pos my) r))
    as (m & e & -> & Hm & He); try lia.
  exists m, e. split; [done|]. split; [done|]. lia.
Qed.

(** A normal number divided by an integer of [1 .. 2^64 - 1] is positive
    and finite. *)
Lemma binary64_div_of_Z_positive (x : float) (lo hi k : Z) :
  normal_between lo hi (Prim2SF x) → -1000 ≤ lo → hi ≤ 900 →
  1 ≤ k < 2 ^ 64 →
  d_positive (d_div x (d_of_Z k)).
Proof.
  intros Hx Hlo Hhi Hk.
  pose proof (binary64_of_Z_normal k Hk) as Hy.
  pose proof (SF64div_normal lo hi (-52) 12 _ _ Hx Hy ltac:(lia) ltac:(lia))
    as (m & e & Hq & _).
  unfold d_positive. simpl. rewrite !FloatAxioms.ltb_spec, FloatAxioms.div_spec, Hq. done.
Qed.

(** A zero of either sign is below [epsilon]. *)
Lemma binary64_zero_below_epsilon (x : float) :
  PrimFloat.eqb x 0 = true → d_lt x d_epsilon = true.
Proof.
  simpl. rewrite FloatAxioms.eqb_spec, FloatAxioms.ltb_spec.
  by destruct (Prim2SF x) as [[]|[]| |[] m e].
Qed.

Section Binary64.

Context {State Control : Type}.
Context {decomp_ : Decomposition (D := float) (State := State)}.
Context {si_ : Space (D := float) (State := State)}.
Context {planner : TreePlanner (D := float) (State := State) (Control := Control)}.
Context {oracle : Oracle (D := float) (State := State) (Control := Control)}.
Context {counter : CounterType}.

(** The weight [updateRegion] computes from the free volume [epsilon]. *)
Lemma updateRegion_weight_positive
    (r : Region (D := float) (State := State) (Control := Control)) :
  freeVolume r = d_epsilon → counts_in_range r →
  d_positive (weight (updateRegion r)).
Proof.
  intros Hfree Hrange. unfold updateRegion. simpl weight. rewrite Hfree.
  pose proof (counts_in_range_cells r Hrange) as Hc.
  rewrite (counts_in_range_selections r Hrange).
  rewrite (size_t_small (1 + _)) by done.
  destruct Hrange as [Hs Hr]. rewrite size_t_small by nia.
  apply (binary64_div_of_Z_positive _ (-260) (-260)); [|lia|lia|nia].
  eexists _, _. split; [vm_compute; reflexivity|]. split; [reflexivity|lia].
Qed.

(** C5.  [setupRegionEstimates] gives every region [i] the volume
    [getRegionVolume i]; as [percentValidCells] the share [valid / total] of
    the valid ones among the [numFreeVolSamples_] samples that lie in the
    region, and [1.0] when none does; and as [freeVolume] the product of the
    two, or [epsilon] when the product is below it.  [alpha] and [weight] are
    recomputed from these; index, selection count, coverage and motions stay.
    A region whose product is zero therefore gets [epsilon] as free volume
    and a weight that is positive and finite.  The arithmetic is that of
    binary64; the graph has [getNumRegions] vertices, the samples lie in
    regions of the decomposition, and [alpha] and [weight] are stated for a
    region whose counts are in range. *)
Theorem setupRegionEstimates_spec
    (st : Syclop (D := float) (State := State) (Control := Control)) :
  getNumRegions = Z.of_nat (length (graph_regions st)) →
  (∀ s, s ∈ freeVolSamples st → 0 ≤ locateRegion s < getNumRegions) →
  ∃ st',
    setupRegionEstimates st = Some st' ∧
    st' = set_graph_regions st (graph_regions st') ∧
    ∀ i r, getRegion st i = Some r →
      let share := validShare i (freeVolSamples st) in
      ∃ r', getRegion st' i = Some r' ∧
            volume r' = getRegionVolume i ∧
            percentValidCells r' = share ∧
            freeVolume r' = at_least_epsilon (d_mul share (getRegionVolume i)) ∧
            index r' = index r ∧ numSelections r' = numSelections r ∧
            covGridCells r' = covGridCells r ∧ motions r' = motions r ∧
            (counts_in_range r → derived r') ∧
            (PrimFloat.eqb (d_mul share (getRegionVolume i)) d_zero = true →
             freeVolume r' = d_epsilon ∧
             (counts_in_range r → d_positive (weight r'))).
Proof.
  intros Hnum Hloc.
  destruct (setupRegionEstimates_regions st Hnum Hloc)
    as (st' & Hrun & Hframe & Hregions).
  exists st'. split; [done|]. split; [done|].
  intros i r Hr. specialize (Hregions i r Hr). cbv zeta in Hregions |- *.
  set (share := validShare i (freeVolSamples st)) in *.
  eexists. split; [exact Hregions|].
  repeat (split; [done|]).
  split; [intros Hrange; by apply updateRegion_derived|].
  intros Hzero.
  assert (at_least_epsilon (d_mul share (getRegionVolume i)) = d_epsilon) as Hfv.
  { unfold at_least_epsilon.
    by rewrite (binary64_zero_below_epsilon _ Hzero). }
  split; [done|]. intros Hrange.
  apply updateRegion_weight_positive; [exact Hfv|exact Hrange].
Qed.

End Binary64.

(** ** Runs of the planner on the chain of three regions *)

Section GoalAtOnce.

#[local] Existing Instance goal_at_once.

(** The planner with the start state [3] seeded. *)
Local Abbreviation st0 := (demo_seeded (D := float)).

(** The motion [selectAndExtend] returns for region [0]: it reaches the
    goal state [14], in region [1]. *)
Local Abbreviation m14 := (mkMotion (State := Z) 14 () 1 (Some (mkMotion 3 () 0 None))).

(** C1 fails for a motion that satisfies the goal.  [selectAndExtend]
    returns the motion [m14]; the loop records it as the solution and leaves
    every list of motions as it was, so [m14] is not appended to the list of
    region [1], where its state lies.  The same is seen on [solve] as a
    whole: it returns a path that ends in the state [14], and the lists of
    the three regions hold the root motion and nothing else. *)
Lemma goal_motion_not_filed :
  selectAndExtend st0 0 = [m14] ∧
  locateRegion (D := float) (state m14) = 1 ∧
  (∃ st' pr' (improved' : bool),
     processNewMotions 0 [m14] st0 no_progress false = Some (st', pr', improved') ∧
     solution pr' = Some m14 ∧ solved pr' = true ∧
     graph_regions st' = graph_regions st0 ∧
     ¬ appended_to st0 st' 1 m14) ∧
  (∃ st',
     demo_solve = Some (true, st') ∧
     sol_path <$> solutionPaths st' =
       [[AppendState 3; AppendControl 14 () 1%float]] ∧
     motions <$> graph_regions st' = [[mkMotion 3 () 0 None]; []; []]).
Proof.
  split; [vm_compute; reflexivity|]. split; [vm_compute; reflexivity|]. split.
  - eexists _, _, _. split; [vm_compute; reflexivity|].
    split; [vm_compute; reflexivity|]. split; [vm_compute; reflexivity|].
    split; [vm_compute; reflexivity|].
    intros [(r & r' & Hr & Hr' & Hm) _].
    vm_compute in Hr, Hr'. injection Hr as <-. injection Hr' as <-.
    vm_compute in Hm. discriminate Hm.
  - eexists. split; [vm_compute; reflexivity|].
    split; vm_compute; reflexivity.
Qed.

End GoalAtOnce.

Section StoppedLater.

#[local] Existing Instance stopped_later.

(** The planner with the start state [3] seeded; the termination condition
    was not polled yet. *)
Local Abbreviation st0 := (demo_seeded (D := float)).

(** Two motions that do not satisfy the goal: one ends in the state [14],
    in region [1], the other in the state [8], in region [0]. *)
Local Abbreviation m14 := (mkMotion (State := Z) 14 () 1 (Some (mkMotion 3 () 0 None))).
Local Abbreviation m8 := (mkMotion (State := Z) 8 () 1 (Some (mkMotion 3 () 0 None))).

(** The loop handles [m14] and files it under region [1]; the termination
    condition holds at the second poll, and [m8] is not looked at. *)
Lemma motions_filed_once_witness :
  (∃ st', addStart st0 5 = Some st' ∧
          appended_to st0 st' 0 (addRoot (D := float) 5)) ∧
  (∃ st' pr' (improved' : bool),
     processNewMotions 0 [m14; m8] st0 no_progress false =
       Some (st', pr', improved') ∧
     ptc (D := float) (ptc_polls st0) = false ∧
     ptc (D := float) (S (ptc_polls st0)) = true ∧
     ptc_polls st' = 2%nat ∧
     (∀ k r, getRegion st0 k = Some r →
             ∃ r', getRegion st' k = Some r' ∧
                   motions r' =
                     motions r ++
                     filter (λ m, locateRegion (D := float) (state m) = k)
                       [m14])).
Proof.
  assert (well_formed st0) as Hwf.
  { apply (bool_decide_unpack _). vm_compute. exact I. }
  destruct (motions_filed_once st0 Hwf) as [Hstart Hnew]. split.
  - apply (Hstart 5). vm_compute. eauto.
  - destruct (Hnew 0 [m14; m8] no_progress false)
      as (st' & pr' & improved' & n & Hrun & Hn & Hpolled & _ & Hlists &
          Hstop & _).
    + intros m [-> | ->%list_elem_of_singleton]%elem_of_cons;
        vm_compute; eauto.
    + exists st', pr', improved'. split; [exact Hrun|].
      split; [vm_compute; reflexivity|]. split; [vm_compute; reflexivity|].
      destruct n as [|[|n]].
      * destruct (Hstop m14 eq_refl) as [_ [Hptc|(_ & Hsat & _)]].
        -- vm_compute in Hptc. discriminate Hptc.
        -- vm_compute in Hsat. discriminate Hsat.
      * destruct (Hstop m8 eq_refl) as [Hpolls _].
        split; [exact Hpolls|]. exact Hlists.
      * specialize (Hpolled 1%nat ltac:(lia)).
        vm_compute in Hpolled. discriminate Hpolled.
Defined.

End StoppedLater.

Section GoalLater.

#[local] Existing Instance goal_later.

(** The planner after the lead [[0]] was computed and region [0] was made
    available, and after one round of expansion from there, in which the
    tree enters region [1]. *)
Local Abbreviation st1 := (demo_available (D := float) 0).
Local Abbreviation st2 := (demo_expanded (D := float) 0).

Lemma available_keys_have_motions_witness : available_have_motions st2.
Proof.
  apply (available_keys_have_motions (demo_lead 0) st1 st2).
  - vm_compute. reflexivity.
  - apply (regionExpansions_steps 1 st1 no_progress st2
             {| solution := Some (mkMotion 14 () 1 (Some (mkMotion 3 () 0 None)));
                goalDist := 11%float; solved := false |}).
    vm_compute. reflexivity.
Defined.

(** C2 fails in its second half.  After one round of the region-expansion
    loop [availDist_] holds the key [1], the region the tree has just
    entered, and the lead is [[0]]. *)
Lemma available_key_off_lead :
  computeAvailableRegions (demo_lead (D := float) 0) = Some st1 ∧
  rtc expansion_step st1 st2 ∧
  lead_ st2 = [0] ∧
  availDist_ st2 = [(0, 0.5%float); (1, 0.5%float)] ∧
  ¬ available_on_lead st2.
Proof.
  split; [vm_compute; reflexivity|]. split.
  { apply (regionExpansions_steps 1 st1 no_progress st2
             {| solution := Some (mkMotion 14 () 1 (Some (mkMotion 3 () 0 None)));
                goalDist := 11%float; solved := false |}).
    vm_compute. reflexivity. }
  split; [vm_compute; reflexivity|]. split; [vm_compute; reflexivity|].
  intros Hlead. specialize (Hlead 1 0.5%float).
  assert (1 ∈ lead_ st2) as Hin.
  { apply Hlead. vm_compute. apply list_elem_of_further, list_elem_of_here. }
  vm_compute in Hin. apply list_elem_of_singleton in Hin. discriminate Hin.
Qed.


(** The planner after the lead [[0; 1; 2]] was computed: the edges along
    the lead were included in a lead once. *)
Local Abbreviation st3 := (demo_lead (D := float) 2).

Lemma clearEdgeCostFactors_leaves_none_witness :
  edgeCostFactors_
    (clearEdgeCostFactors (addEdgeCostFactor st3 (UserEdgeCost (λ _ _, 3%float))))
    = [] ∧
  ∃ st'',
    updateEdge
      (clearEdgeCostFactors (addEdgeCostFactor st3 (UserEdgeCost (λ _ _, 3%float))))
      (1, 2) = Some st'' ∧
    cost <$> regionsToEdge_ st'' !! (1, 2) = Some 1%float.
Proof.
  destruct (clearEdgeCostFactors_leaves_none st3 (UserEdgeCost (λ _ _, 3%float))
              (1, 2)
              {| source := 1; target := 2; cost := 2%float; adj_empty := true;
                 adj_numSelections := 0; numLeadInclusions := 1;
                 adj_covGridCells := ∅ |})
    as [Hnone (st'' & Hup & Hedge)].
  - vm_compute. reflexivity.
  - split; [exact Hnone|]. exists st''. split; [exact Hup|].
    rewrite Hedge. reflexivity.
Defined.

(** C3 fails.  [setup] installed the default factor, and the edge from
    region [1] to region [2] has the default cost [2.0].  After
    [addEdgeCostFactor] and [clearEdgeCostFactors] the list of factors is
    empty, not the list of the default factor, and [updateEdge] gives the
    edge the cost [1.0]. *)
Lemma clearEdgeCostFactors_drops_default :
  edgeCostFactors_ st3 = [DefaultEdgeCost] ∧
  defaultEdgeCost st3 1 2 = Some 2%float ∧
  let st' :=
    clearEdgeCostFactors (addEdgeCostFactor st3 (UserEdgeCost (λ _ _, 3%float))) in
  edgeCostFactors_ st' ≠ [DefaultEdgeCost] ∧
  defaultEdgeCost st' 1 2 = Some 2%float ∧
  (updateEdge st' (1, 2) ≫= λ st'', cost <$> regionsToEdge_ st'' !! (1, 2))
    = Some 1%float.
Proof.
  split; [vm_compute; reflexivity|]. split; [vm_compute; reflexivity|].
  split; [discriminate|]. split; vm_compute; reflexivity.
Qed.


(** Beyond the range of [int]: with [numLeadInclusions = 46340] the sum
    [1 + nsel*nsel] is [2147395601]; with [46341] it wraps to
    [-2147479014], and the cost is negative. *)
Example defaultEdgeCost_beyond_int :
  (a ← regionsToEdge_ st3 !! (1, 2);
   defaultEdgeCost
     (set_regionsToEdge_ st3
        (<[(1, 2) := set_numLeadInclusions a 46340]> (regionsToEdge_ st3)))
     1 2) = Some 2147395601%float ∧
  (a ← regionsToEdge_ st3 !! (1, 2);
   defaultEdgeCost
     (set_regionsToEdge_ st3
        (<[(1, 2) := set_numLeadInclusions a 46341]> (regionsToEdge_ st3)))
     1 2) = Some (-2147479014)%float.
Proof. split; vm_compute; reflexivity. Qed.

(** Beyond the range of the counter: with [numSelections = 65536] the
    square is [2^32], which is zero in a 32-bit type, signed or not, and
    the weight of a region of free volume [1.0] without coverage is [1.0]. *)
Example updateRegion_beyond_counter :
  let r :=
    set_numSelections
      (initRegion (blankRegion (D := float) (State := Z) (Control := unit) 0))
      65536 in
  weight (updateRegion (counter := unsigned_int) r) = 1%float ∧
  weight (updateRegion (counter := signed_int) r) = 1%float.
Proof. split; vm_compute; reflexivity. Qed.

(** The region [0] before and after it is selected. *)
Local Abbreviation region0 :=
  (default (blankRegion (D := float) (State := Z) (Control := unit) 0)
     (getRegion st1 0)).
Local Abbreviation region0' :=
  (default (blankRegion (D := float) (State := Z) (Control := unit) 0)
     (getRegion (demo_selected (D := float) 0) 0)).


Lemma selectRegion_frame_witness :
  availDist_ (demo_selected (D := float) 0) = availDist_ st1 ∧
  regionsToEdge_ (demo_selected (D := float) 0) = regionsToEdge_ st1 ∧
  availDist_ st1 = [(0, 0.5%float)] ∧ weight region0' = 0.25%float.
Proof.
  destruct (selectRegion_frame st1 0 (demo_selected 0)) as (_ & Hav & Hedges & _).
  - vm_compute. reflexivity.
  - split; [exact Hav|]. split; [exact Hedges|]. split; vm_compute; reflexivity.
Defined.

(** The planner after the tree has entered region [1], with the lead
    [[0; 1; 2]]. *)
Local Abbreviation st4 := (set_lead_ st2 [0; 1; 2]).

Lemma computeAvailableRegions_spec_witness :
  ∃ st' (m : nat),
    computeAvailableRegions st4 = Some st' ∧
    availDist_ st' = take m [(1, 0.5%float); (0, 0.25%float)] ∧
    (availDist_ st' ≠ [] ↔
     ∃ k r, k ∈ lead_ st4 ∧ getRegion st4 k = Some r ∧ motions r ≠ []).
Proof.
  destruct (computeAvailableRegions_spec st4)
    as (st' & m & Hrun & Hav & _ & _ & _ & _ & Hiff & _).
  - vm_compute. reflexivity.
  - apply Forall_forall. apply (bool_decide_unpack _). vm_compute. exact I.
  - exists st', m. split; [exact Hrun|]. split; [|exact Hiff].
    rewrite Hav. f_equal.
Defined.

End GoalLater.

Section NoPath.

#[local] Existing Instance no_path.

(** A planner without start states and without goal states. *)
Local Abbreviation st6 := (demo_setup (D := float) [] []).

Lemma solve_without_states_witness :
  ∃ st',
    solve 8 st6 = Some (false, st') ∧
    msg_ st' = [MsgError "There are no valid start states"] ∧
    solutionPaths st' = [] ∧ graphReady_ st' = true.
Proof.
  destruct (solve_without_states 8 st6 (the (setupEstimates st6))
              (the (setupEstimates st6)))
    as (text & st' & Hrun & Hst' & [[_ Htext]|[Hne _]] & Hpaths & Hready & _).
  - vm_compute. reflexivity.
  - vm_compute. reflexivity.
  - left. vm_compute. reflexivity.
  - exists st'. split; [exact Hrun|]. rewrite Hpaths, Hready, Hst', Htext.
    split; [vm_compute; reflexivity|]. split; [vm_compute; reflexivity|]. reflexivity.
  - exfalso. apply Hne. vm_compute. reflexivity.
Defined.

End NoPath.

Section Island.

(** The planner on the decomposition with an island.  The lead of the
    previous round is [[0; 1]]; region [2] has no neighbour, so the search
    for a path from region [0] to region [2] fails, and [computeLead] has
    no defined result. *)
Lemma failed_search_has_no_result_witness :
  lead_ (island_lead (D := float)) = [0; 1] ∧
  graph_out (island_lead (D := float)) = [[1]; [0]; []] ∧
  lead_ <$> searchLead (decomp_ := island_decomposition) (oracle := island_oracle)
              (set_lead_ island_lead []) 0 2 = Some [] ∧
  computeLead (decomp_ := island_decomposition) (oracle := island_oracle)
    (island_lead (D := float)) 0 2 = None.
Proof.
  destruct (failed_search_has_no_result (decomp_ := island_decomposition)
              (oracle := island_oracle) (island_lead (D := float)) 0 2)
    as (st1 & Hsearch & _ & Hlead & _ & _ & Hnone).
  - discriminate.
  - vm_compute. reflexivity.
  - vm_compute. reflexivity.
  - split; [vm_compute; reflexivity|]. split; [vm_compute; reflexivity|].
    split; [|exact Hnone]. rewrite Hsearch. simpl. by rewrite Hlead.
Defined.

End Island.

Section Blocked.

#[local] Existing Instance blocked.

(** The planner after [setup].  The thirty samples are the states
    [0 .. 29]; the ten of them in region [2] are invalid. *)
Local Abbreviation st7 := (demo_setup (D := float) [] []).

Lemma setupRegionEstimates_spec_witness :
  ∃ st' r',
    setupRegionEstimates st7 = Some st' ∧
    getRegion st' 2 = Some r' ∧
    percentValidCells r' = 0%float ∧
    freeVolume r' = 0x1p-52%float ∧
    d_positive (weight r').
Proof.
  destruct (setupRegionEstimates_spec st7) as (st' & Hrun & _ & Hregions).
  - vm_compute. reflexivity.
  - apply Forall_forall. apply (bool_decide_unpack _). vm_compute. exact I.
  - destruct (Hregions 2 (initRegion (blankRegion 2)))
      as (r' & Hr' & _ & Hshare & _ & _ & _ & _ & _ & _ & Hzero).
    + vm_compute. reflexivity.
    + destruct Hzero as [Hfree Hweight].
      * vm_compute. reflexivity.
      * exists st', r'. split; [exact Hrun|]. split; [exact Hr'|].
        split; [|split; [exact Hfree|]].
        -- rewrite Hshare. vm_compute. reflexivity.
        -- apply Hweight. split; vm_compute; reflexivity.
Defined.

(** The values of the run: the free volume of region [2] is
    [epsilon = 2^-52], and its weight is [2^-208]. *)
Example blocked_region_binary64 :
  (r ← (setupRegionEstimates st7 ≫= λ st', getRegion st' 2);
   Some (percentValidCells r, freeVolume r, weight r)) =
    Some (0%float, 0x1p-52%float, 0x1p-208%float) ∧
  d_positive 0x1p-208%float.
Proof. split; [vm_compute; reflexivity|]. split; vm_compute; reflexivity. Qed.

End Blocked.

(** ** Further runs *)

Section MoreGoalLater.

#[local] Existing Instance goal_later.

(** The planner with the start state [3] seeded, and its region [0]. *)
Local Abbreviation seeded := (demo_seeded (D := float)).
Local Abbreviation seeded0 :=
  (default (blankRegion (D := float) (State := Z) (Control := unit) 0)
     (getRegion seeded 0)).

(** The state [7] covers a second cell of region [0]. *)
Local Abbreviation covered7 := (the (snd <$> updateCoverageEstimate seeded 0 7)).

Lemma updateCoverageEstimate_again_witness :
  updateCoverageEstimate seeded 0 7 = Some (true, covered7) ∧
  updateCoverageEstimate covered7 0 7 = Some (false, covered7).
Proof.
  assert (updateCoverageEstimate seeded 0 7 = Some (true, covered7)) as Hrun
    by (vm_compute; reflexivity).
  split; [exact Hrun|].
  exact (proj2 (proj2 (updateCoverageEstimate_again seeded 0 7 true covered7 Hrun))).
Defined.

(** The state [14] covers a cell of the edge from region [0] to region [1]. *)
Local Abbreviation connected14 :=
  (the (snd <$> updateConnectionEstimate seeded 0 1 14)).

Lemma updateConnectionEstimate_again_witness :
  updateConnectionEstimate seeded 0 1 14 = Some (true, connected14) ∧
  updateConnectionEstimate connected14 0 1 14 = Some (false, connected14).
Proof.
  assert (updateConnectionEstimate seeded 0 1 14 = Some (true, connected14))
    as Hrun by (vm_compute; reflexivity).
  split; [exact Hrun|].
  exact (proj2 (proj2
           (updateConnectionEstimate_again seeded 0 1 14 true connected14 Hrun))).
Defined.

(** The planner after the lead [[0; 1; 2]] was computed, and after the cost
    of the edge from region [1] to region [2] was updated once more. *)
Local Abbreviation lead012 := (demo_lead (D := float) 2).
Local Abbreviation updated12 := (the (updateEdge lead012 (1, 2))).

Lemma updateEdge_again_witness :
  updateEdge lead012 (1, 2) = Some updated12 ∧
  updateEdge updated12 (1, 2) = Some updated12.
Proof.
  assert (updateEdge lead012 (1, 2) = Some updated12) as Hrun
    by (vm_compute; reflexivity).
  split; [exact Hrun|].
  exact (proj1 (updateEdge_again lead012 (1, 2) updated12 Hrun)).
Defined.

Lemma addEdgeCostFactor_multiplies_witness :
  ∃ st2,
    updateEdge (addEdgeCostFactor lead012 (UserEdgeCost (λ _ _, 3%float))) (1, 2)
      = Some st2 ∧
    cost <$> regionsToEdge_ st2 !! (1, 2) = Some 6%float.
Proof.
  destruct (addEdgeCostFactor_multiplies lead012 (UserEdgeCost (λ _ _, 3%float))
              (1, 2) updated12
              {| source := 1; target := 2; cost := 2%float; adj_empty := true;
                 adj_numSelections := 0; numLeadInclusions := 1;
                 adj_covGridCells := ∅ |}
              (updateRegion (initRegion (blankRegion 1)))
              (updateRegion (initRegion (blankRegion 2)))
              3%float)
    as (st2 & Hup & Hedge & _).
  - vm_compute. reflexivity.
  - vm_compute. reflexivity.
  - vm_compute. reflexivity.
  - vm_compute. reflexivity.
  - reflexivity.
  - exists st2. split; [exact Hup|]. rewrite Hedge. vm_compute. reflexivity.
Defined.

Lemma computeLead_same_region_witness :
  computeLead seeded 0 0 = Some (set_lead_ seeded [0]) ∧
  availDist_ <$> computeAvailableRegions (set_lead_ seeded [0])
    = Some [(0, 0.5%float)].
Proof.
  destruct (computeLead_same_region seeded 0 seeded0) as [Hlead Havail].
  - vm_compute. reflexivity.
  - intros Hm. vm_compute in Hm. discriminate Hm.
  - split; [exact Hlead|]. rewrite Havail. vm_compute. reflexivity.
Defined.

(** With [31] samples the last sample is the state [30], which lies in no
    region. *)
Lemma setupRegionEstimates_sample_outside_witness :
  setupRegionEstimates (with_samples 31 (demo_setup (D := float) [3] [])) = None.
Proof.
  apply (setupRegionEstimates_sample_outside _ 30).
  - vm_compute. discriminate.
  - vm_compute. reflexivity.
  - intros [_ Hin]. vm_compute in Hin. discriminate Hin.
Defined.

(** The first motion of the tree and its child. *)
Local Abbreviation m3 := (mkMotion (State := Z) (Control := unit) 3 () 0 None).
Local Abbreviation m14 := (mkMotion (State := Z) 14 () 1 (Some m3)).
Local Abbreviation found14 :=
  ({| solution := Some m14; goalDist := 11%float; solved := false |}).

Lemma solution_path_shape_witness :
  ∃ root rest,
    parent root = None ∧ last (root :: rest) = Some m14 ∧
    sol_path <$> solutionPaths (addSolution seeded found14).2
      = [AppendState (D := float) (state root) ::
         ((λ y, AppendControl (state y) (control y)
                  (d_mul (d_of_Z (steps y)) getPropagationStepSize)) <$> rest)].
Proof.
  destruct (solution_path_shape seeded found14 m14 eq_refl)
    as (root & rest & Hroot & Hlast & _ & Hpath).
  exists root, rest. split; [exact Hroot|]. split; [exact Hlast|].
  rewrite Hpath. reflexivity.
Defined.

(** The predecessor map of the path along the row. *)
Local Abbreviation walked := (the (leadFromParents [0; 0; 1] 0 2 seeded)).

Lemma leadFromParents_lead_witness :
  lead_ walked = [0; 1; 2] ∧
  lead_between 0 2 (lead_ walked) ∧ follows_parents [0; 0; 1] (lead_ walked).
Proof.
  assert (leadFromParents [0; 0; 1] 0 2 seeded = Some walked) as Hrun
    by (vm_compute; reflexivity).
  split; [vm_compute; reflexivity|].
  exact (proj2 (leadFromParents_lead [0; 0; 1] 0 2 seeded walked Hrun)).
Defined.

Local Abbreviation searched := (the (randomDFSLead seeded 0 2)).

Lemma randomDFSLead_follows_edges_witness :
  lead_ searched = [0; 1; 2] ∧
  lead_between 0 2 (lead_ searched) ∧ follows_edges seeded (lead_ searched).
Proof.
  assert (randomDFSLead seeded 0 2 = Some searched) as Hrun
    by (vm_compute; reflexivity).
  split; [vm_compute; reflexivity|].
  destruct (randomDFSLead_follows_edges seeded 0 2 searched Hrun)
    as [_ [Hsame|Hlead]].
  - vm_compute in Hsame. discriminate Hsame.
  - exact Hlead.
Defined.

Lemma computeLead_frame_witness :
  lead012 =
    set_rng_
      (set_lead_ (set_regionsToEdge_ seeded (regionsToEdge_ lead012))
         (lead_ lead012))
      (rng_ lead012) ∧
  lead_ lead012 = [0; 1; 2].
Proof.
  assert (computeLead seeded 0 2 = Some lead012) as Hrun
    by (vm_compute; reflexivity).
  split; [|vm_compute; reflexivity].
  exact (proj1 (computeLead_frame seeded 0 2 lead012 Hrun)).
Defined.

Lemma computeLead_lead_witness :
  lead_between 0 2 (lead_ lead012) ∧ lead_ lead012 = [0; 1; 2].
Proof.
  assert (computeLead seeded 0 2 = Some lead012) as Hrun
    by (vm_compute; reflexivity).
  split; [|vm_compute; reflexivity].
  exact (computeLead_lead seeded 0 2 lead012 Hrun).
Defined.

Lemma computeAvailableRegions_expandable_witness :
  ∃ st2, computeAvailableRegions lead012 = Some st2 ∧ expandable st2.
Proof.
  apply (computeAvailableRegions_expandable seeded 0 2 seeded0 lead012).
  - apply (bool_decide_unpack _). vm_compute. exact I.
  - vm_compute. reflexivity.
  - intros Hm. vm_compute in Hm. discriminate Hm.
  - vm_compute. reflexivity.
  - vm_compute. reflexivity.
  - apply Forall_forall. apply (bool_decide_unpack _). vm_compute. exact I.
Defined.

(** The lead [[0; 1; 2]] on the seeded planner: the edges from [0] to [1]
    and from [1] to [2] are included in one more lead. *)
Local Abbreviation with_lead := (set_lead_ seeded [0; 1; 2]).

Lemma updateLeadEdges_counts_witness :
  ∃ st',
    updateLeadEdges 4 0 with_lead = Some st' ∧
    numLeadInclusions <$> regionsToEdge_ with_lead !! (1, 2) = Some 0 ∧
    numLeadInclusions <$> regionsToEdge_ st' !! (1, 2) = Some 1.
Proof.
  destruct (updateLeadEdges_counts with_lead) as (st' & Hrun & Hcount).
  - apply (bool_decide_unpack _). vm_compute. exact I.
  - discriminate.
  - vm_compute. reflexivity.
  - apply Forall_forall. apply (bool_decide_unpack _). vm_compute. exact I.
  - exists st'. split; [exact Hrun|]. split; [vm_compute; reflexivity|].
    destruct (Hcount (1, 2) (blankAdjacency 1 2)) as (a' & Ha' & Hn).
    + vm_compute. reflexivity.
    + rewrite Ha'. simpl. rewrite Hn. vm_compute. reflexivity.
Defined.

(** The planner after the lead [[0]] was computed and region [0] was made
    available, and after one round of expansion, in which the tree enters
    region [1]. *)
Local Abbreviation available0 := (demo_available (D := float) 0).
Local Abbreviation expanded0 := (demo_expanded (D := float) 0).

Lemma tree_only_grows_witness : tree_grown available0 expanded0.
Proof.
  apply (tree_only_grows available0 expanded0).
  apply (regionExpansions_steps 1 available0 no_progress expanded0 found14).
  vm_compute. reflexivity.
Defined.

Lemma numMotions_counts_filed_witness :
  numMotions_ expanded0 = filedMotions expanded0 ∧ numMotions_ expanded0 = 2.
Proof.
  destruct (numMotions_counts_filed available0) as [_ Hsteps].
  - vm_compute. reflexivity.
  - split; [|vm_compute; reflexivity]. apply Hsteps.
    apply (regionExpansions_steps 1 available0 no_progress expanded0 found14).
    vm_compute. reflexivity.
Defined.

(** The edge from region [0] to region [1] before the tree crosses it. *)
Local Abbreviation edge01 :=
  (default (blankAdjacency (D := float) 0 1)
     (regionsToEdge_ available0 !! (0, 1))).
Local Abbreviation crossed :=
  (the ((λ x, x.1.1) <$> processMotion 0 m14 available0 no_progress false)).

Lemma processMotion_crossing_witness :
  ∃ a', regionsToEdge_ crossed !! (0, 1) = Some a' ∧
        adj_empty edge01 = true ∧ adj_empty a' = false ∧
        adj_numSelections a' = 1 ∧
        adj_covGridCells a' = {[14]} ∪ adj_covGridCells edge01.
Proof.
  pose proof (processMotion_crossing 0 m14 available0 no_progress false crossed
                found14 true) as Hcross.
  assert (regionsToEdge_ available0 !! (0, locateRegion (D := float) (state m14))
          = Some edge01) as Hedge by (vm_compute; reflexivity).
  rewrite Hedge in Hcross.
  destruct Hcross as (a' & Ha' & Hempty & Hsel & Hcells & _).
  - apply (bool_decide_unpack _). vm_compute. exact I.
  - vm_compute. reflexivity.
  - vm_compute. discriminate.
  - vm_compute. reflexivity.
  - exists a'. split; [exact Ha'|]. split; [vm_compute; reflexivity|].
    split; [exact Hempty|]. split; [|exact Hcells].
    rewrite Hsel. vm_compute. reflexivity.
Defined.

Lemma regionExpansions_defined_witness :
  ∃ st' pr',
    regionExpansions (planner := careful_planner 11) 2 available0 no_progress
      = Some (st', pr') ∧
    expandable st'.
Proof.
  apply (regionExpansions_defined (planner := careful_planner 11) 2 available0
           no_progress).
  - intros d u Hd. destruct d as [|e d]; [by destruct Hd|].
    apply list_elem_of_here.
  - intros st k m. cbn [selectAndExtend careful_planner].
    destruct (getRegion st k) as [r|]; [|by intros ?%elem_of_nil].
    destruct (last (motions r)) as [m0|]; [|by intros ?%elem_of_nil].
    case_decide as Hin; [|by intros ?%elem_of_nil].
    intros ->%list_elem_of_singleton. exact Hin.
  - split; [|split].
    + apply (bool_decide_unpack _). vm_compute. exact I.
    + intros Hnil. vm_compute in Hnil. discriminate Hnil.
    + apply (computeAvailableRegions_keys (demo_lead 0)). vm_compute. reflexivity.
Defined.

(** The planner after [setup], and with the estimates set up. *)
Local Abbreviation built := (demo_setup (D := float) [3; 14] [25]).
Local Abbreviation estimated := (the (setupEstimates built)).

Lemma setup_fresh_witness :
  ∃ st',
    setup (fresh (D := float) [3; 14] [25]) = Some st' ∧
    graph_out st' = [[1]; [0; 2]; [1]] ∧
    cost <$> regionsToEdge_ st' !! (1, 2) = Some 1%float ∧
    edgeCostFactors_ st' = [DefaultEdgeCost].
Proof.
  destruct (setup_fresh (fresh (D := float) [3; 14] [25]))
    as (st' & Hrun & _ & _ & Hout & Hedges & Hfactors & _);
    try reflexivity.
  - vm_compute. discriminate.
  - intros i j Hi Hj. change getNumRegions with 3 in *.
    assert (i = 0 ∨ i = 1 ∨ i = 2) as [-> | [-> | ->]] by lia;
      [change (j ∈ [1]) in Hj|change (j ∈ [0; 2]) in Hj|change (j ∈ [1]) in Hj];
      rewrite ?elem_of_cons in Hj;
      repeat (destruct Hj as [->|Hj]; [lia|]); by apply elem_of_nil in Hj.
  - exists st'. split; [exact Hrun|]. split; [by rewrite Hout|].
    split; [|exact Hfactors].
    specialize (Hedges 1 2). rewrite decide_True in Hedges.
    + destruct Hedges as (a & -> & _ & _ & Hcost). simpl. by rewrite Hcost.
    + split; [change getNumRegions with 3; lia|].
      apply list_elem_of_further, list_elem_of_here.
Defined.

Lemma setupEdgeEstimates_resets_witness :
  ∃ st',
    setupEdgeEstimates built = Some st' ∧
    st' = set_regionsToEdge_ built (regionsToEdge_ st') ∧
    ∃ a', regionsToEdge_ st' !! (1, 2) = Some a' ∧
          edgeCost st' a' = Some (cost a').
Proof.
  destruct (setupEdgeEstimates_resets built) as (st' & Hrun & Hframe & Hedges).
  - apply (bool_decide_unpack _). vm_compute. exact I.
  - apply Forall_forall. apply (bool_decide_unpack _). vm_compute. exact I.
  - exists st'. split; [exact Hrun|]. split; [exact Hframe|].
    destruct (Hedges (1, 2) (blankAdjacency 1 2)) as (a' & Ha' & Hcase).
    + vm_compute. reflexivity.
    + exists a'. split; [exact Ha'|]. rewrite decide_True in Hcase.
      * exact (proj2 Hcase).
      * apply (bool_decide_unpack _). vm_compute. exact I.
Defined.

Lemma addStarts_files_witness :
  ∃ st',
    addStarts [3; 14] estimated = Some st' ∧
    numMotions_ st' = 2 ∧
    motions <$> getRegion st' 1 = Some [mkMotion 14 () 0 None].
Proof.
  destruct (addStarts_files [3; 14] estimated) as (st' & Hrun & _ & Hcount & Hfiled).
  - apply Forall_forall. apply (bool_decide_unpack _). vm_compute. exact I.
  - exists st'. split; [exact Hrun|]. split.
    + rewrite Hcount. vm_compute. reflexivity.
    + destruct (Hfiled 1 (default (blankRegion 1) (getRegion estimated 1)))
        as (r' & Hr' & Hm).
      * vm_compute. reflexivity.
      * rewrite Hr'. simpl. rewrite Hm. vm_compute. reflexivity.
Defined.

Lemma chooseGoalRegion_member_witness :
  (chooseGoalRegion built).1 = 2 ∧
  (chooseGoalRegion built).1 ∈ goalRegions_ (chooseGoalRegion built).2.
Proof.
  split; [vm_compute; reflexivity|].
  refine (proj1 (chooseGoalRegion_member built _ _)).
  - intros n s Hs. cbn [regionSet_sampleUniform demo_oracle chain_oracle].
    destruct (elements s) as [|x l] eqn:Helements.
    + by apply elements_empty_inv, leibniz_equiv in Helements.
    + simpl. apply elem_of_elements. rewrite Helements. apply list_elem_of_here.
  - left. discriminate.
Defined.

End MoreGoalLater.

Section MoreGoalAtOnce.

#[local] Existing Instance goal_at_once.

(** A complete call of [solve]: the first motion of the tree reaches the
    goal state [14]. *)
Local Abbreviation solved14 := (the (snd <$> demo_solve (D := float))).

Lemma solve_reports_witness :
  ∃ m : Motion (State := Z) (Control := unit),
    solutionPaths solved14 =
      solutionPaths (demo_setup (D := float) [3] [14]) ++
      [{| sol_path := pathEntry <$> reverse (mpath m);
          sol_approximate := negb (isSatisfied (D := float) (state m)).1;
          sol_difference := (isSatisfied (state m)).2 |}].
Proof.
  assert (solve 8 (demo_setup (D := float) [3] [14]) = Some (true, solved14))
    as Hrun by (vm_compute; reflexivity).
  exact (solve_reports 8 (demo_setup [3] [14]) true solved14 Hrun).
Defined.

Lemma solve_keeps_graph_witness :
  same_graph (demo_setup (D := float) [3] [14]) solved14 ∧ well_formed solved14.
Proof.
  destruct (solve_keeps_graph 8 (demo_setup (D := float) [3] [14]) true solved14)
    as [Hsame Hwf].
  - vm_compute. reflexivity.
  - split; [exact Hsame|]. apply Hwf.
    apply (bool_decide_unpack _). vm_compute. exact I.
Defined.

End MoreGoalAtOnce.

Section Stopped.

#[local] Existing Instance stopped.

(** A planner that knows the goal region [2], with the start state [3]. *)
Local Abbreviation ready :=
  (set_goalRegions_ (demo_setup (D := float) [3] []) {[2]}).
Local Abbreviation ready1 := (the (setupEstimates ready)).
Local Abbreviation ready2 := (the (addStarts (pis_starts ready1) ready1)).

Lemma solve_terminated_at_once_witness :
  solve 1 ready =
    Some (false,
          set_ptc_polls (log ready2 (MsgInformStarting (numMotions_ ready2)))
            (S (ptc_polls ready2))) ∧
  numMotions_ ready2 = 1.
Proof.
  split; [|vm_compute; reflexivity].
  apply (solve_terminated_at_once 0 ready ready1 ready2).
  - vm_compute. reflexivity.
  - vm_compute. reflexivity.
  - apply (bool_decide_unpack _). vm_compute. exact I.
  - apply (bool_decide_unpack _). vm_compute. exact I.
  - vm_compute. reflexivity.
Defined.

End Stopped.
